(** * Post-fire vegetation recovery: the scenario runner of josh-toolbox-demo

    A shallow embedding of [run_scenarios.py] and of the sweep generator
    [configs/sweep/generate_configs.py]:

    - [Jshc]: the parameter parser [parse_jshc] (string level, with the
      [ValueError] that [float] raises on a malformed numeric token);
    - [Gen]: [generate_model], i.e. the extraction of the parameters (with the
      [KeyError] of a missing key and the [OverflowError] of [int] on an
      infinite float) and the choice of the four fire-specific expressions
      by [has_fire];
    - [Sim]: the meaning of the rule set that [generate_model] emits, one
      definition per emitted rule, carrying the rule's name;
    - [Agg]: [combine_results] over the fixed scenario table;
    - [Orch]: [run_scenario] and [main], over an engine given as a function
      from the generated model and the results directory to a return
      status and the directory it leaves;
    - [Sweep]: [parse_csv], [extract_parameters] and [generate_jshc].

    Conventions of the embedding.
    - Characters are 7-bit ASCII; Python's [str.isspace] and the regular
      expression classes [\s], [\w] are given on that range.
    - The value of [float(tok)] for a token of digits and dots is kept as the
      exact decimal rational: the rounding to the nearest double is not
      modelled, its overflow is ([is_inf] tells when the double is
      infinite, which [int] answers with [OverflowError]).  The
      float-valued parameters (the two thresholds and the suppression
      coefficient) are read with their decimal also where the double is
      infinite.  Numbers of the rule set are rationals [Q], counts are
      integers [Z]; a quantity in [percent] is the number in front of the
      unit.
    - [sample uniform from lo to hi] is [lo + u * (hi - lo)] for the next
      unit draw [u] of an explicit draw sequence.
    - The rule set is executed by an external engine.  The reading taken
      here: an attribute without a handler for an event keeps its value; an
      unqualified name in a [.step] rule is the value of the current step;
      [prior.NativeTree] in the [.start] rule is the collection left by the
      previous step; the patch's [.step] attributes are evaluated on the
      collection filtered at [.start], then the organisms of that collection
      take their step, then [.end] appends the created organisms to it
      (organisms that died in the step stay in the collection until the next
      [.start] filters them out); every [create ... of NativeTree] runs the
      organism's [.init] rules.  Division is the division of [Q], which
      gives 0 for a zero divisor.  Organisms carry an identity [ident] (the
      engine's entity identity), used only to follow one organism through a
      run. *)

From Stdlib Require Import ZArith QArith Qminmax Ascii String List Lia Lqa Bool.
From stdpp Require Import base gmap strings list.
Import ListNotations.

Open Scope string_scope.

(** ** Python results: a value or a raised exception *)

Inductive exn :=
| ValueError (tok : string)
| KeyError (key : string)
| TypeError
| OverflowError.

Inductive res (A : Type) :=
| Ok (a : A)
| Raise (e : exn).
Arguments Ok {A} a.
Arguments Raise {A} e.

#[global] Instance res_ret : MRet res := fun _ a => Ok a.
#[global] Instance res_bind : MBind res := fun _ _ k r =>
  match r with
  | Ok a => k a
  | Raise e => Raise e
  end.

(** Comparisons on [Q] as booleans, as the rules use them. *)
Definition Qltb (a b : Q) : bool := negb (Qle_bool b a).
Definition Qgtb (a b : Q) : bool := Qltb b a.
Definition Qgeb (a b : Q) : bool := Qle_bool b a.

Lemma Qltb_lt a b : Qltb a b = true <-> (a < b)%Q.
Proof.
  unfold Qltb. rewrite negb_true_iff.
  destruct (Qle_bool b a) eqn:E; split; intros H; try discriminate; try reflexivity.
  - apply Qle_bool_iff in E. exfalso. exact (Qlt_not_le _ _ H E).
  - apply Qnot_le_lt. intros C. apply Qle_bool_iff in C. congruence.
Qed.

Lemma Qltb_ge a b : Qltb a b = false <-> (b <= a)%Q.
Proof.
  unfold Qltb. rewrite negb_false_iff. apply Qle_bool_iff.
Qed.

Lemma Qgtb_gt a b : Qgtb a b = true <-> (b < a)%Q.
Proof. apply Qltb_lt. Qed.

Lemma Qgtb_le a b : Qgtb a b = false <-> (a <= b)%Q.
Proof. apply Qltb_ge. Qed.

(** ** The parameter parser *)

Module Jshc.

(** [str.isspace] on ASCII: tab .. carriage return, the four separators
    0x1c .. 0x1f, and space. *)
Definition is_space (c : ascii) : bool :=
  let n := nat_of_ascii c in
  ((9 <=? n) && (n <=? 13) || (28 <=? n) && (n <=? 32))%nat.

(** The class [[0-9.]] of the regular expression. *)
Definition is_digit (c : ascii) : bool :=
  let n := nat_of_ascii c in ((48 <=? n) && (n <=? 57))%nat.

Definition is_numchar (c : ascii) : bool :=
  is_digit c || Ascii.eqb c "."%char.

(** The class [\w] on ASCII: letters, digits and the underscore. *)
Definition is_word (c : ascii) : bool :=
  let n := nat_of_ascii c in
  (is_digit c || (65 <=? n) && (n <=? 90) || (97 <=? n) && (n <=? 122)
   || (n =? 95))%nat.

(** [s.split(d)[0]]: the text before the first [d]. *)
Fixpoint before_first (d : ascii) (s : string) : string :=
  match s with
  | EmptyString => EmptyString
  | String c s' => if Ascii.eqb c d then EmptyString
                   else String c (before_first d s')
  end.

(** [d in s] *)
Fixpoint contains (d : ascii) (s : string) : bool :=
  match s with
  | EmptyString => false
  | String c s' => Ascii.eqb c d || contains d s'
  end.

(** [s.split(d, 1)[1]] when [d] occurs in [s]: the text after the first [d]. *)
Fixpoint after_first (d : ascii) (s : string) : string :=
  match s with
  | EmptyString => EmptyString
  | String c s' => if Ascii.eqb c d then s' else after_first d s'
  end.

Fixpoint lstrip (s : string) : string :=
  match s with
  | EmptyString => EmptyString
  | String c s' => if is_space c then lstrip s' else s
  end.

Fixpoint rstrip (s : string) : string :=
  match s with
  | EmptyString => EmptyString
  | String c s' =>
      match rstrip s' with
      | EmptyString => if is_space c then EmptyString else String c EmptyString
      | r => String c r
      end
  end.

Definition strip (s : string) : string := rstrip (lstrip s).

(** The longest prefix whose characters satisfy [p], and what follows. *)
Fixpoint span (p : ascii -> bool) (s : string) : string * string :=
  match s with
  | EmptyString => (EmptyString, EmptyString)
  | String c s' =>
      if p c then let '(a, b) := span p s' in (String c a, b)
      else (EmptyString, s)
  end.

(** [re.match] of the value against the pattern of [parse_jshc] (group 1:
    one or more characters of [[0-9.]]; then any white space; group 2: any
    word characters), returning the groups 1 and 2.  Every
    quantifier is greedy and what follows each of them can match the empty
    string, so the match is the greedy one and exists exactly when the
    first group is not empty. *)
Definition re_match (value : string) : option (string * string) :=
  let '(g1, r1) := span is_numchar value in
  match g1 with
  | EmptyString => None
  | _ =>
      let '(_, r2) := span is_space r1 in
      let '(g2, _) := span is_word r2 in
      Some (g1, g2)
  end.

Fixpoint pow10 (n : nat) : positive :=
  match n with
  | O => 1
  | S n' => 10 * pow10 n'
  end.

(** Decimal digits, most significant first. *)
Fixpoint digits_val (acc : N) (s : string) : N :=
  match s with
  | EmptyString => acc
  | String c s' =>
      digits_val (10 * acc + N.of_nat (nat_of_ascii c - 48)) s'
  end.

(** [float(tok)] for a token of digits and dots: digits with at most one
    dot and at least one digit; anything else raises [ValueError]. *)
Definition py_float (tok : string) : res Q :=
  let ip := before_first "." tok in
  if contains "." tok then
    let fp := after_first "." tok in
    if contains "." fp then Raise (ValueError tok)
    else
      match ip, fp with
      | EmptyString, EmptyString => Raise (ValueError tok)
      | _, _ =>
          Ok (Qmake (Z.of_N (digits_val (digits_val 0 ip) fp))
                    (pow10 (String.length fp)))
      end
  else Ok (inject_Z (Z.of_N (digits_val 0 tok))).

(** The text that [parse_jshc] matches against the pattern, for a line
    that contains [=]: comment removed, split at the first [=], stripped. *)
Definition comment_free (line : string) : string :=
  strip (before_first "#" line).

Definition key_of (line : string) : string :=
  strip (before_first "=" (comment_free line)).

Definition value_of (line : string) : string :=
  strip (after_first "=" (comment_free line)).

(** The body of the loop of [parse_jshc]: the binding that the line adds to
    [params], if any. *)
Definition parse_line (line : string) : res (option (string * (Q * string))) :=
  if contains "=" (comment_free line) then
    match re_match (value_of line) with
    | Some (g1, g2) =>
        num ← py_float g1;
        mret (Some (key_of line, (num, g2)))
    | None => mret None
    end
  else mret None.

Fixpoint parse_lines (lines : list string) (params : gmap string (Q * string))
  : res (gmap string (Q * string)) :=
  match lines with
  | [] => mret params
  | line :: rest =>
      b ← parse_line line;
      parse_lines rest
        (match b with
         | Some (key, v) => <[key := v]> params
         | None => params
         end)
  end.

Definition parse_jshc (lines : list string) : res (gmap string (Q * string)) :=
  parse_lines lines ∅.

(** Whether the value text starts with a character of [[0-9.]]. *)
Definition starts_numeric (value : string) : bool :=
  match value with
  | EmptyString => false
  | String c _ => is_numchar c
  end.

(** Every stored value is non-negative. *)
Definition nonneg_values (params : gmap string (Q * string)) : Prop :=
  forall key num unit, params !! key = Some (num, unit) -> (0 <= num)%Q.

End Jshc.

(** [params[key]]: a missing key raises [KeyError]. *)
Definition getitem (params : gmap string (Q * string)) (key : string)
  : res (Q * string) :=
  match params !! key with
  | Some v => Ok v
  | None => Raise (KeyError key)
  end.

(** The double that [float] returns for a token is infinite exactly when
    the decimal of the token reaches [2^1024 - 2^970], half a unit in the
    last place above the largest double [2^1024 - 2^971]. *)
Definition is_inf (q : Q) : bool :=
  Qle_bool (inject_Z (2 ^ 1024 - 2 ^ 970)) q.
Arguments is_inf : simpl never.

(** [int(x)] on a finite float: truncation towards zero. *)
Definition py_int (q : Q) : Z := Z.quot (Qnum q) (Zpos (Qden q)).

(** ** The model parameterizer *)

Module Gen.

(** [params[key][0]] and [int(params[key][0])]; [int] raises
    [OverflowError] on an infinite float. *)
Definition num (params : gmap string (Q * string)) (key : string) : res Q :=
  v ← getitem params key; mret (fst v).

Definition int (params : gmap string (Q * string)) (key : string) : res Z :=
  v ← num params key;
  if is_inf v then Raise OverflowError else mret (py_int v).

(** The values that [generate_model] extracts, under the names of its
    local variables. *)
Record consts := {
  total_steps : Z;
  initial_trees : Z;
  max_trees : Z;
  seedling_to_juvenile : Z;
  juvenile_to_adult : Z;
  seedling_mortality : Z;
  juvenile_mortality : Z;
  adult_mortality : Z;
  seedling_invasive_pressure : Z;
  invasive_pressure_threshold : Z;
  fire_high_seedling : Z;
  fire_high_juvenile : Z;
  fire_high_adult : Z;
  fire_med_seedling : Z;
  fire_med_juvenile : Z;
  fire_med_adult : Z;
  fire_low_seedling : Z;
  fire_low_juvenile : Z;
  fire_low_adult : Z;
  high_threshold : Q;
  med_threshold : Q;
  baseline_invasive : Z;
  fire_high_invasive : Z;
  fire_med_invasive : Z;
  fire_low_invasive : Z;
  establishment_threshold : Z;
  base_growth : Z;
  post_fire_bonus : Z;
  post_fire_duration : Z;
  tree_suppression : Q;
  removal_duration : Z;
  age_min : Z;
  age_max : Z
}.

Definition extract (params : gmap string (Q * string)) : res consts :=
  total_steps ← int params "totalSteps";
  initial_trees ← int params "initialTreesPerPatch";
  max_trees ← int params "maxTreesPerPatch";
  seedling_to_juvenile ← int params "seedlingToJuvenileAge";
  juvenile_to_adult ← int params "juvenileToAdultAge";
  seedling_mortality ← int params "seedlingBaseMortality";
  juvenile_mortality ← int params "juvenileBaseMortality";
  adult_mortality ← int params "adultBaseMortality";
  seedling_invasive_pressure ← int params "seedlingInvasivePressure";
  invasive_pressure_threshold ← int params "invasivePressureThreshold";
  fire_high_seedling ← int params "fireHighSeedling";
  fire_high_juvenile ← int params "fireHighJuvenile";
  fire_high_adult ← int params "fireHighAdult";
  fire_med_seedling ← int params "fireMediumSeedling";
  fire_med_juvenile ← int params "fireMediumJuvenile";
  fire_med_adult ← int params "fireMediumAdult";
  fire_low_seedling ← int params "fireLowSeedling";
  fire_low_juvenile ← int params "fireLowJuvenile";
  fire_low_adult ← int params "fireLowAdult";
  high_threshold ← num params "highSeverityThreshold";
  med_threshold ← num params "mediumSeverityThreshold";
  baseline_invasive ← int params "baselineInvasiveCover";
  fire_high_invasive ← int params "fireHighInvasiveCover";
  fire_med_invasive ← int params "fireMediumInvasiveCover";
  fire_low_invasive ← int params "fireLowInvasiveCover";
  establishment_threshold ← int params "establishmentThreshold";
  base_growth ← int params "invasiveBaseGrowthRate";
  post_fire_bonus ← int params "postFireGrowthBonus";
  post_fire_duration ← int params "postFireBonusDuration";
  tree_suppression ← num params "treeSuppression";
  removal_duration ← int params "removalDuration";
  age_min ← int params "initialAgeMin";
  age_max ← int params "initialAgeMax";
  mret {| total_steps := total_steps; initial_trees := initial_trees;
          max_trees := max_trees;
          seedling_to_juvenile := seedling_to_juvenile;
          juvenile_to_adult := juvenile_to_adult;
          seedling_mortality := seedling_mortality;
          juvenile_mortality := juvenile_mortality;
          adult_mortality := adult_mortality;
          seedling_invasive_pressure := seedling_invasive_pressure;
          invasive_pressure_threshold := invasive_pressure_threshold;
          fire_high_seedling := fire_high_seedling;
          fire_high_juvenile := fire_high_juvenile;
          fire_high_adult := fire_high_adult;
          fire_med_seedling := fire_med_seedling;
          fire_med_juvenile := fire_med_juvenile;
          fire_med_adult := fire_med_adult;
          fire_low_seedling := fire_low_seedling;
          fire_low_juvenile := fire_low_juvenile;
          fire_low_adult := fire_low_adult;
          high_threshold := high_threshold;
          med_threshold := med_threshold;
          baseline_invasive := baseline_invasive;
          fire_high_invasive := fire_high_invasive;
          fire_med_invasive := fire_med_invasive;
          fire_low_invasive := fire_low_invasive;
          establishment_threshold := establishment_threshold;
          base_growth := base_growth;
          post_fire_bonus := post_fire_bonus;
          post_fire_duration := post_fire_duration;
          tree_suppression := tree_suppression;
          removal_duration := removal_duration;
          age_min := age_min; age_max := age_max |}.

(** What [extract] has read: every field is the value looked up under its
    key. *)
Definition extracted (params : gmap string (Q * string)) (c : consts) : Prop :=
  int params "totalSteps" = Ok (total_steps c) /\
  int params "initialTreesPerPatch" = Ok (initial_trees c) /\
  int params "maxTreesPerPatch" = Ok (max_trees c) /\
  int params "seedlingToJuvenileAge" = Ok (seedling_to_juvenile c) /\
  int params "juvenileToAdultAge" = Ok (juvenile_to_adult c) /\
  int params "seedlingBaseMortality" = Ok (seedling_mortality c) /\
  int params "juvenileBaseMortality" = Ok (juvenile_mortality c) /\
  int params "adultBaseMortality" = Ok (adult_mortality c) /\
  int params "seedlingInvasivePressure" = Ok (seedling_invasive_pressure c) /\
  int params "invasivePressureThreshold" = Ok (invasive_pressure_threshold c) /\
  int params "fireHighSeedling" = Ok (fire_high_seedling c) /\
  int params "fireHighJuvenile" = Ok (fire_high_juvenile c) /\
  int params "fireHighAdult" = Ok (fire_high_adult c) /\
  int params "fireMediumSeedling" = Ok (fire_med_seedling c) /\
  int params "fireMediumJuvenile" = Ok (fire_med_juvenile c) /\
  int params "fireMediumAdult" = Ok (fire_med_adult c) /\
  int params "fireLowSeedling" = Ok (fire_low_seedling c) /\
  int params "fireLowJuvenile" = Ok (fire_low_juvenile c) /\
  int params "fireLowAdult" = Ok (fire_low_adult c) /\
  num params "highSeverityThreshold" = Ok (high_threshold c) /\
  num params "mediumSeverityThreshold" = Ok (med_threshold c) /\
  int params "baselineInvasiveCover" = Ok (baseline_invasive c) /\
  int params "fireHighInvasiveCover" = Ok (fire_high_invasive c) /\
  int params "fireMediumInvasiveCover" = Ok (fire_med_invasive c) /\
  int params "fireLowInvasiveCover" = Ok (fire_low_invasive c) /\
  int params "establishmentThreshold" = Ok (establishment_threshold c) /\
  int params "invasiveBaseGrowthRate" = Ok (base_growth c) /\
  int params "postFireGrowthBonus" = Ok (post_fire_bonus c) /\
  int params "postFireBonusDuration" = Ok (post_fire_duration c) /\
  num params "treeSuppression" = Ok (tree_suppression c) /\
  int params "removalDuration" = Ok (removal_duration c) /\
  int params "initialAgeMin" = Ok (age_min c) /\
  int params "initialAgeMax" = Ok (age_max c).

(** The life stage of an organism, the value of its [state] attribute. *)
Inductive stage := Seedling | Juvenile | Adult.

Definition stage_eqb (a b : stage) : bool :=
  match a, b with
  | Seedling, Seedling | Juvenile, Juvenile | Adult, Adult => true
  | _, _ => false
  end.

(** The four expressions that depend on [has_fire].  Each is given by its
    value in the names it reads: the patch's value in the external data,
    [here.fireSeverity] and [current.state], [fireSeverity], [stepCount]. *)
Record fire_rules := {
  fire_severity_init : Q -> Q;
  fire_mortality : Q -> stage -> Q;
  invasive_init : Q -> Q;
  post_fire_bonus_expr : Z -> Q
}.

Definition fire_specific (c : consts) (has_fire : bool) : fire_rules :=
  if has_fire then
    {| fire_severity_init := fun external_data => external_data;
       fire_mortality := fun fireSeverity state =>
         if Qgtb fireSeverity (high_threshold c) && stage_eqb state Seedling
         then inject_Z (fire_high_seedling c) else
         if Qgtb fireSeverity (high_threshold c) && stage_eqb state Juvenile
         then inject_Z (fire_high_juvenile c) else
         if Qgtb fireSeverity (high_threshold c) && stage_eqb state Adult
         then inject_Z (fire_high_adult c) else
         if Qgtb fireSeverity (med_threshold c) && stage_eqb state Seedling
         then inject_Z (fire_med_seedling c) else
         if Qgtb fireSeverity (med_threshold c) && stage_eqb state Juvenile
         then inject_Z (fire_med_juvenile c) else
         if Qgtb fireSeverity (med_threshold c) && stage_eqb state Adult
         then inject_Z (fire_med_adult c) else
         if stage_eqb state Seedling then inject_Z (fire_low_seedling c) else
         if stage_eqb state Juvenile then inject_Z (fire_low_juvenile c)
         else inject_Z (fire_low_adult c);
       invasive_init := fun fireSeverity =>
         if Qgtb fireSeverity (high_threshold c)
         then inject_Z (fire_high_invasive c) else
         if Qgtb fireSeverity (med_threshold c)
         then inject_Z (fire_med_invasive c)
         else inject_Z (fire_low_invasive c);
       post_fire_bonus_expr := fun stepCount =>
         if (stepCount <? post_fire_duration c)%Z
         then inject_Z (post_fire_bonus c) else 0%Q |}
  else
    {| fire_severity_init := fun _ => 0%Q;
       fire_mortality := fun _ _ => 0%Q;
       invasive_init := fun _ => inject_Z (baseline_invasive c);
       post_fire_bonus_expr := fun _ => 0%Q |}.

(** The tiered lookup as the specification words it: the severity tier of
    a patch, and the table keyed by tier and life stage. *)
Inductive tier := High | Medium | Low.

Definition severity_tier (c : consts) (severity : Q) : tier :=
  if Qgtb severity (high_threshold c) then High
  else if Qgtb severity (med_threshold c) then Medium
  else Low.

Definition tier_mortality (c : consts) (t : tier) (s : stage) : Z :=
  match t, s with
  | High, Seedling => fire_high_seedling c
  | High, Juvenile => fire_high_juvenile c
  | High, Adult => fire_high_adult c
  | Medium, Seedling => fire_med_seedling c
  | Medium, Juvenile => fire_med_juvenile c
  | Medium, Adult => fire_med_adult c
  | Low, Seedling => fire_low_seedling c
  | Low, Juvenile => fire_low_juvenile c
  | Low, Adult => fire_low_adult c
  end.

Definition tier_cover (c : consts) (t : tier) : Z :=
  match t with
  | High => fire_high_invasive c
  | Medium => fire_med_invasive c
  | Low => fire_low_invasive c
  end.

(** The generated rule set: the interpolated values and the four chosen
    expressions; the rest of the template is fixed text, given in [Sim]. *)
Record model := {
  scenario_name : string;
  seeding_boost : Z;
  removal_effort : Z;
  cst :> consts;
  rules :> fire_rules
}.

Definition generate_model (scenario_name : string) (has_fire : bool)
    (seeding_boost removal_effort : Z) (params : gmap string (Q * string))
  : res model :=
  c ← extract params;
  mret {| scenario_name := scenario_name;
          seeding_boost := seeding_boost;
          removal_effort := removal_effort;
          cst := c;
          rules := fire_specific c has_fire |}.

End Gen.

(** The scenario table: name, has_fire, seeding_boost, removal_effort. *)
Definition SCENARIOS : list (string * bool * Z * Z) :=
  [ ("baseline",     false, 0, 0);
    ("fire_only",    true,  0, 0);
    ("fire_seeding", true,  8, 0);
    ("fire_removal", true,  0, 12);
    ("fire_both",    true,  8, 12) ]%Z.

(** ** The rule set of one scenario *)

Module Sim.
Import Gen.

(** Computations that consume unit draws: the position in the draw
    sequence is threaded through. *)
Definition rand (A : Type) : Type := nat -> A * nat.

#[global] Instance rand_ret : MRet rand := fun _ a k => (a, k).
#[global] Instance rand_bind : MBind rand := fun _ _ f r k =>
  let '(a, k') := r k in f a k'.

Fixpoint mapR {A B} (f : A -> rand B) (l : list A) : rand (list B) :=
  match l with
  | [] => mret []
  | a :: l' => b ← f a; bs ← mapR f l'; mret (b :: bs)
  end.

Record organism := {
  ident : nat;
  age : Q;
  state : stage;
  fireDeathRoll : Q;
  fireMortality : Q;
  alive : bool
}.

Record patch := {
  seedingBoost : Z;
  removalEffort : Z;
  fireSeverity : Q;
  NativeTree : list organism;
  invasiveCover : Q;
  stepCount : Z;
  created : nat
}.

(** The values written to the scenario's CSV at a step. *)
Record export_row := {
  numSeedling : Z;
  numJuvenile : Z;
  numAdult : Z;
  numAlive : Z;
  export_invasiveCover : Q;
  newSeedlings : Z
}.

(** [count(NativeTree[NativeTree.state == s])] and [count(NativeTree)]. *)
Definition count_state (s : stage) (trees : list organism) : Z :=
  Z.of_nat (length (List.filter (fun o => stage_eqb (state o) s) trees)).

Definition count (trees : list organism) : Z := Z.of_nat (length trees).

Section Rules.

Variable m : model.
Variable u : nat -> Q.

(** [sample uniform from lo to hi] *)
Definition sample_uniform (lo hi : Q) : rand Q :=
  fun k => ((lo + u k * (hi - lo))%Q, S k).

(** *** organism NativeTree *)

Definition state_init (age : Q) : stage :=
  if Qgeb age (inject_Z (juvenile_to_adult m)) then Adult
  else if Qgeb age (inject_Z (seedling_to_juvenile m)) then Juvenile
  else Seedling.

Definition alive_init (fireDeathRoll fireMortality : Q) : bool :=
  Qgtb fireDeathRoll fireMortality.

(** The [.init] rules of the organism, run when it is created in a patch
    of severity [here_fireSeverity]. *)
Definition NativeTree_init (here_fireSeverity : Q) (id : nat) : rand organism :=
  age ← sample_uniform (inject_Z (age_min m)) (inject_Z (age_max m));
  let state := state_init age in
  fireDeathRoll ← sample_uniform 0 100;
  let fireMortality := fire_mortality m here_fireSeverity state in
  mret {| ident := id; age := age; state := state;
          fireDeathRoll := fireDeathRoll; fireMortality := fireMortality;
          alive := alive_init fireDeathRoll fireMortality |}.

(** [create n of NativeTree] *)
Fixpoint create (n : nat) (here_fireSeverity : Q) (id : nat)
  : rand (list organism) :=
  match n with
  | O => mret []
  | S n' =>
      o ← NativeTree_init here_fireSeverity id;
      os ← create n' here_fireSeverity (S id);
      mret (o :: os)
  end.

Definition age_step (prior_age : Q) : Q := (prior_age + 1)%Q.

Definition invasivePressure_step (here_invasiveCover : Q) : Q :=
  if Qgtb here_invasiveCover (inject_Z (invasive_pressure_threshold m))
  then inject_Z (seedling_invasive_pressure m) else 0%Q.

Definition totalMortality_step (here_invasiveCover : Q) : Q :=
  (inject_Z (seedling_mortality m) + invasivePressure_step here_invasiveCover)%Q.

(** The mortality that the [alive.step] rule of a state compares the
    death roll with. *)
Definition step_mortality (s : stage) (here_invasiveCover : Q) : Q :=
  match s with
  | Seedling => totalMortality_step here_invasiveCover
  | Juvenile => inject_Z (juvenile_mortality m)
  | Adult => inject_Z (adult_mortality m)
  end.

Definition alive_step (deathRoll mortality : Q) : bool :=
  Qgtb deathRoll mortality.

(** [state.step:if(current.age >= ... and current.alive == true)] of the
    state blocks; the state is unchanged when no conditional rule fires. *)
Definition state_step (s : stage) (current_age : Q) (current_alive : bool)
  : stage :=
  match s with
  | Seedling =>
      if Qgeb current_age (inject_Z (seedling_to_juvenile m))
         && Bool.eqb current_alive true
      then Juvenile else Seedling
  | Juvenile =>
      if Qgeb current_age (inject_Z (juvenile_to_adult m))
         && Bool.eqb current_alive true
      then Adult else Juvenile
  | Adult => Adult
  end.

(** The [.step] rules of an organism of the living population. *)
Definition organism_step (here_invasiveCover : Q) (prior : organism)
  : rand organism :=
  let age := age_step (age prior) in
  deathRoll ← sample_uniform 0 100;
  let alive := alive_step deathRoll
                 (step_mortality (state prior) here_invasiveCover) in
  mret {| ident := ident prior; age := age;
          state := state_step (state prior) age alive;
          fireDeathRoll := fireDeathRoll prior;
          fireMortality := fireMortality prior;
          alive := alive |}.

(** *** patch Default *)

(** [NativeTree.start = prior.NativeTree[prior.NativeTree.alive == true]] *)
Definition NativeTree_start (prior_NativeTree : list organism) : list organism :=
  List.filter (fun o => Bool.eqb (alive o) true) prior_NativeTree.

Definition numAdults_step (trees : list organism) : Z := count_state Adult trees.
Definition numTrees_step (trees : list organism) : Z := count trees.

Definition roomForSeedlings_step (numTrees : Z) : Z :=
  (max_trees m - numTrees)%Z.

Definition hasRoom_step (roomForSeedlings : Z) : bool :=
  (roomForSeedlings >? 0)%Z.

Definition canEstablish_step (invasiveCover : Q) : bool :=
  Qltb invasiveCover (inject_Z (establishment_threshold m)).

Definition potentialSeedlings_step (numAdults : Z) (canEstablish hasRoom : bool)
  : Z :=
  if canEstablish && hasRoom then numAdults else 0%Z.

Definition limitedSeedlings_step (potentialSeedlings roomForSeedlings : Z) : Z :=
  if (potentialSeedlings <? roomForSeedlings)%Z
  then potentialSeedlings else roomForSeedlings.

Definition actualNewSeedlings_step (limitedSeedlings : Z) : Z :=
  if (limitedSeedlings >? 0)%Z then limitedSeedlings else 0%Z.

(** The recruitment rules chained: the number of organisms that
    [NativeTree.end] creates. *)
Definition recruitment (numAdults numTrees : Z) (invasiveCover : Q) : Z :=
  let roomForSeedlings := roomForSeedlings_step numTrees in
  let hasRoom := hasRoom_step roomForSeedlings in
  let canEstablish := canEstablish_step invasiveCover in
  let potentialSeedlings :=
    potentialSeedlings_step numAdults canEstablish hasRoom in
  let limitedSeedlings :=
    limitedSeedlings_step potentialSeedlings roomForSeedlings in
  actualNewSeedlings_step limitedSeedlings.

Definition stepCount_step (prior_stepCount : Z) : Z := (prior_stepCount + 1)%Z.

Definition postFireBonus_step (stepCount : Z) : Q :=
  post_fire_bonus_expr m stepCount.

Definition activeRemoval_step (removalEffort stepCount : Z) : Q :=
  if (stepCount <? removal_duration m)%Z then inject_Z removalEffort else 0%Q.

Definition treeSuppression_step (numTrees : Z) : Q :=
  if (numTrees >? 0)%Z
  then (tree_suppression m * (inject_Z numTrees / inject_Z (max_trees m)))%Q
  else 0%Q.

Definition growthRate_step (postFireBonus treeSuppression : Q) : Q :=
  ((inject_Z (base_growth m) + postFireBonus) * (1 - treeSuppression))%Q.

Definition netGrowth_step (growthRate prior_invasiveCover activeRemoval : Q) : Q :=
  (growthRate * (1 - prior_invasiveCover / 100) - activeRemoval)%Q.

Definition rawCover_step (prior_invasiveCover netGrowth : Q) : Q :=
  (prior_invasiveCover + netGrowth)%Q.

Definition invasiveCover_step (rawCover : Q) : Q :=
  if Qltb rawCover 0 then 0%Q
  else if Qgtb rawCover 100 then 100%Q else rawCover.

(** The invasive-cover rules chained: the cover of the step from the
    attributes the rules read. *)
Definition cover_update (removalEffort stepCount numTrees : Z)
    (prior_invasiveCover : Q) : Q :=
  let postFireBonus := postFireBonus_step stepCount in
  let activeRemoval := activeRemoval_step removalEffort stepCount in
  let treeSuppression := treeSuppression_step numTrees in
  let growthRate := growthRate_step postFireBonus treeSuppression in
  let netGrowth := netGrowth_step growthRate prior_invasiveCover activeRemoval in
  invasiveCover_step (rawCover_step prior_invasiveCover netGrowth).

(** The patch's [.init] rules; [external_data] is the patch's value in the
    fire-severity data. *)
Definition patch_init (external_data : Q) : rand patch :=
  let fireSeverity := fire_severity_init m external_data in
  trees ← create (Z.to_nat (initial_trees m)) fireSeverity O;
  mret {| seedingBoost := seeding_boost m;
          removalEffort := removal_effort m;
          fireSeverity := fireSeverity;
          NativeTree := trees;
          invasiveCover := invasive_init m fireSeverity;
          stepCount := 0;
          created := Z.to_nat (initial_trees m) |}.

(** One step of a patch: [.start], the patch's [.step] rules, the step of
    its organisms, [.end]. *)
Definition patch_step (prior : patch) : rand patch :=
  let trees := NativeTree_start (NativeTree prior) in
  let numAdults := numAdults_step trees in
  let numTrees := numTrees_step trees in
  let stepCount := stepCount_step (stepCount prior) in
  let invasiveCover :=
    cover_update (removalEffort prior) stepCount numTrees (invasiveCover prior) in
  let actualNewSeedlings := recruitment numAdults numTrees invasiveCover in
  stepped ← mapR (organism_step invasiveCover) trees;
  new ← create (Z.to_nat actualNewSeedlings) (fireSeverity prior) (created prior);
  mret {| seedingBoost := seedingBoost prior;
          removalEffort := removalEffort prior;
          fireSeverity := fireSeverity prior;
          NativeTree := stepped ++ new;
          invasiveCover := invasiveCover;
          stepCount := stepCount;
          created := (created prior + Z.to_nat actualNewSeedlings)%nat |}.

(** The [export.*.step] rules of the step that follows [prior]. *)
Definition exports (prior : patch) : export_row :=
  let trees := NativeTree_start (NativeTree prior) in
  let numTrees := numTrees_step trees in
  let invasiveCover :=
    cover_update (removalEffort prior) (stepCount_step (stepCount prior))
      numTrees (invasiveCover prior) in
  {| numSeedling := count_state Seedling trees;
     numJuvenile := count_state Juvenile trees;
     numAdult := count_state Adult trees;
     numAlive := count (List.filter (fun o => Bool.eqb (alive o) true) trees);
     export_invasiveCover := invasiveCover;
     newSeedlings := recruitment (numAdults_step trees) numTrees invasiveCover |}.

(** The patch after [n] steps. *)
Fixpoint run (external_data : Q) (n : nat) : rand patch :=
  match n with
  | O => patch_init external_data
  | S n' => p ← run external_data n'; patch_step p
  end.

Definition patch_at (external_data : Q) (n : nat) : patch :=
  fst (run external_data n O).

(** The rows exported by the steps 1 .. n. *)
Definition trace (external_data : Q) (n : nat) : list export_row :=
  map (fun i => exports (patch_at external_data i)) (seq 0 n).

(** The living population of the step that follows [p]. *)
Definition living (p : patch) : list organism := NativeTree_start (NativeTree p).

(** The organisms of the step that follows [prior], drawing from position
    [k]: those of the living population after their step, and those that
    [NativeTree.end] creates. *)
Definition cover_after (prior : patch) : Q :=
  cover_update (removalEffort prior) (stepCount_step (stepCount prior))
    (numTrees_step (living prior)) (invasiveCover prior).

Definition survivors (prior : patch) (k : nat) : list organism * nat :=
  mapR (organism_step (cover_after prior)) (living prior) k.

Definition recruits (prior : patch) (k : nat) : list organism :=
  fst (create
         (Z.to_nat (recruitment (numAdults_step (living prior))
                      (numTrees_step (living prior)) (cover_after prior)))
         (fireSeverity prior) (created prior) (snd (survivors prior k))).

(** The recurrence as the specification words it. *)
Definition clamp (x lo hi : Q) : Q := Qmax lo (Qmin x hi).

Definition recurrence_spec (postFireBonus : Q) (removalEffort stepCount numTrees : Z)
    (priorInvasiveCover : Q) : Q :=
  let suppression :=
    if (numTrees =? 0)%Z then 0%Q
    else (tree_suppression m * (inject_Z numTrees / inject_Z (max_trees m)))%Q in
  let growthRate := ((inject_Z (base_growth m) + postFireBonus) * (1 - suppression))%Q in
  let activeRemoval :=
    if (stepCount <? removal_duration m)%Z then inject_Z removalEffort else 0%Q in
  let netGrowth := (growthRate * (1 - priorInvasiveCover / 100) - activeRemoval)%Q in
  clamp (priorInvasiveCover + netGrowth)%Q 0 100.

(** The recruitment count as the specification words it. *)
Definition recruitment_spec (numAdults numTrees : Z) (invasiveCover : Q) : Z :=
  let least := Z.min numAdults (max_trees m - numTrees) in
  if Qltb invasiveCover (inject_Z (establishment_threshold m)) && (0 <? least)%Z
  then least else 0%Z.

End Rules.

(** The order of the life stages, and a move along it by at most one. *)
Definition forward (s s' : stage) : Prop :=
  s' = s \/ (s = Seedling /\ s' = Juvenile) \/ (s = Juvenile /\ s' = Adult).

(** The identities are those of distinct organisms created so far. *)
Definition idents (l : list organism) : list nat := map ident l.

Definition well_identified (p : patch) : Prop :=
  List.NoDup (idents (NativeTree p)) /\
  (forall i, In i (idents (NativeTree p)) -> (i < created p)%nat).

(** The identity [i] was given out and is not in the collection. *)
Definition departed (i : nat) (p : patch) : Prop :=
  (i < created p)%nat /\ ~ In i (idents (NativeTree p)).

(** A patch with its [seedingBoost] attribute set to [b]. *)
Definition with_boost (b : Z) (p : patch) : patch :=
  {| seedingBoost := b;
     removalEffort := removalEffort p;
     fireSeverity := fireSeverity p;
     NativeTree := NativeTree p;
     invasiveCover := invasiveCover p;
     stepCount := stepCount p;
     created := created p |}.

End Sim.

(** The model that [run_scenario] generates for an entry of the table,
    and the one that [main] generates for it from the lines of the
    parameter file. *)
Definition scenario_model (s : string * bool * Z * Z)
    (params : gmap string (Q * string)) : res Gen.model :=
  let '(scenario_name, has_fire, seeding_boost, removal_effort) := s in
  Gen.generate_model scenario_name has_fire seeding_boost removal_effort params.

Definition main_model (config : list string) (s : string * bool * Z * Z)
  : res Gen.model :=
  params ← Jshc.parse_jshc config; scenario_model s params.

(** ** A parameter file and its models *)

Definition common_lines : list string :=
  [ "seedlingToJuvenileAge = 5 years";
    "juvenileToAdultAge = 15 years";
    "seedlingBaseMortality = 20 percent";
    "juvenileBaseMortality = 5 percent";
    "adultBaseMortality = 2 percent";
    "seedlingInvasivePressure = 30 percent";
    "invasivePressureThreshold = 50 percent";
    "fireHighSeedling = 95 percent";
    "fireHighJuvenile = 80 percent";
    "fireHighAdult = 60 percent";
    "fireMediumSeedling = 70 percent";
    "fireMediumJuvenile = 50 percent";
    "fireMediumAdult = 30 percent";
    "fireLowSeedling = 30 percent";
    "fireLowJuvenile = 15 percent";
    "fireLowAdult = 5 percent";
    "highSeverityThreshold = 0.8   # dNBR-derived";
    "mediumSeverityThreshold = 0.4";
    "fireHighInvasiveCover = 60 percent";
    "fireMediumInvasiveCover = 35 percent";
    "fireLowInvasiveCover = 15 percent";
    "establishmentThreshold = 40 percent";
    "invasiveBaseGrowthRate = 5 percent";
    "postFireGrowthBonus = 10 percent";
    "postFireBonusDuration = 5 count";
    "treeSuppression = 0.5";
    "removalDuration = 10 count";
    "initialAgeMin = 0 years";
    "initialAgeMax = 50 years" ].

Definition example_config : list string :=
  [ "# Post-fire recovery parameters";
    "totalSteps = 30 count";
    "initialTreesPerPatch = 4 count";
    "maxTreesPerPatch = 10 count";
    "baselineInvasiveCover = 10 percent" ] ++ common_lines.

(** The same file with a negative horizon. *)
Definition negative_config : list string :=
  [ "totalSteps = -30 count";
    "initialTreesPerPatch = 4 count";
    "maxTreesPerPatch = 10 count";
    "baselineInvasiveCover = 10 percent" ] ++ common_lines.

(** A file whose baseline cover is above 100 percent. *)
Definition overgrown_config : list string :=
  [ "totalSteps = 30 count";
    "initialTreesPerPatch = 4 count";
    "maxTreesPerPatch = 10 count";
    "baselineInvasiveCover = 150 percent" ] ++ common_lines.

(** A file that starts every patch above its capacity. *)
Definition crowded_config : list string :=
  [ "totalSteps = 30 count";
    "initialTreesPerPatch = 12 count";
    "maxTreesPerPatch = 10 count";
    "baselineInvasiveCover = 10 percent" ] ++ common_lines.

(** The example file with a horizon of 1 followed by 309 zeros in a
    last line: a number that [float] reads as infinity. *)
Fixpoint zeros (n : nat) : string :=
  match n with
  | O => ""
  | S n' => String "0" (zeros n')
  end.

Definition infinite_config : list string :=
  example_config ++ [ "totalSteps = 1" +:+ zeros 309 +:+ " count" ].

(** The values that [generate_model] extracts from these files, which
    differ in the initial number of trees and the baseline cover, and the
    model it returns. *)
Definition example_consts (initial baseline : Z) : Gen.consts :=
  {| Gen.total_steps := 30; Gen.initial_trees := initial; Gen.max_trees := 10;
     Gen.seedling_to_juvenile := 5; Gen.juvenile_to_adult := 15;
     Gen.seedling_mortality := 20; Gen.juvenile_mortality := 5;
     Gen.adult_mortality := 2;
     Gen.seedling_invasive_pressure := 30;
     Gen.invasive_pressure_threshold := 50;
     Gen.fire_high_seedling := 95; Gen.fire_high_juvenile := 80;
     Gen.fire_high_adult := 60;
     Gen.fire_med_seedling := 70; Gen.fire_med_juvenile := 50;
     Gen.fire_med_adult := 30;
     Gen.fire_low_seedling := 30; Gen.fire_low_juvenile := 15;
     Gen.fire_low_adult := 5;
     Gen.high_threshold := (8 # 10)%Q; Gen.med_threshold := (4 # 10)%Q;
     Gen.baseline_invasive := baseline;
     Gen.fire_high_invasive := 60; Gen.fire_med_invasive := 35;
     Gen.fire_low_invasive := 15;
     Gen.establishment_threshold := 40; Gen.base_growth := 5;
     Gen.post_fire_bonus := 10; Gen.post_fire_duration := 5;
     Gen.tree_suppression := (5 # 10)%Q; Gen.removal_duration := 10;
     Gen.age_min := 0; Gen.age_max := 50 |}%Z.

Definition example_model (s : string * bool * Z * Z) (initial baseline : Z)
  : Gen.model :=
  let '(scenario_name, has_fire, seeding_boost, removal_effort) := s in
  {| Gen.scenario_name := scenario_name;
     Gen.seeding_boost := seeding_boost;
     Gen.removal_effort := removal_effort;
     Gen.cst := example_consts initial baseline;
     Gen.rules := Gen.fire_specific (example_consts initial baseline) has_fire |}.

(** The dictionary parsed from [example_config]. *)
Definition example_params : gmap string (Q * string) :=
  match Jshc.parse_jshc example_config with
  | Ok params => params
  | Raise _ => ∅
  end.

(** Draw sequences used in the examples. *)
Definition draws_half : nat -> Q := fun _ => (1 # 2)%Q.

Definition draws_half_then_tenth : nat -> Q :=
  fun k => if (k <? 12)%nat then (1 # 2)%Q else (1 # 10)%Q.

Definition draws_half_then_hundredth : nat -> Q :=
  fun k => if (k <? 8)%nat then (1 # 2)%Q else (1 # 100)%Q.

(** ** The result aggregator *)

Module Agg.

Definition RESULTS_DIR : string := "/workspace/results".

(** [f"{RESULTS_DIR}/{scenario_name}_0.csv"] *)
Definition result_file (scenario_name : string) : string :=
  RESULTS_DIR +:+ "/" +:+ scenario_name +:+ "_0.csv".

(** The values of a row dictionary of [csv.DictReader]: a string, [None]
    for a field that a short record lacks, or the list of the surplus
    values of a long record (stored under the key [None]). *)
Inductive cell :=
| CStr (s : string)
| CNone
| CList (l : list string).

(** A row dictionary; the key [None] is [DictReader]'s [restkey]. *)
Abbreviation row := (gmap (option string) cell).

(** A file as [csv.reader] yields it: its records.  The results directory
    maps the paths that exist to their files. *)
Abbreviation csv := (list (list string)).
Abbreviation results_dir := (gmap string csv).

(** [reader.fieldnames]: the first record, [None] for an empty file. *)
Definition fieldnames (f : csv) : option (list string) := head f.

(** [dict(zip(fieldnames, record))]: of two equal field names the later
    one wins. *)
Definition dict_zip (names : list string) (record : list string) : row :=
  foldl (fun d kv => <[Some (fst kv) := CStr (snd kv)]> d) ∅ (zip names record).

(** One row dictionary of [DictReader.__next__]. *)
Definition to_dict (names : list string) (record : list string) : row :=
  let d := dict_zip names record in
  let lf := length names in
  let lr := length record in
  if (lf <? lr)%nat then <[None := CList (drop lf record)]> d
  else foldl (fun d key => <[Some key := CNone]> d) d (drop lr names).

(** The rows that iterating the [DictReader] yields: the records after
    the first, blank records skipped. *)
Definition dict_rows (f : csv) : list row :=
  match f with
  | [] => []
  | names :: records =>
      map (to_dict names)
          (List.filter (fun r => match r with [] => false | _ => true end) records)
  end.

(** [row['scenario'] = scenario_name] *)
Definition tag (scenario_name : string) (r : row) : row :=
  <[Some "scenario" := CStr scenario_name]> r.

Record acc := {
  all_rows : list row;
  header : option (list string);
  warnings : list string
}.

(** The body of the loop of [combine_results]. *)
Definition visit (dir : results_dir) (a : acc) (scenario_name : string)
  : res acc :=
  match dir !! result_file scenario_name with
  | None =>
      mret {| all_rows := all_rows a; header := header a;
              warnings := (warnings a ++
                ["Warning: " +:+ result_file scenario_name +:+ " not found"])%list |}
  | Some f =>
      h ← match header a with
          | None =>
              match fieldnames f with
              | Some names => mret (Some (names ++ ["scenario"])%list)
              | None => Raise TypeError
              end
          | Some h => mret (Some h)
          end;
      mret {| all_rows := (all_rows a ++ map (tag scenario_name) (dict_rows f))%list;
              header := h;
              warnings := warnings a |}
  end.

Fixpoint visit_all (dir : results_dir) (a : acc) (names : list string)
  : res acc :=
  match names with
  | [] => mret a
  | n :: rest => a' ← visit dir a n; visit_all dir a' rest
  end.

Definition scenario_names : list string :=
  map (fun '(scenario_name, _, _, _) => scenario_name) SCENARIOS.

(** The text written for a value.  A list is stored only under the key
    [None], which is never a field name, so its text is never written. *)
Definition render (c : cell) : string :=
  match c with
  | CStr s => s
  | CNone => ""
  | CList _ => ""
  end.

(** [DictWriter._dict_to_list]: a key outside the field names raises
    [ValueError]; a missing field is written as the empty string. *)
Definition key_ok (names : list string) (k : option string) : bool :=
  match k with
  | Some s => bool_decide (s ∈ names)
  | None => false
  end.

Definition dict_to_list (names : list string) (r : row) : res (list string) :=
  if forallb (key_ok names) (map fst (map_to_list r))
  then mret (map (fun k => match r !! Some k with
                           | Some c => render c
                           | None => ""
                           end) names)
  else Raise (ValueError "dict contains fields not in fieldnames").

Fixpoint writerows (names : list string) (rs : list row) : res csv :=
  match rs with
  | [] => mret []
  | r :: rest =>
      l ← dict_to_list names r; ls ← writerows names rest; mret (l :: ls)
  end.

(** What [combine_results] leaves: the collected rows and header, the
    warnings printed, and the records of the combined file when it is
    written (only when there is a row). *)
Record combined := {
  rows_of : list row;
  header_of : option (list string);
  warned : list string;
  written : option csv
}.

Definition collect (names : list string) (dir : results_dir) : res acc :=
  visit_all dir {| all_rows := []; header := None; warnings := [] |} names.

Definition combine_over (names : list string) (dir : results_dir)
  : res combined :=
  a ← collect names dir;
  w ← match all_rows a with
      | [] => mret None
      | _ =>
          match header a with
          | Some h => ls ← writerows h (all_rows a); mret (Some (h :: ls))
          | None => Raise TypeError
          end
      end;
  mret {| rows_of := all_rows a; header_of := header a;
          warned := warnings a; written := w |}.

Definition combine_results (dir : results_dir) : res combined :=
  combine_over scenario_names dir.

(** The aggregation as the specification words it: the rows of the
    files that exist, tagged, in declaration order; the header of the
    first file that exists; one warning per missing file. *)
Definition rows_spec (dir : results_dir) (names : list string) : list row :=
  flat_map (fun n => match dir !! result_file n with
                     | Some f => map (tag n) (dict_rows f)
                     | None => []
                     end) names.

Definition first_present (dir : results_dir) (names : list string) : option csv :=
  head (omap (fun n => dir !! result_file n) names).

Definition header_spec (dir : results_dir) (names : list string)
  : option (list string) :=
  f ← first_present dir names;
  ns ← fieldnames f;
  Some (ns ++ ["scenario"])%list.

Definition warnings_spec (dir : results_dir) (names : list string) : list string :=
  flat_map (fun n => match dir !! result_file n with
                     | Some _ => []
                     | None => ["Warning: " +:+ result_file n +:+ " not found"]
                     end) names.








(** The records that [writerows] has written when it returns or raises:
    those of the rows before the first row with a key outside the field
    names. *)
Fixpoint rows_written (names : list string) (rs : list row) : csv :=
  match rs with
  | [] => []
  | r :: rest =>
      match dict_to_list names r with
      | Ok l => l :: rows_written names rest
      | Raise _ => []
      end
  end.

(** The combined file that [combine_results] leaves, whether it returns
    or raises: the file is opened only when the loop has ended with a
    row, and then holds the header and the records written. *)
Definition combined_file (dir : results_dir) : option csv :=
  match collect scenario_names dir with
  | Ok a =>
      match all_rows a, header a with
      | [], _ => None
      | _ :: _, Some h => Some (h :: rows_written h (all_rows a))
      | _ :: _, None => Some []
      end
  | Raise _ => None
  end.

(** A results directory: two scenarios have produced their files. *)
Definition example_results : results_dir :=
  {[ result_file "fire_only" :=
       [ ["step"; "numAlive"]; ["0"; "4"]; []; ["1"; "3"] ];
     result_file "fire_both" :=
       [ ["step"; "numAlive"]; ["0"; "2"] ] ]}.

End Agg.

(** ** Predicates on texts *)

Module Text.

Fixpoint forall_chars (p : ascii -> bool) (s : string) : bool :=
  match s with
  | EmptyString => true
  | String c s' => p c && forall_chars p s'
  end.

Fixpoint exists_char (p : ascii -> bool) (s : string) : bool :=
  match s with
  | EmptyString => false
  | String c s' => p c || exists_char p s'
  end.

Fixpoint count_char (d : ascii) (s : string) : nat :=
  match s with
  | EmptyString => O
  | String c s' => ((if Ascii.eqb c d then 1 else 0) + count_char d s')%nat
  end.

(** The token that the pattern of [parse_jshc] takes as group 1. *)
Definition number_token (value : string) : string :=
  fst (Jshc.span Jshc.is_numchar value).

End Text.
(** The stage of every organism of [l] that is alive is the stage of its
    age. *)
Definition stage_matches_age (m : Gen.model) (l : list Sim.organism) : Prop :=
  forall o, In o l -> Sim.alive o = true ->
            Sim.state o = Sim.state_init m (Sim.age o).

(** ** The scenario orchestrator *)

Module Orch.
Import Agg.

(** [f"/workspace/scenario_{scenario_name}.josh"] *)
Definition model_path (scenario_name : string) : string :=
  "/workspace/scenario_" +:+ scenario_name +:+ ".josh".

Definition combined_path : string :=
  RESULTS_DIR +:+ "/all_scenarios_combined.csv".

(** What a run of [main] acts on: the results directory, the model files
    written and the scenarios the engine was run for, both in order. *)
Record world := {
  results : results_dir;
  model_files : list string;
  engine_runs : list string
}.

Section Engine.

(** The external engine, run on a generated model: whether its return code
    is 0, and the results directory it leaves.  The subprocess is taken
    to start and to return; it touches no model file. *)
Variable engine : Gen.model -> results_dir -> bool * results_dir.

(** [run_scenario]: the model is generated, written, and the engine run;
    the result is whether the return code was 0. *)
Definition run_scenario (s : string * bool * Z * Z)
    (params : gmap string (Q * string)) (w : world) : world * res bool :=
  match scenario_model s params with
  | Raise e => (w, Raise e)
  | Ok m =>
      let '(ok, d) := engine m (results w) in
      ({| results := d;
          model_files := (model_files w ++ [model_path (Gen.scenario_name m)])%list;
          engine_runs := (engine_runs w ++ [Gen.scenario_name m])%list |},
       Ok ok)
  end.

(** The loop of [main] over the scenarios, counting the successes. *)
Fixpoint run_all (ss : list (string * bool * Z * Z))
    (params : gmap string (Q * string)) (w : world) (success_count : nat)
  : world * res nat :=
  match ss with
  | [] => (w, Ok success_count)
  | s :: rest =>
      match run_scenario s params w with
      | (w', Raise e) => (w', Raise e)
      | (w', Ok ok) =>
          run_all rest params w' (if ok then S success_count else success_count)
      end
  end.

(** The parameters that [main] prints before the runs. *)
Definition printed_parameters (params : gmap string (Q * string)) : res unit :=
  _ ← getitem params "fireHighInvasiveCover";
  _ ← getitem params "fireMediumInvasiveCover";
  _ ← getitem params "fireLowInvasiveCover";
  _ ← getitem params "establishmentThreshold";
  mret tt.

(** [main] on the lines of the parameter file: the success count and,
    when [combine_results] was called, what it returned.  When
    [combine_results] raises while writing, the combined file is left
    with what was written before. *)
Definition main (config : list string) (w : world)
  : world * res (nat * option combined) :=
  match Jshc.parse_jshc config with
  | Raise e => (w, Raise e)
  | Ok params =>
      match printed_parameters params with
      | Raise e => (w, Raise e)
      | Ok _ =>
          match run_all SCENARIOS params w O with
          | (w', Raise e) => (w', Raise e)
          | (w', Ok success_count) =>
              if (0 <? success_count)%nat then
                match combine_results (results w') with
                | Raise e =>
                    ({| results := match combined_file (results w') with
                                   | Some f => <[combined_path := f]> (results w')
                                   | None => results w'
                                   end;
                        model_files := model_files w';
                        engine_runs := engine_runs w' |},
                     Raise e)
                | Ok c =>
                    ({| results := match written c with
                                   | Some f => <[combined_path := f]> (results w')
                                   | None => results w'
                                   end;
                        model_files := model_files w';
                        engine_runs := engine_runs w' |},
                     Ok (success_count, Some c))
                end
              else (w', Ok (success_count, None))
          end
      end
  end.

(** The engine run on a list of models in turn: the statuses and the
    directory left. *)
Fixpoint engine_outcomes (ms : list Gen.model) (d : results_dir)
  : list bool * results_dir :=
  match ms with
  | [] => ([], d)
  | m :: rest =>
      let '(ok, d1) := engine m d in
      let '(oks, d2) := engine_outcomes rest d1 in
      (ok :: oks, d2)
  end.

End Engine.

(** The model of a scenario over extracted values. *)
Definition model_of (c : Gen.consts) (s : string * bool * Z * Z) : Gen.model :=
  let '(scenario_name, has_fire, seeding_boost, removal_effort) := s in
  {| Gen.scenario_name := scenario_name;
     Gen.seeding_boost := seeding_boost;
     Gen.removal_effort := removal_effort;
     Gen.cst := c;
     Gen.rules := Gen.fire_specific c has_fire |}.

Definition name_of (s : string * bool * Z * Z) : string :=
  let '(scenario_name, _, _, _) := s in scenario_name.

Definition count_true (l : list bool) : nat :=
  length (List.filter (fun b => b) l).

(** An engine that fails for one scenario (leaving the directory as it
    is) and succeeds for the others, writing one row. *)
Definition failing_for (bad : string) (m : Gen.model) (d : results_dir)
  : bool * results_dir :=
  if String.eqb (Gen.scenario_name m) bad then (false, d)
  else (true, <[result_file (Gen.scenario_name m) :=
                  [["step"; "numAlive"]; ["0"; "4"]]]> d).

(** An engine that never succeeds. *)
Definition always_failing (m : Gen.model) (d : results_dir)
  : bool * results_dir := (false, d).

Definition empty_world : world :=
  {| results := ∅; model_files := []; engine_runs := [] |}.

End Orch.

(** ** The sweep configuration generator *)

Module Sweep.

(** The exceptions of [extract_parameters]: the [KeyError] of
    [row.pop('path')] and the [AttributeError] of [k.endswith] on the key
    [None]. *)
Inductive error :=
| KeyError (key : string)
| AttributeError.

Inductive outcome (A : Type) :=
| Done (a : A)
| Fail (e : error).
Arguments Done {A} a.
Arguments Fail {A} e.

(** A row dictionary of [csv.DictReader], in key order: the fields, with
    [None] for a field that a short record lacks, and the surplus values
    of a long record, which the reader stores under the key [None]. *)
Record csv_row := {
  fields : list (string * option string);
  surplus : option (list string)
}.

(** [d[k] = v] on a dictionary in insertion order. *)
Fixpoint od_set (k : string) (v : option string)
    (d : list (string * option string)) : list (string * option string) :=
  match d with
  | [] => [(k, v)]
  | (k', v') :: d' =>
      if String.eqb k' k then (k, v) :: d' else (k', v') :: od_set k v d'
  end.

Fixpoint od_get (k : string) (d : list (string * option string))
  : option (option string) :=
  match d with
  | [] => None
  | (k', v') :: d' => if String.eqb k' k then Some v' else od_get k d'
  end.

Fixpoint od_del (k : string) (d : list (string * option string))
  : list (string * option string) :=
  match d with
  | [] => []
  | (k', v') :: d' => if String.eqb k' k then d' else (k', v') :: od_del k d'
  end.

Definition keys (d : list (string * option string)) : list string :=
  map fst d.

(** One row of the reader, for the field names and a record. *)
Definition to_row (names : list string) (record : list string) : csv_row :=
  let d := foldl (fun d kv => od_set (fst kv) (Some (snd kv)) d) []
             (zip names record) in
  let lf := length names in
  let lr := length record in
  if (lf <? lr)%nat
  then {| fields := d; surplus := Some (drop lf record) |}
  else {| fields := foldl (fun d k => od_set k None d) d (drop lr names);
          surplus := None |}.

(** [parse_csv]: the rows of the reader, blank records skipped. *)
Definition parse_csv (f : list (list string)) : list csv_row :=
  match f with
  | [] => []
  | names :: records =>
      map (to_row names)
          (List.filter (fun r => match r with [] => false | _ => true end) records)
  end.

(** [s.endswith(suffix)] *)
Fixpoint ends_with (suffix s : string) : bool :=
  String.eqb s suffix
  || match s with
     | EmptyString => false
     | String _ s' => ends_with suffix s'
     end.

(** The truth value of a cell: a non-empty string. *)
Definition truthy (v : option string) : bool :=
  match v with
  | Some (String _ _) => true
  | _ => false
  end.

(** [row.get(unit_key, '')] *)
Definition unit_of (name : string) (row : list (string * option string))
  : option string :=
  match od_get (name +:+ "_unit") row with
  | Some u => u
  | None => Some ""
  end.

(** [extract_parameters]: the path, and the parameters with a non-empty
    value, each with its unit. *)
Definition extract_parameters (row : csv_row)
  : outcome (option string * list (string * string * option string)) :=
  match od_get "path" (fields row) with
  | None => Fail (KeyError "path")
  | Some path =>
      let row' := od_del "path" (fields row) in
      match surplus row with
      | Some _ => Fail AttributeError
      | None =>
          let param_names :=
            List.filter (fun k => negb (ends_with "_unit" k)) (map fst row') in
          Done (path,
                flat_map
                  (fun name =>
                     match od_get name row' with
                     | Some (Some (String c v)) =>
                         [(name, String c v, unit_of name row')]
                     | _ => []
                     end) param_names)
      end
  end.

Definition LF : ascii := ascii_of_nat 10.
Definition CR : ascii := ascii_of_nat 13.

(** [str(x)] of a cell in an f-string. *)
Definition str (v : option string) : string :=
  match v with
  | Some s => s
  | None => "None"
  end.

(** The line of one parameter. *)
Definition param_line (p : string * string * option string) : string :=
  let '(name, value, unit) := p in
  if truthy unit then name +:+ " = " +:+ value +:+ " " +:+ str unit
  else name +:+ " = " +:+ value.

(** The lines of [generate_jshc]; [now] is [datetime.now().isoformat()]. *)
Definition jshc_lines (params : list (string * string * option string))
    (path : option string) (now : string) : list string :=
  ([ "# Auto-generated configuration for parameter sweep";
     "# Path: " +:+ str path;
     "# Generated: " +:+ now;
     "#";
     "# This file contains ONLY the swept parameters.";
     "# It should be used alongside the base params.jshc";
     "#" ] ++ map param_line params)%list.

(** [generate_jshc]: the lines joined by line feeds, and a final line
    feed. *)
Definition generate_jshc (params : list (string * string * option string))
    (path : option string) (now : string) : string :=
  String.concat (String LF "") (jshc_lines params path now) +:+ String LF "".

(** The lines that iterating a text file yields, with universal newlines:
    a line ends at a line feed, a carriage return, or the two in a row,
    and carries a line feed as its end. *)
Fixpoint read_lines (s : string) : list string :=
  match s with
  | EmptyString => []
  | String c s' =>
      if Ascii.eqb c LF then String LF "" :: read_lines s'
      else if Ascii.eqb c CR then
        match s' with
        | String c' s'' =>
            if Ascii.eqb c' LF then String LF "" :: read_lines s''
            else String LF "" :: read_lines s'
        | EmptyString => [String LF ""]
        end
      else
        match read_lines s' with
        | [] => [String c ""]
        | l :: ls => String c l :: ls
        end
  end.

(** A character that ends no line, and texts that do not break. *)
Definition no_break (c : ascii) : bool :=
  negb (Ascii.eqb c LF) && negb (Ascii.eqb c CR).

(** A parameter that [parse_jshc] reads back as the binding [b]: the name
    is a word, the value a token of digits and dots that [float] accepts,
    the unit empty or a word. *)
Definition reads_back (p : string * string * option string)
    (b : string * (Q * string)) : Prop :=
  let '(name, value, unit) := p in
  let '(key, (num, unit_text)) := b in
  key = name
  /\ name <> "" /\ Text.forall_chars Jshc.is_word name = true
  /\ value <> "" /\ Text.forall_chars Jshc.is_numchar value = true
  /\ Jshc.py_float value = Ok num
  /\ unit_text = (if truthy unit then str unit else "")
  /\ Text.forall_chars Jshc.is_word unit_text = true.

End Sweep.

(** The reads of [generate_model], in the order it makes them: the key,
    and whether the value is passed to [int]. *)
Definition required_reads : list (string * bool) :=
  [ ("totalSteps", true); ("initialTreesPerPatch", true);
    ("maxTreesPerPatch", true);
    ("seedlingToJuvenileAge", true); ("juvenileToAdultAge", true);
    ("seedlingBaseMortality", true); ("juvenileBaseMortality", true);
    ("adultBaseMortality", true);
    ("seedlingInvasivePressure", true); ("invasivePressureThreshold", true);
    ("fireHighSeedling", true); ("fireHighJuvenile", true);
    ("fireHighAdult", true);
    ("fireMediumSeedling", true); ("fireMediumJuvenile", true);
    ("fireMediumAdult", true);
    ("fireLowSeedling", true); ("fireLowJuvenile", true);
    ("fireLowAdult", true);
    ("highSeverityThreshold", false); ("mediumSeverityThreshold", false);
    ("baselineInvasiveCover", true); ("fireHighInvasiveCover", true);
    ("fireMediumInvasiveCover", true); ("fireLowInvasiveCover", true);
    ("establishmentThreshold", true); ("invasiveBaseGrowthRate", true);
    ("postFireGrowthBonus", true); ("postFireBonusDuration", true);
    ("treeSuppression", false); ("removalDuration", true);
    ("initialAgeMin", true); ("initialAgeMax", true) ].

(** What a read raises, if anything, and the first error of a list of
    reads. *)
Definition read_error (params : gmap string (Q * string))
    (r : string * bool) : option exn :=
  match params !! fst r with
  | None => Some (KeyError (fst r))
  | Some v => if snd r && is_inf (fst v) then Some OverflowError else None
  end.

Fixpoint first_error (params : gmap string (Q * string))
    (reads : list (string * bool)) : option exn :=
  match reads with
  | [] => None
  | r :: rest =>
      match read_error params r with
      | Some e => Some e
      | None => first_error params rest
      end
  end.

(** * Properties *)

(** ** The parser records non-negative numbers only *)

Section ParserFacts.
Import Jshc.

Lemma re_match_starts value g1 g2 :
  re_match value = Some (g1, g2) -> starts_numeric value = true.
Proof.
  destruct value as [|c rest]; unfold re_match; simpl.
  - discriminate.
  - destruct (is_numchar c); [reflexivity|]. discriminate.
Qed.

Lemma re_match_none value :
  starts_numeric value = false -> re_match value = None.
Proof.
  destruct value as [|c rest]; unfold re_match; simpl; [reflexivity|].
  intros ->. reflexivity.
Qed.

Lemma py_float_nonneg tok q : py_float tok = Ok q -> (0 <= q)%Q.
Proof.
  unfold py_float.
  destruct (contains "." tok).
  - destruct (contains "." (after_first "." tok)); [discriminate|].
    destruct (before_first "." tok), (after_first "." tok);
      try discriminate; intros [= <-]; unfold Qle; simpl; lia.
  - intros [= <-]. unfold Qle; simpl; lia.
Qed.

Lemma parse_line_some line key num unit :
  parse_line line = Ok (Some (key, (num, unit))) ->
  key = key_of line /\ starts_numeric (value_of line) = true /\ (0 <= num)%Q.
Proof.
  unfold parse_line.
  destruct (contains "=" (comment_free line)); [|discriminate].
  destruct (re_match (value_of line)) as [[g1 g2]|] eqn:M; [|discriminate].
  destruct (py_float g1) as [q|e] eqn:F; simpl; [|discriminate].
  intros [= <- <- <-]. repeat split.
  - eapply re_match_starts; eauto.
  - eapply py_float_nonneg; eauto.
Qed.

Lemma parse_line_skip line :
  starts_numeric (value_of line) = false -> parse_line line = Ok None.
Proof.
  intros H. unfold parse_line. rewrite (re_match_none _ H).
  destruct (contains "=" (comment_free line)); reflexivity.
Qed.

Lemma parse_lines_nonneg lines : forall params params',
  nonneg_values params ->
  parse_lines lines params = Ok params' -> nonneg_values params'.
Proof.
  induction lines as [|line rest IH]; intros params params' Hinv; simpl.
  - intros [= <-]. exact Hinv.
  - destruct (parse_line line) as [b|e] eqn:P; simpl; [|discriminate].
    apply IH. destruct b as [[key [n un]]|]; [|exact Hinv].
    apply parse_line_some in P as (_ & _ & Hn).
    intros k num unit. destruct (decide (key = k)) as [->|Hne].
    + rewrite lookup_insert_eq. intros [= <- <-]. exact Hn.
    + rewrite lookup_insert_ne by exact Hne. apply Hinv.
Qed.

Lemma parse_lines_app l1 : forall l2 params,
  parse_lines (l1 ++ l2) params =
  (p ← parse_lines l1 params; parse_lines l2 p).
Proof.
  induction l1 as [|line rest IH]; intros l2 params; simpl; [reflexivity|].
  destruct (parse_line line) as [b|e]; simpl; [apply IH|reflexivity].
Qed.

End ParserFacts.

(** ** The parameterizer *)

Section GeneratorFacts.
Import Gen.

Ltac next_lookup H :=
  match type of H with
  | mbind _ ?r = Ok _ =>
      let E := fresh "E" in
      destruct r eqn:E; simpl in H; [|discriminate H]
  end.

Lemma extract_inv params c : extract params = Ok c -> extracted params c.
Proof.
  unfold extract. intros H.
  do 33 next_lookup H.
  injection H as <-. unfold extracted. simpl.
  repeat split; assumption.
Qed.

Lemma generate_model_inv name hf sb re params m :
  generate_model name hf sb re params = Ok m ->
  scenario_name m = name /\ seeding_boost m = sb /\ removal_effort m = re /\
  rules m = fire_specific (cst m) hf /\ extract params = Ok (cst m).
Proof.
  unfold generate_model. destruct (extract params) as [c|e]; simpl; [|discriminate].
  intros [= <-]. simpl. repeat split; reflexivity.
Qed.

Lemma py_int_nonneg q : (0 <= q)%Q -> (0 <= py_int q)%Z.
Proof.
  unfold py_int, Qle. simpl. intros H. apply Z.quot_pos; lia.
Qed.

Lemma int_nonneg params key z :
  Jshc.nonneg_values params -> int params key = Ok z -> (0 <= z)%Z.
Proof.
  unfold int, num, getitem. intros Hn.
  destruct (params !! key) as [[v un]|] eqn:L; simpl; [|discriminate].
  destruct (is_inf v); [discriminate|].
  intros [= <-]. apply py_int_nonneg. eapply Hn; eauto.
Qed.

End GeneratorFacts.

(** ** The run of a patch *)

Section RunFacts.
Import Gen Sim.

Variable m : model.
Variable u : nat -> Q.

Lemma patch_step_eq (p : patch) (k : nat) :
  patch_step m u p k =
  ({| seedingBoost := seedingBoost p;
      removalEffort := removalEffort p;
      fireSeverity := fireSeverity p;
      NativeTree := fst (survivors m u p k) ++ recruits m u p k;
      invasiveCover := cover_after m p;
      stepCount := stepCount_step (stepCount p);
      created := (created p + Z.to_nat
                    (recruitment m (numAdults_step (living p))
                       (numTrees_step (living p)) (cover_after m p)))%nat |},
   snd (create m u
          (Z.to_nat (recruitment m (numAdults_step (living p))
                       (numTrees_step (living p)) (cover_after m p)))
          (fireSeverity p) (created p) (snd (survivors m u p k)))).
Proof.
  unfold patch_step, recruits, survivors, cover_after, living, mbind, rand_bind,
    mret, rand_ret.
  destruct (mapR _ _ k) as [stepped k1]. simpl.
  destruct (create _ _ _ _ _ k1) as [new k2]. reflexivity.
Qed.

Lemma run_S ext n k :
  run m u ext (S n) k =
  patch_step m u (fst (run m u ext n k)) (snd (run m u ext n k)).
Proof.
  simpl. unfold mbind, rand_bind. destruct (run m u ext n k). reflexivity.
Qed.

Lemma patch_at_S ext n :
  patch_at m u ext (S n) =
  fst (patch_step m u (patch_at m u ext n) (snd (run m u ext n O))).
Proof. unfold patch_at. rewrite run_S. reflexivity. Qed.

Lemma patch_init_eq ext k :
  patch_init m u ext k =
  ({| seedingBoost := seeding_boost m;
      removalEffort := removal_effort m;
      fireSeverity := fire_severity_init m ext;
      NativeTree := fst (create m u (Z.to_nat (initial_trees m))
                           (fire_severity_init m ext) O k);
      invasiveCover := invasive_init m (fire_severity_init m ext);
      stepCount := 0;
      created := Z.to_nat (initial_trees m) |},
   snd (create m u (Z.to_nat (initial_trees m)) (fire_severity_init m ext) O k)).
Proof.
  unfold patch_init, mbind, rand_bind, mret, rand_ret.
  destruct (create _ _ _ _ _ k). reflexivity.
Qed.

Lemma fireSeverity_run ext n :
  fireSeverity (patch_at m u ext n) = fire_severity_init m ext.
Proof.
  induction n as [|n IH].
  - unfold patch_at. simpl. rewrite patch_init_eq. reflexivity.
  - rewrite patch_at_S, patch_step_eq. exact IH.
Qed.

Lemma removalEffort_run ext n :
  removalEffort (patch_at m u ext n) = removal_effort m.
Proof.
  induction n as [|n IH].
  - unfold patch_at. simpl. rewrite patch_init_eq. reflexivity.
  - rewrite patch_at_S, patch_step_eq. exact IH.
Qed.

Lemma invasiveCover_init ext :
  invasiveCover (patch_at m u ext O) = invasive_init m (fire_severity_init m ext).
Proof. unfold patch_at. simpl. rewrite patch_init_eq. reflexivity. Qed.

Lemma invasiveCover_S ext n :
  invasiveCover (patch_at m u ext (S n)) = cover_after m (patch_at m u ext n).
Proof. rewrite patch_at_S, patch_step_eq. reflexivity. Qed.

End RunFacts.

(** ** The example files *)

Section ExampleFacts.
Import Jshc Gen.

Lemma main_model_inv config name hf sb re m :
  main_model config (name, hf, sb, re) = Ok m ->
  exists params, parse_jshc config = Ok params
                 /\ generate_model name hf sb re params = Ok m.
Proof.
  unfold main_model. destruct (parse_jshc config) as [params|e]; simpl;
    [|discriminate].
  intros G. exists params. split; [reflexivity|exact G].
Qed.

Lemma main_model_extract config initial baseline s :
  (params ← parse_jshc config; extract params)
  = Ok (example_consts initial baseline) ->
  main_model config s = Ok (example_model s initial baseline).
Proof.
  unfold main_model. destruct s as [[[name hf] sb] re].
  destruct (parse_jshc config) as [params|e]; simpl; [|discriminate].
  unfold generate_model. intros ->. reflexivity.
Qed.

Lemma main_model_example s :
  main_model example_config s = Ok (example_model s 4 10).
Proof. apply main_model_extract. vm_compute. reflexivity. Qed.

Lemma main_model_overgrown s :
  main_model overgrown_config s = Ok (example_model s 4 150).
Proof. apply main_model_extract. vm_compute. reflexivity. Qed.

Lemma main_model_crowded s :
  main_model crowded_config s = Ok (example_model s 12 10).
Proof. apply main_model_extract. vm_compute. reflexivity. Qed.

Lemma generate_model_example name hf sb re :
  generate_model name hf sb re example_params
  = Ok (example_model (name, hf, sb, re) 4 10).
Proof.
  unfold generate_model.
  assert (X : extract example_params = Ok (example_consts 4 10))
    by (vm_compute; reflexivity).
  rewrite X. reflexivity.
Qed.

End ExampleFacts.

(** ** Properties of the parser and of the rules *)

Section RuleProperties.
Import Jshc Gen Sim.

(** C10.  The parser records a key only when the value text starts with a
    token of digits and dots, and every recorded value is non-negative; a
    line whose value starts otherwise (such as [x = -5]) is left out without
    an error and leaves the dictionary as it was; the omission shows only
    when the key is looked up, as the [KeyError] of [generate_model]. *)
Theorem parse_jshc_stores_only_nonnegative :
  (forall line key num unit,
      parse_line line = Ok (Some (key, (num, unit))) ->
      starts_numeric (value_of line) = true /\ (0 <= num)%Q)
  /\ (forall line,
      starts_numeric (value_of line) = false -> parse_line line = Ok None)
  /\ (forall lines params, parse_jshc lines = Ok params -> nonneg_values params)
  /\ (forall lines line params,
      starts_numeric (value_of line) = false ->
      parse_jshc lines = Ok params -> parse_jshc (lines ++ [line]) = Ok params)
  /\ parse_line "x = -5" = Ok None
  /\ (params ← parse_jshc negative_config; getitem params "totalSteps")
     = Raise (KeyError "totalSteps")
  /\ main_model negative_config ("baseline", false, 0%Z, 0%Z)
     = Raise (KeyError "totalSteps").
Proof.
  split; [|split; [|split; [|split; [|split; [|split]]]]].
  - intros line key num unit H.
    apply parse_line_some in H as (_ & Hs & Hn). split; assumption.
  - exact parse_line_skip.
  - intros lines params H. unfold parse_jshc in H.
    eapply parse_lines_nonneg; [|exact H].
    intros key num unit L. rewrite lookup_empty in L. discriminate.
  - intros lines line params Hs H. unfold parse_jshc in *.
    rewrite parse_lines_app, H. simpl.
    rewrite (parse_line_skip _ Hs). reflexivity.
  - reflexivity.
  - vm_compute. reflexivity.
  - vm_compute. reflexivity.
Qed.

Lemma parse_jshc_stores_only_nonnegative_witness :
  starts_numeric (value_of "maxTreesPerPatch = 10 count  # capacity") = true
  /\ (0 <= 10)%Q.
Proof.
  exact (proj1 parse_jshc_stores_only_nonnegative
           "maxTreesPerPatch = 10 count  # capacity" "maxTreesPerPatch"
           10%Q "count" eq_refl).
Defined.

Lemma Qgtb_eq_false (a b : Q) : (a == b)%Q -> Qgtb a b = false.
Proof. intros H. apply Qgtb_le. rewrite H. apply Qle_refl. Qed.

Lemma fire_specific_tiers (c : consts) (sev : Q) (st : stage) :
  fire_mortality (fire_specific c true) sev st
  = inject_Z (tier_mortality c (severity_tier c sev) st)
  /\ invasive_init (fire_specific c true) sev
     = inject_Z (tier_cover c (severity_tier c sev)).
Proof.
  unfold severity_tier. simpl.
  destruct (Qgtb sev (high_threshold c)), (Qgtb sev (med_threshold c)), st;
    split; reflexivity.
Qed.

Lemma NativeTree_init_rules m u sev id k :
  let o := fst (NativeTree_init m u sev id k) in
  age o = (inject_Z (age_min m)
           + u k * (inject_Z (age_max m) - inject_Z (age_min m)))%Q
  /\ state o = state_init m (age o)
  /\ fireDeathRoll o = (0 + u (S k) * (100 - 0))%Q
  /\ fireMortality o = fire_mortality m sev (state o)
  /\ alive o = Qgtb (fireDeathRoll o) (fireMortality o).
Proof. simpl. repeat split; reflexivity. Qed.

(** C5.  With fire enabled, the fire mortality of an organism at its
    creation is the entry of the tier table for the patch's severity tier
    and the organism's stage, and the initial invasive cover is the entry
    of the same tier;
    the tier is chosen by strictly-greater comparisons, so a severity equal
    to a threshold falls to the next-lower tier.  With a high threshold of
    0.8, severity 0.95 gives the high-tier Seedling mortality and
    [fireHighInvasiveCover]. *)
Theorem fire_tier_lookup name sb re params m (sev : Q) (st : stage) :
  generate_model name true sb re params = Ok m ->
  fire_mortality m sev st = inject_Z (tier_mortality m (severity_tier m sev) st)
  /\ invasive_init m sev = inject_Z (tier_cover m (severity_tier m sev))
  /\ (forall u id k,
        fireMortality (fst (NativeTree_init m u sev id k))
        = inject_Z (tier_mortality m (severity_tier m sev)
                      (state (fst (NativeTree_init m u sev id k)))))
  /\ (forall u, invasiveCover (patch_at m u sev O)
                = inject_Z (tier_cover m (severity_tier m sev)))
  /\ ((high_threshold m < sev)%Q -> severity_tier m sev = High)
  /\ ((sev <= high_threshold m)%Q -> (med_threshold m < sev)%Q ->
      severity_tier m sev = Medium)
  /\ ((sev <= high_threshold m)%Q -> (sev <= med_threshold m)%Q ->
      severity_tier m sev = Low)
  /\ ((sev == high_threshold m)%Q -> (med_threshold m < high_threshold m)%Q ->
      severity_tier m sev = Medium)
  /\ ((sev == med_threshold m)%Q -> (med_threshold m <= high_threshold m)%Q ->
      severity_tier m sev = Low)
  /\ num params "highSeverityThreshold" = Ok (high_threshold m)
  /\ int params "fireHighSeedling" = Ok (fire_high_seedling m)
  /\ int params "fireHighInvasiveCover" = Ok (fire_high_invasive m)
  /\ ((high_threshold m == 0.8)%Q ->
      fire_mortality m 0.95 Seedling = inject_Z (fire_high_seedling m)
      /\ invasive_init m 0.95 = inject_Z (fire_high_invasive m)).
Proof.
  intros G. apply generate_model_inv in G as (_ & _ & _ & R & X).
  apply extract_inv in X. unfold extracted in X.
  destruct (fire_specific_tiers m sev st) as [T1 T2].
  rewrite R.
  split; [exact T1|]. split; [exact T2|].
  split.
  { intros u id k.
    destruct (NativeTree_init_rules m u sev id k) as (_ & _ & _ & F & _).
    rewrite F, R. apply fire_specific_tiers. }
  split; [intros u; rewrite invasiveCover_init, R; exact T2|].
  unfold severity_tier.
  split; [intros H; apply Qgtb_gt in H; rewrite H; reflexivity|].
  split; [intros H1 H2; apply Qgtb_le in H1; apply Qgtb_gt in H2;
          rewrite H1, H2; reflexivity|].
  split; [intros H1 H2; apply Qgtb_le in H1; apply Qgtb_le in H2;
          rewrite H1, H2; reflexivity|].
  split.
  { intros E L. rewrite (Qgtb_eq_false _ _ E).
    assert (H2 : Qgtb sev (med_threshold m) = true).
    { apply Qgtb_gt. rewrite E. exact L. }
    rewrite H2. reflexivity. }
  split.
  { intros E L. rewrite (Qgtb_eq_false _ _ E).
    assert (H1 : Qgtb sev (high_threshold m) = false).
    { apply Qgtb_le. rewrite E. exact L. }
    rewrite H1. reflexivity. }
  split; [tauto|]. split; [tauto|]. split; [tauto|].
  intros E.
  assert (H : Qgtb 0.95 (high_threshold m) = true).
  { apply Qgtb_gt. rewrite E. reflexivity. }
  simpl. rewrite H. simpl. split; reflexivity.
Qed.

Lemma fire_tier_lookup_witness :
  fire_mortality (example_model ("fire_only", true, 0%Z, 0%Z) 4 10) 0.95 Seedling
  = 95%Q
  /\ invasive_init (example_model ("fire_only", true, 0%Z, 0%Z) 4 10) 0.95
     = 60%Q.
Proof.
  pose proof (fire_tier_lookup _ _ _ _ _ 0.95%Q Seedling
                (generate_model_example "fire_only" true 0%Z 0%Z))
    as (_ & _ & _ & _ & _ & _ & _ & _ & _ & _ & _ & _ & Hex).
  apply Hex. reflexivity.
Defined.

Lemma roll_positive (x : Q) : (0 < x)%Q -> (0 < 0 + x * (100 - 0))%Q.
Proof. intros H. lra. Qed.

Lemma roll_zero (x : Q) : (0 <= x)%Q -> (0 + x * (100 - 0) <= 0)%Q -> (x == 0)%Q.
Proof. intros H1 H2. lra. Qed.

(** C8.  With fire disabled the severity of every patch is 0 at every
    step, the fire mortality is 0 for every severity and stage, the roll at
    birth kills at no positive draw (the only draw of [0, 1] at which the
    organism is not alive is the boundary draw 0, so survival at birth has
    probability 1), and the invasive cover starts at
    [baselineInvasiveCover]. *)
Theorem no_fire_no_birth_mortality name sb re params m :
  generate_model name false sb re params = Ok m ->
  (forall u ext n, fireSeverity (patch_at m u ext n) = 0%Q)
  /\ (forall sev st, fire_mortality m sev st = 0%Q)
  /\ (forall roll sev st,
        (0 < roll)%Q -> alive_init roll (fire_mortality m sev st) = true)
  /\ (forall u sev id k,
        (0 < u (S k))%Q -> alive (fst (NativeTree_init m u sev id k)) = true)
  /\ (forall u sev id k,
        (0 <= u (S k))%Q ->
        alive (fst (NativeTree_init m u sev id k)) = false -> (u (S k) == 0)%Q)
  /\ (forall sev, invasive_init m sev = inject_Z (baseline_invasive m))
  /\ (forall u ext,
        invasiveCover (patch_at m u ext O) = inject_Z (baseline_invasive m))
  /\ int params "baselineInvasiveCover" = Ok (baseline_invasive m).
Proof.
  intros G. apply generate_model_inv in G as (_ & _ & _ & R & X).
  apply extract_inv in X. unfold extracted in X.
  split; [intros u ext n; rewrite fireSeverity_run, R; reflexivity|].
  split; [intros sev st; rewrite R; reflexivity|].
  split; [intros roll sev st H; rewrite R; apply Qgtb_gt; exact H|].
  split.
  { intros u sev id k H. unfold NativeTree_init, sample_uniform, mbind,
      rand_bind, mret, rand_ret. simpl. rewrite R. simpl.
    apply Qgtb_gt. apply roll_positive. exact H. }
  split.
  { intros u sev id k H. unfold NativeTree_init, sample_uniform, mbind,
      rand_bind, mret, rand_ret. simpl. rewrite R. simpl.
    intros D. apply Qgtb_le in D. apply roll_zero; assumption. }
  split; [intros sev; rewrite R; reflexivity|].
  split; [intros u ext; rewrite invasiveCover_init, R; reflexivity|].
  tauto.
Qed.

Lemma no_fire_no_birth_mortality_witness :
  fireSeverity
    (patch_at (example_model ("baseline", false, 0%Z, 0%Z) 4 10) draws_half 0.95 3)
  = 0%Q
  /\ alive_init 50
       (fire_mortality (example_model ("baseline", false, 0%Z, 0%Z) 4 10)
          0.95 Seedling) = true.
Proof.
  pose proof (no_fire_no_birth_mortality _ _ _ _ _
                (generate_model_example "baseline" false 0%Z 0%Z))
    as (F & _ & A & _).
  split; [apply F|apply A; reflexivity].
Defined.

(** The chained recruitment rules compute the count of the
    specification. *)
Lemma recruitment_eq_spec m numAdults numTrees cover :
  recruitment m numAdults numTrees cover
  = recruitment_spec m numAdults numTrees cover.
Proof.
  unfold recruitment, recruitment_spec, actualNewSeedlings_step,
    limitedSeedlings_step, potentialSeedlings_step, canEstablish_step,
    hasRoom_step, roomForSeedlings_step.
  destruct (Qltb cover (inject_Z (establishment_threshold m))); simpl;
    destruct (Z.gtb_spec (max_trees m - numTrees) 0);
    repeat match goal with
           | |- context [(?a <? ?b)%Z] => destruct (Z.ltb_spec a b)
           | |- context [(?a >? ?b)%Z] => destruct (Z.gtb_spec a b)
           end; lia.
Qed.


Lemma create_S m u n sev id k :
  create m u (S n) sev id k
  = (fst (NativeTree_init m u sev id k)
       :: fst (create m u n sev (S id) (snd (NativeTree_init m u sev id k))),
     snd (create m u n sev (S id) (snd (NativeTree_init m u sev id k)))).
Proof.
  change (create m u (S n) sev id k)
    with ((o ← NativeTree_init m u sev id;
           os ← create m u n sev (S id); mret (o :: os)) k).
  unfold mbind, rand_bind, mret, rand_ret.
  destruct (NativeTree_init m u sev id k) as [o k1].
  destruct (create m u n sev (S id) k1) as [os k2] eqn:E.
  simpl fst. simpl snd. rewrite E. reflexivity.
Qed.

Lemma create_length m u n : forall sev id k,
  length (fst (create m u n sev id k)) = n.
Proof.
  induction n as [|n IH]; intros sev id k; [reflexivity|].
  rewrite create_S. cbn [fst length]. rewrite IH. reflexivity.
Qed.

Lemma create_from_init m u n : forall sev id k o,
  In o (fst (create m u n sev id k)) ->
  exists id' k', o = fst (NativeTree_init m u sev id' k').
Proof.
  induction n as [|n IH]; intros sev id k o; [intros []|].
  rewrite create_S. cbn [fst]. intros [<- | Hin].
  - exists id, k. reflexivity.
  - eapply IH. exact Hin.
Qed.

(** C4, as the rules have it.  The number of organisms created at a step
    is [min(numAdults, maxTreesPerPatch - numTrees)] when the invasive cover
    is below the establishment threshold and that minimum is positive, and
    0 otherwise; it is never negative, never above the larger of 0 and that
    minimum, and at most that minimum whenever the minimum is not
    negative. *)
Theorem recruitment_count m u (p : patch) (k : nat) numAdults numTrees cover :
  recruitment m numAdults numTrees cover
  = (if Qltb cover (inject_Z (establishment_threshold m))
        && (0 <? Z.min numAdults (max_trees m - numTrees))%Z
     then Z.min numAdults (max_trees m - numTrees) else 0)%Z
  /\ (0 <= recruitment m numAdults numTrees cover)%Z
  /\ (recruitment m numAdults numTrees cover
      <= Z.max 0 (Z.min numAdults (max_trees m - numTrees)))%Z
  /\ ((0 <= Z.min numAdults (max_trees m - numTrees))%Z ->
      (recruitment m numAdults numTrees cover
       <= Z.min numAdults (max_trees m - numTrees))%Z)
  /\ length (recruits m u p k)
     = Z.to_nat (recruitment m (numAdults_step (living p))
                   (numTrees_step (living p)) (cover_after m p))
  /\ newSeedlings (exports m p)
     = recruitment m (numAdults_step (living p))
         (numTrees_step (living p)) (cover_after m p).
Proof.
  split; [apply recruitment_eq_spec|].
  assert (B : (0 <= recruitment m numAdults numTrees cover
               <= Z.max 0 (Z.min numAdults (max_trees m - numTrees)))%Z).
  { rewrite recruitment_eq_spec. unfold recruitment_spec.
    destruct (Qltb cover _); simpl; [|lia].
    destruct (Z.ltb_spec 0 (Z.min numAdults (max_trees m - numTrees))); lia. }
  split; [lia|]. split; [lia|]. split; [lia|].
  split; [unfold recruits; apply create_length|reflexivity].
Qed.

Lemma recruitment_count_witness :
  (recruitment (example_model ("baseline", false, 0%Z, 0%Z) 4 10) 3 4 (10 # 1)
   <= Z.min 3 (max_trees (example_model ("baseline", false, 0%Z, 0%Z) 4 10) - 4))%Z.
Proof.
  apply (recruitment_count (example_model ("baseline", false, 0%Z, 0%Z) 4 10)
           draws_half
           (patch_at (example_model ("baseline", false, 0%Z, 0%Z) 4 10)
              draws_half 0 O) O 3 4 (10 # 1)).
  vm_compute. discriminate.
Defined.

(** C4, as stated, fails on a patch above its capacity: started with 12
    trees and a capacity of 10, the step creates 0 organisms, which is more
    than [min(numAdults, maxTreesPerPatch - numTrees) = -2]. *)
Lemma recruitment_exceeds_negative_minimum :
  let m := example_model ("baseline", false, 0%Z, 0%Z) 12 10 in
  let p := patch_at m draws_half 0 O in
  main_model crowded_config ("baseline", false, 0%Z, 0%Z) = Ok m
  /\ numAdults_step (living p) = 12%Z
  /\ numTrees_step (living p) = 12%Z
  /\ max_trees m = 10%Z
  /\ newSeedlings (exports m p) = 0%Z
  /\ Z.min (numAdults_step (living p))
           (max_trees m - numTrees_step (living p)) = (-2)%Z
  /\ ~ (newSeedlings (exports m p)
        <= Z.min (numAdults_step (living p))
                 (max_trees m - numTrees_step (living p)))%Z.
Proof.
  split; [apply main_model_crowded|].
  vm_compute. repeat split; try reflexivity. intros H. apply H. reflexivity.
Qed.

Lemma invasiveCover_step_clamp (raw : Q) :
  (invasiveCover_step raw == clamp raw 0 100)%Q.
Proof.
  unfold invasiveCover_step, clamp.
  destruct (Qltb raw 0) eqn:L.
  - apply Qltb_lt in L.
    rewrite Q.max_l; [reflexivity|].
    rewrite Q.min_l; [apply Qlt_le_weak; exact L|].
    apply Qle_trans with 0%Q; [apply Qlt_le_weak; exact L|discriminate].
  - apply Qltb_ge in L.
    destruct (Qgtb raw 100) eqn:G.
    + apply Qgtb_gt in G.
      rewrite Q.min_r; [|apply Qlt_le_weak; exact G].
      rewrite Q.max_r; [reflexivity|discriminate].
    + apply Qgtb_le in G.
      rewrite Q.min_l; [|exact G].
      rewrite Q.max_r; [reflexivity|exact L].
Qed.

(** C6.  The invasive cover of a step is the recurrence of the
    specification applied to the prior cover: suppression (0 without
    trees), growth rate, active removal inside its window, net growth, and
    the clamp to [0, 100]; every step of every run applies it to the
    patch's removal effort, step count and number of living trees.  With a
    removal effort of 12 and a duration of 10, the active removal is 12 at
    step count 5 and 0 at step count 15. *)
Theorem invasive_cover_recurrence m removalEffort stepCount numTrees
    (prior : Q) :
  (0 <= numTrees)%Z ->
  (cover_update m removalEffort stepCount numTrees prior
   == recurrence_spec m (postFireBonus_step m stepCount)
        removalEffort stepCount numTrees prior)%Q
  /\ (forall u ext n,
        invasiveCover (patch_at m u ext (S n))
        = cover_update m (removal_effort m)
            (stepCount_step (Sim.stepCount (patch_at m u ext n)))
            (count (living (patch_at m u ext n)))
            (invasiveCover (patch_at m u ext n)))
  /\ (removal_duration m = 10%Z ->
      activeRemoval_step m 12 5 = 12%Q /\ activeRemoval_step m 12 15 = 0%Q).
Proof.
  intros Hn. split; [|split].
  - unfold cover_update, recurrence_spec.
    rewrite invasiveCover_step_clamp.
    unfold rawCover_step, netGrowth_step, growthRate_step, activeRemoval_step,
      treeSuppression_step.
    destruct (Z.gtb_spec numTrees 0) as [Hp|Hz];
      destruct (Z.eqb_spec numTrees 0) as [He|Hne]; try lia; reflexivity.
  - intros u ext n. rewrite invasiveCover_S. unfold cover_after.
    rewrite removalEffort_run. reflexivity.
  - intros D. unfold activeRemoval_step. rewrite D. split; reflexivity.
Qed.

Lemma invasive_cover_recurrence_witness :
  (cover_update (example_model ("fire_removal", true, 0%Z, 12%Z) 4 10) 12 5 3 (60 # 1)
   == recurrence_spec (example_model ("fire_removal", true, 0%Z, 12%Z) 4 10)
        (postFireBonus_step (example_model ("fire_removal", true, 0%Z, 12%Z) 4 10) 5)
        12 5 3 (60 # 1))%Q.
Proof.
  apply (invasive_cover_recurrence
           (example_model ("fire_removal", true, 0%Z, 12%Z) 4 10) 12 5 3 (60 # 1)).
  lia.
Defined.

Lemma parse_jshc_nonneg lines params :
  parse_jshc lines = Ok params -> nonneg_values params.
Proof.
  unfold parse_jshc. intros H.
  eapply parse_lines_nonneg; [|exact H].
  intros key num unit L. rewrite lookup_empty in L. discriminate.
Qed.

Lemma invasiveCover_step_range (raw : Q) :
  (0 <= invasiveCover_step raw)%Q /\ (invasiveCover_step raw <= 100)%Q.
Proof.
  unfold invasiveCover_step.
  destruct (Qltb raw 0) eqn:L; [split; discriminate|].
  apply Qltb_ge in L.
  destruct (Qgtb raw 100) eqn:G; [split; discriminate|].
  apply Qgtb_le in G. split; assumption.
Qed.

Lemma inject_Z_nonneg (z : Z) : (0 <= z)%Z -> (0 <= inject_Z z)%Q.
Proof. intros H. unfold Qle. simpl. lia. Qed.

Lemma inject_Z_le_100 (z : Z) : (z <= 100)%Z -> (inject_Z z <= 100)%Q.
Proof. intros H. unfold Qle. simpl. lia. Qed.

(** The initial cover is one of the four configured constants. *)
Lemma invasive_init_cases (c : consts) (hf : bool) (sev : Q) :
  exists z, invasive_init (fire_specific c hf) sev = inject_Z z
            /\ (z = baseline_invasive c \/ z = fire_high_invasive c
                \/ z = fire_med_invasive c \/ z = fire_low_invasive c).
Proof.
  destruct hf; simpl.
  - destruct (Qgtb sev (high_threshold c)); [eauto 6|].
    destruct (Qgtb sev (med_threshold c)); eauto 6.
  - eauto 6.
Qed.

(** C3, as the rules have it.  After every step the invasive cover lies
    in [0, 100], whatever the prior cover, because the update writes the
    clamped value.  The initial cover is the configured constant that
    [invasiveCover.init] names: it is never negative, and it is within
    [0, 100] (and then so is the cover of every step, the initial one
    included) when the four configured cover constants are at most 100. *)
Theorem invasive_cover_bounds config name hf sb re m u ext :
  main_model config (name, hf, sb, re) = Ok m ->
  (forall n, (0 <= invasiveCover (patch_at m u ext (S n)))%Q
             /\ (invasiveCover (patch_at m u ext (S n)) <= 100)%Q)
  /\ (exists z, invasiveCover (patch_at m u ext O) = inject_Z z
                /\ (z = baseline_invasive m \/ z = fire_high_invasive m
                    \/ z = fire_med_invasive m \/ z = fire_low_invasive m))
  /\ (0 <= invasiveCover (patch_at m u ext O))%Q
  /\ ((baseline_invasive m <= 100)%Z -> (fire_high_invasive m <= 100)%Z ->
      (fire_med_invasive m <= 100)%Z -> (fire_low_invasive m <= 100)%Z ->
      forall n, (0 <= invasiveCover (patch_at m u ext n))%Q
                /\ (invasiveCover (patch_at m u ext n) <= 100)%Q).
Proof.
  intros G. apply main_model_inv in G as (params & P & G).
  apply parse_jshc_nonneg in P.
  apply generate_model_inv in G as (_ & _ & _ & R & X).
  apply extract_inv in X. unfold extracted in X.
  assert (Hstep : forall n,
             (0 <= invasiveCover (patch_at m u ext (S n)))%Q
             /\ (invasiveCover (patch_at m u ext (S n)) <= 100)%Q).
  { intros n. rewrite invasiveCover_S. unfold cover_after, cover_update.
    apply invasiveCover_step_range. }
  destruct (invasive_init_cases m hf (fire_severity_init m ext))
    as (z & Hz & Hcase).
  rewrite <- R in Hz. rewrite <- (invasiveCover_init m u) in Hz.
  assert (Hpos : (0 <= z)%Z).
  { decompose [and] X.
    destruct Hcase as [-> | [-> | [-> | ->]]];
      (eapply int_nonneg; [exact P|eassumption]). }
  split; [exact Hstep|].
  split; [exists z; split; assumption|].
  split; [rewrite Hz; apply inject_Z_nonneg; exact Hpos|].
  intros B1 B2 B3 B4 [|n]; [|apply Hstep].
  rewrite Hz. split; [apply inject_Z_nonneg; exact Hpos|].
  apply inject_Z_le_100.
  destruct Hcase as [-> | [-> | [-> | ->]]]; assumption.
Qed.

Lemma invasive_cover_bounds_witness :
  (0 <= invasiveCover
          (patch_at (example_model ("fire_both", true, 8%Z, 12%Z) 4 10)
             draws_half 0.95 7))%Q
  /\ (invasiveCover
        (patch_at (example_model ("fire_both", true, 8%Z, 12%Z) 4 10)
           draws_half 0.95 7) <= 100)%Q.
Proof.
  exact (proj1 (invasive_cover_bounds _ _ _ _ _ _ draws_half 0.95%Q
                  (main_model_example ("fire_both", true, 8%Z, 12%Z))) 6%nat).
Defined.

(** C3, as stated, fails at initialization: a parameter file with
    [baselineInvasiveCover = 150 percent] starts every patch of the
    baseline scenario with an invasive cover of 150. *)
Lemma initial_cover_above_100 :
  let m := example_model ("baseline", false, 0%Z, 0%Z) 4 150 in
  main_model overgrown_config ("baseline", false, 0%Z, 0%Z) = Ok m
  /\ invasiveCover (patch_at m draws_half 0 O) = 150%Q
  /\ ~ (invasiveCover (patch_at m draws_half 0 O) <= 100)%Q.
Proof.
  split; [apply main_model_overgrown|].
  split; [vm_compute; reflexivity|].
  vm_compute. intros H. apply H. reflexivity.
Qed.


(** The organisms that [NativeTree.end] appends at a step are created by
    the organism's [.init] rules, the rules of the initial population:
    the age is a uniform sample between [initialAgeMin] and
    [initialAgeMax], the state is derived from that age, and [alive] is
    the outcome of the birth-time roll against the fire mortality of the
    patch's severity and that state. *)
Lemma recruits_run_init_rules m u (p : patch) (k : nat) (o : organism) :
  In o (recruits m u p k) ->
  In o (NativeTree (fst (patch_step m u p k)))
  /\ (exists id j, o = fst (NativeTree_init m u (fireSeverity p) id j))
  /\ (exists j, age o = (inject_Z (age_min m)
                         + u j * (inject_Z (age_max m) - inject_Z (age_min m)))%Q
                /\ fireDeathRoll o = (0 + u (S j) * (100 - 0))%Q)
  /\ state o = state_init m (age o)
  /\ fireMortality o = fire_mortality m (fireSeverity p) (state o)
  /\ alive o = Qgtb (fireDeathRoll o) (fireMortality o).
Proof.
  intros Hin. split.
  { rewrite patch_step_eq. simpl. apply in_or_app. right. exact Hin. }
  unfold recruits in Hin. apply create_from_init in Hin as (id & j & ->).
  pose proof (NativeTree_init_rules m u (fireSeverity p) id j)
    as (A & S1 & D & F & L).
  split; [exists id, j; reflexivity|].
  split; [exists j; split; assumption|].
  split; [exact S1|]. split; [exact F|exact L].
Qed.

(** C1.  The rule set does not do what the claim says, although it calls
    the created organisms seedlings ([actualNewSeedlings],
    [export.newSeedlings]): [create ... of NativeTree] runs the [.init]
    rules of the initial population.  With the example parameter file
    (initial ages from 0 to 50 years):
    - in the [baseline] scenario with every draw 1/2, the first step
      reports 4 new seedlings and creates 4 organisms of age 25, all
      Adults;
    - in the [fire_only] scenario, in a patch of severity 0.2 where the
      draws of the first step's creations are 1/10, the first step reports
      4 new seedlings and creates 4 organisms of age 5, all Juveniles,
      whose birth-time roll of 10 against the fire mortality 15 leaves
      each of them dead at creation.
    The created organisms are in the collection after the step. *)
Theorem recruit_aged_and_killed_at_birth :
  let b := example_model ("baseline", false, 0%Z, 0%Z) 4 10 in
  let f := example_model ("fire_only", true, 0%Z, 0%Z) 4 10 in
  let u := draws_half_then_tenth in
  let pb := patch_at b draws_half 0 O in
  let kb := snd (run b draws_half 0 O O) in
  let pf := patch_at f u (2 # 10) O in
  let kf := snd (run f u (2 # 10) O O) in
  main_model example_config ("baseline", false, 0%Z, 0%Z) = Ok b
  /\ main_model example_config ("fire_only", true, 0%Z, 0%Z) = Ok f
  /\ newSeedlings (exports b pb) = 4%Z
  /\ length (recruits b draws_half pb kb) = 4%nat
  /\ Forall (fun o => (age o == 25)%Q /\ state o = Adult)
            (recruits b draws_half pb kb)
  /\ incl (recruits b draws_half pb kb)
          (NativeTree (patch_at b draws_half 0 1))
  /\ newSeedlings (exports f pf) = 4%Z
  /\ length (recruits f u pf kf) = 4%nat
  /\ Forall (fun o => (age o == 5)%Q /\ state o = Juvenile
                      /\ (fireDeathRoll o == 10)%Q
                      /\ (fireMortality o == 15)%Q
                      /\ alive o = false)
            (recruits f u pf kf)
  /\ incl (recruits f u pf kf) (NativeTree (patch_at f u (2 # 10) 1)).
Proof.
  intros b f u pb kb pf kf.
  split; [apply main_model_example|].
  split; [apply main_model_example|].
  split; [vm_compute; reflexivity|].
  split; [vm_compute; reflexivity|].
  split; [vm_compute; repeat constructor|].
  split.
  { intros o Hin. rewrite patch_at_S.
    apply recruits_run_init_rules. exact Hin. }
  split; [vm_compute; reflexivity|].
  split; [vm_compute; reflexivity|].
  split; [vm_compute; repeat constructor|].
  intros o Hin. rewrite patch_at_S.
  apply recruits_run_init_rules. exact Hin.
Qed.

End RuleProperties.

(** ** The seeding boost does not enter the dynamics *)

Section BoostFacts.
Import Gen Sim.

Variables m1 m2 : model.
Variable u : nat -> Q.
Hypothesis same_cst : cst m1 = cst m2.
Hypothesis same_rules : rules m1 = rules m2.
Hypothesis same_removal : removal_effort m1 = removal_effort m2.

Lemma patch_step_boost b p k :
  patch_step m2 u (with_boost b p) k
  = (with_boost b (fst (patch_step m1 u p k)), snd (patch_step m1 u p k)).
Proof.
  rewrite !patch_step_eq.
  destruct m1 as [n1 b1 r1 c1 f1], m2 as [n2 b2 r2 c2 f2].
  simpl in same_cst, same_rules, same_removal. subst c2 f2 r2.
  reflexivity.
Qed.

Lemma run_boost ext n : forall k,
  run m2 u ext n k
  = (with_boost (seeding_boost m2) (fst (run m1 u ext n k)),
     snd (run m1 u ext n k)).
Proof.
  induction n as [|n IH]; intros k.
  - simpl. rewrite !patch_init_eq.
    destruct m1 as [n1 b1 r1 c1 f1], m2 as [n2 b2 r2 c2 f2].
    simpl in same_cst, same_rules, same_removal. subst c2 f2 r2.
    reflexivity.
  - rewrite !run_S, IH. simpl fst. simpl snd. apply patch_step_boost.
Qed.

Lemma exports_boost b p : exports m2 (with_boost b p) = exports m1 p.
Proof.
  destruct m1 as [n1 b1 r1 c1 f1], m2 as [n2 b2 r2 c2 f2].
  simpl in same_cst, same_rules, same_removal. subst c2 f2 r2.
  reflexivity.
Qed.

Lemma recruitment_boost numAdults numTrees cover :
  recruitment m2 numAdults numTrees cover
  = recruitment m1 numAdults numTrees cover.
Proof.
  destruct m1 as [n1 b1 r1 c1 f1], m2 as [n2 b2 r2 c2 f2].
  simpl in same_cst, same_rules, same_removal. subst c2 f2 r2.
  reflexivity.
Qed.

End BoostFacts.

Section BoostProperties.
Import Gen Sim.

(** C2.  For one parameter set, two scenarios with the same [has_fire]
    and removal effort generate rule sets with the same dynamics whatever
    their seeding boosts: under the same draws and fire data the patches
    agree at every step in every attribute but [seedingBoost], which keeps
    its initial value, and the exported rows are the same; the room for
    seedlings is [maxTreesPerPatch - numTrees].  This holds for
    [fire_seeding] against [fire_only] and [fire_both] against
    [fire_removal]. *)
Theorem seeding_boost_is_inert params name1 name2 hf sb1 sb2 re m1 m2
    (u : nat -> Q) (ext : Q) (n : nat) :
  generate_model name1 hf sb1 re params = Ok m1 ->
  generate_model name2 hf sb2 re params = Ok m2 ->
  patch_at m2 u ext n = with_boost sb2 (patch_at m1 u ext n)
  /\ seedingBoost (patch_at m1 u ext n) = sb1
  /\ trace m2 u ext n = trace m1 u ext n
  /\ (forall numAdults numTrees cover,
        recruitment m2 numAdults numTrees cover
        = recruitment m1 numAdults numTrees cover)
  /\ (forall numTrees,
        roomForSeedlings_step m1 numTrees = (max_trees m1 - numTrees)%Z).
Proof.
  intros G1 G2.
  apply generate_model_inv in G1 as (_ & B1 & R1 & F1 & X1).
  apply generate_model_inv in G2 as (_ & B2 & R2 & F2 & X2).
  assert (C : cst m1 = cst m2) by congruence.
  assert (F : rules m1 = rules m2) by congruence.
  assert (R : removal_effort m1 = removal_effort m2) by congruence.
  assert (P : forall i, patch_at m2 u ext i
                        = with_boost sb2 (patch_at m1 u ext i)).
  { intros i. unfold patch_at. rewrite (run_boost m1 m2 u C F R ext i O).
    simpl. rewrite B2. reflexivity. }
  split; [apply P|].
  split.
  { clear P. induction n as [|i IH].
    - unfold patch_at. simpl. rewrite patch_init_eq. simpl. exact B1.
    - rewrite patch_at_S, patch_step_eq. simpl. exact IH. }
  split.
  { unfold trace. apply map_ext. intros i. rewrite P.
    apply exports_boost; assumption. }
  split; [intros; apply recruitment_boost; assumption|reflexivity].
Qed.

Lemma seeding_boost_is_inert_witness :
  trace (example_model ("fire_seeding", true, 8%Z, 0%Z) 4 10) draws_half (2 # 10) 5
  = trace (example_model ("fire_only", true, 0%Z, 0%Z) 4 10) draws_half (2 # 10) 5.
Proof.
  exact (proj1 (proj2 (proj2
           (seeding_boost_is_inert _ _ _ _ _ _ _ _ _ draws_half (2 # 10)%Q 5%nat
              (generate_model_example "fire_only" true 0%Z 0%Z)
              (generate_model_example "fire_seeding" true 8%Z 0%Z))))).
Defined.

(** The two pairs of the scenario table that differ in the seeding boost
    only. *)
Lemma boost_pairs_in_table :
  SCENARIOS !! 1%nat = Some ("fire_only", true, 0%Z, 0%Z)
  /\ SCENARIOS !! 2%nat = Some ("fire_seeding", true, 8%Z, 0%Z)
  /\ SCENARIOS !! 3%nat = Some ("fire_removal", true, 0%Z, 12%Z)
  /\ SCENARIOS !! 4%nat = Some ("fire_both", true, 8%Z, 12%Z).
Proof. repeat split; reflexivity. Qed.

End BoostProperties.

(** ** Life stages and death *)

Section PopulationFacts.
Import Gen Sim.

Variable m : model.
Variable u : nat -> Q.

Lemma mapR_cons {A B} (f : A -> rand B) a l k :
  mapR f (a :: l) k
  = (fst (f a k) :: fst (mapR f l (snd (f a k))),
     snd (mapR f l (snd (f a k)))).
Proof.
  change (mapR f (a :: l) k)
    with ((b ← f a; bs ← mapR f l; mret (b :: bs)) k).
  unfold mbind, rand_bind, mret, rand_ret.
  destruct (f a k) as [b k1].
  destruct (mapR f l k1) as [bs k2] eqn:E.
  simpl fst. simpl snd. rewrite E. reflexivity.
Qed.

Lemma mapR_pointwise {A B} (f : A -> rand B) l : forall k b,
  In b (fst (mapR f l k)) -> exists a j, In a l /\ b = fst (f a j).
Proof.
  induction l as [|a l IH]; intros k b; [intros []|].
  rewrite mapR_cons. cbn [fst]. intros [<- | Hin].
  - exists a, k. split; [left; reflexivity|reflexivity].
  - apply IH in Hin as (a' & j & Ha & E).
    exists a', j. split; [right; exact Ha|exact E].
Qed.

Lemma organism_step_ident cover o k :
  ident (fst (organism_step m u cover o k)) = ident o.
Proof. reflexivity. Qed.

Lemma survivors_idents cover l : forall k,
  idents (fst (mapR (organism_step m u cover) l k)) = idents l.
Proof.
  induction l as [|a l IH]; intros k; [reflexivity|].
  rewrite mapR_cons. cbn [fst]. unfold idents in *. cbn [map].
  rewrite IH, organism_step_ident. reflexivity.
Qed.

Lemma create_idents n : forall sev id k,
  idents (fst (create m u n sev id k)) = seq id n.
Proof.
  induction n as [|n IH]; intros sev id k; [reflexivity|].
  rewrite create_S. cbn [fst]. unfold idents in *. cbn [map seq].
  rewrite IH. reflexivity.
Qed.

Lemma state_step_forward s current_age current_alive :
  forward s (state_step m s current_age current_alive)
  /\ (state_step m s current_age current_alive <> s -> current_alive = true).
Proof.
  unfold forward. destruct s; simpl.
  - destruct (Qgeb current_age _); simpl.
    + destruct current_alive; simpl; split; auto; congruence.
    + split; auto; congruence.
  - destruct (Qgeb current_age _); simpl.
    + destruct current_alive; simpl; split; auto; congruence.
    + split; auto; congruence.
  - split; auto; congruence.
Qed.

Lemma organism_step_forward cover o k :
  let o' := fst (organism_step m u cover o k) in
  forward (state o) (state o') /\ (state o' <> state o -> alive o' = true).
Proof. apply state_step_forward. Qed.

Lemma living_alive p o : In o (living p) <-> In o (NativeTree p) /\ alive o = true.
Proof.
  unfold living, NativeTree_start. rewrite filter_In.
  destruct (alive o); simpl; tauto.
Qed.

Lemma idents_filter_incl (f : organism -> bool) l i :
  In i (idents (List.filter f l)) -> In i (idents l).
Proof.
  unfold idents. rewrite !in_map_iff. intros (o & E & Hin).
  apply filter_In in Hin as [Hin _]. exists o. split; assumption.
Qed.

Lemma idents_filter_NoDup (f : organism -> bool) l :
  List.NoDup (idents l) -> List.NoDup (idents (List.filter f l)).
Proof.
  induction l as [|a l IH]; simpl; [intros; constructor|].
  intros N. inversion N as [|? ? Hnot N']; subst.
  destruct (f a); [|apply IH; exact N'].
  unfold idents. cbn [map]. constructor; [|apply IH; exact N'].
  intros C. apply Hnot. eapply idents_filter_incl. exact C.
Qed.

(** An organism that is not alive has no namesake among the living. *)
Lemma dead_not_living l o :
  List.NoDup (idents l) -> In o l -> alive o = false ->
  ~ In (ident o) (idents (List.filter (fun o => Bool.eqb (alive o) true) l)).
Proof.
  induction l as [|a l IH]; [intros _ []|].
  intros N Hin D. unfold idents in N. cbn [map] in N.
  inversion N as [|? ? Hnot N']; subst.
  cbn [List.filter]. destruct Hin as [-> | Hin].
  - rewrite D. cbn [Bool.eqb]. intros C. apply Hnot.
    eapply idents_filter_incl. exact C.
  - destruct (Bool.eqb (alive a) true).
    + unfold idents. cbn [map]. intros [E | C].
      * apply Hnot. rewrite E. apply in_map. exact Hin.
      * exact (IH N' Hin D C).
    + exact (IH N' Hin D).
Qed.

Lemma patch_step_trees p k :
  NativeTree (fst (patch_step m u p k))
  = (fst (survivors m u p k) ++ recruits m u p k)%list.
Proof. rewrite patch_step_eq. reflexivity. Qed.

Lemma patch_step_idents p k :
  idents (NativeTree (fst (patch_step m u p k)))
  = (idents (living p)
     ++ seq (created p)
          (Z.to_nat (recruitment m (numAdults_step (living p))
                       (numTrees_step (living p)) (cover_after m p))))%list.
Proof.
  rewrite patch_step_trees. unfold idents. rewrite map_app.
  fold (idents (fst (survivors m u p k))). fold (idents (recruits m u p k)).
  unfold survivors, recruits. rewrite survivors_idents, create_idents.
  reflexivity.
Qed.

Lemma patch_step_created p k :
  created (fst (patch_step m u p k))
  = (created p + Z.to_nat (recruitment m (numAdults_step (living p))
                             (numTrees_step (living p)) (cover_after m p)))%nat.
Proof. rewrite patch_step_eq. reflexivity. Qed.

Lemma well_identified_step p k :
  well_identified p -> well_identified (fst (patch_step m u p k)).
Proof.
  intros [N B]. unfold well_identified.
  rewrite patch_step_idents, patch_step_created. split.
  - apply List.NoDup_app.
    + apply idents_filter_NoDup. exact N.
    + apply seq_NoDup.
    + intros i Hl Hs. apply in_seq in Hs.
      apply idents_filter_incl in Hl. apply B in Hl. lia.
  - intros i Hin. apply in_app_or in Hin as [Hl | Hs].
    + apply idents_filter_incl in Hl. apply B in Hl. lia.
    + apply in_seq in Hs. lia.
Qed.

Lemma well_identified_run ext n : well_identified (patch_at m u ext n).
Proof.
  induction n as [|n IH].
  - unfold patch_at. simpl. rewrite patch_init_eq. unfold well_identified.
    cbn [fst NativeTree created]. rewrite create_idents. split.
    + apply seq_NoDup.
    + intros i Hin. apply in_seq in Hin. lia.
  - rewrite patch_at_S. apply well_identified_step. exact IH.
Qed.

Lemma departed_step i p k :
  departed i p -> departed i (fst (patch_step m u p k)).
Proof.
  intros [B A]. unfold departed.
  rewrite patch_step_idents, patch_step_created. split; [lia|].
  intros Hin. apply in_app_or in Hin as [Hl | Hs].
  - apply A. eapply idents_filter_incl. exact Hl.
  - apply in_seq in Hs. lia.
Qed.

Lemma dead_departs p k o :
  well_identified p -> In o (NativeTree p) -> alive o = false ->
  departed (ident o) (fst (patch_step m u p k)).
Proof.
  intros [N B] Hin D. unfold departed.
  rewrite patch_step_idents, patch_step_created.
  assert (Hb : (ident o < created p)%nat).
  { apply B. unfold idents. apply in_map. exact Hin. }
  split; [lia|].
  intros C. apply in_app_or in C as [Hl | Hs].
  - exact (dead_not_living _ _ N Hin D Hl).
  - apply in_seq in Hs. lia.
Qed.

Lemma departed_run ext i n : forall d,
  departed i (patch_at m u ext n) -> departed i (patch_at m u ext (n + d)).
Proof.
  induction d as [|d IH]; intros H.
  - rewrite Nat.add_0_r. exact H.
  - rewrite Nat.add_succ_r, patch_at_S. apply departed_step. apply IH. exact H.
Qed.

End PopulationFacts.

Section PopulationProperties.
Import Gen Sim.

(** C7.  The state of an organism moves only forward along Seedling,
    Juvenile, Adult, by at most one stage per step, Adult being final, and
    it changes only at a step that leaves the organism alive; the
    organisms that take a step are those of the prior collection that are
    alive.  An organism that is not alive at the end of a step is in the
    living population of no later step: no organism of these populations
    carries its identity. *)
Theorem life_stage_forward_death_absorbing m u ext n :
  (forall s current_age current_alive,
      forward s (state_step m s current_age current_alive)
      /\ (state_step m s current_age current_alive <> s -> current_alive = true))
  /\ (forall current_age current_alive,
        state_step m Adult current_age current_alive = Adult)
  /\ (forall o',
        In o' (NativeTree (patch_at m u ext (S n))) ->
        (ident o' < created (patch_at m u ext n))%nat ->
        exists o, In o (NativeTree (patch_at m u ext n)) /\ alive o = true
                  /\ ident o = ident o'
                  /\ forward (state o) (state o')
                  /\ (state o' <> state o -> alive o' = true))
  /\ (forall o,
        In o (NativeTree (patch_at m u ext n)) -> alive o = false ->
        forall t o', (n <= t)%nat ->
                     In o' (living (patch_at m u ext t)) ->
                     ident o' <> ident o)
  /\ well_identified (patch_at m u ext n).
Proof.
  split; [apply state_step_forward|]. split; [reflexivity|].
  split; [|split; [|apply well_identified_run]].
  - intros o' Hin Hlt. rewrite patch_at_S, patch_step_trees in Hin.
    apply in_app_or in Hin as [Hs | Hr].
    + unfold survivors in Hs. apply mapR_pointwise in Hs as (o & j & Ho & ->).
      apply living_alive in Ho as [Ho Ha].
      exists o. split; [exact Ho|]. split; [exact Ha|].
      split; [reflexivity|]. apply organism_step_forward.
    + exfalso.
      assert (Hi : In (ident o') (idents (recruits m u (patch_at m u ext n)
                                            (snd (run m u ext n O))))).
      { unfold idents. apply in_map. exact Hr. }
      unfold recruits in Hi. rewrite create_idents in Hi.
      apply in_seq in Hi. lia.
  - intros o Hin D t o' Hle Hl E.
    assert (Hi : In (ident o) (idents (living (patch_at m u ext t)))).
    { rewrite <- E. unfold idents. apply in_map. exact Hl. }
    destruct (Nat.eq_dec n t) as [<- | Hne].
    + exact (dead_not_living _ _ (proj1 (well_identified_run m u ext n)) Hin D Hi).
    + assert (Hd : departed (ident o) (patch_at m u ext (S n))).
      { rewrite patch_at_S. apply dead_departs;
          [apply well_identified_run|exact Hin|exact D]. }
      apply (departed_run m u ext _ _ (t - S n)) in Hd.
      replace (S n + (t - S n))%nat with t in Hd by lia.
      destruct Hd as [_ Hd]. apply Hd.
      eapply idents_filter_incl. exact Hi.
Qed.

Lemma life_stage_forward_death_absorbing_witness :
  let m := example_model ("fire_only", true, 0%Z, 0%Z) 4 10 in
  let u := draws_half_then_tenth in
  exists o o',
    head (List.filter (fun o => negb (alive o))
            (NativeTree (patch_at m u (2 # 10) 1))) = Some o
    /\ head (living (patch_at m u (2 # 10) 3)) = Some o'
    /\ ident o' <> ident o.
Proof.
  intros m u.
  destruct (List.filter (fun o => negb (alive o))
              (NativeTree (patch_at m u (2 # 10) 1)))
    as [|o os] eqn:E; [vm_compute in E; discriminate E|].
  destruct (living (patch_at m u (2 # 10) 3))
    as [|o' os'] eqn:E'; [vm_compute in E'; discriminate E'|].
  exists o, o'. split; [reflexivity|]. split; [reflexivity|].
  assert (Hin : In o (List.filter (fun o => negb (alive o))
                        (NativeTree (patch_at m u (2 # 10) 1)))).
  { rewrite E. left. reflexivity. }
  apply filter_In in Hin as [Hin Hd]. apply negb_true_iff in Hd.
  pose proof (life_stage_forward_death_absorbing m u (2 # 10)%Q 1%nat)
    as (_ & _ & _ & Habs & _).
  apply (Habs o Hin Hd 3%nat o'); [lia|].
  rewrite E'. left. reflexivity.
Defined.

End PopulationProperties.

(** ** The aggregation *)

Section AggregationFacts.
Import Agg.

Variable dir : results_dir.

Lemma visit_all_spec names : forall a,
  (header a = None ->
   forall f, first_present dir names = Some f -> f <> []) ->
  visit_all dir a names
  = Ok {| all_rows := (all_rows a ++ rows_spec dir names)%list;
          header := match header a with
                    | Some h => Some h
                    | None => header_spec dir names
                    end;
          warnings := (warnings a ++ warnings_spec dir names)%list |}.
Proof.
  induction names as [|n rest IH]; intros a Hhdr.
  - simpl. rewrite !app_nil_r. destruct a as [rs [h|] ws]; reflexivity.
  - cbn [visit_all]. unfold visit at 1.
    unfold rows_spec, warnings_spec, header_spec, first_present in *.
    cbn [flat_map omap list_omap] in *.
    destruct (dir !! result_file n) as [f|] eqn:L.
    + destruct (header a) as [h|] eqn:Hh.
      * simpl. rewrite IH by (simpl; discriminate).
        simpl. rewrite <- app_assoc. reflexivity.
      * specialize (Hhdr eq_refl f eq_refl).
        destruct f as [|ns records]; [congruence|].
        simpl. rewrite IH by (simpl; discriminate).
        simpl. rewrite <- app_assoc. reflexivity.
    + simpl. rewrite IH.
      * simpl. rewrite <- app_assoc. reflexivity.
      * simpl. exact Hhdr.
Qed.


Lemma rows_spec_tagged names n f r :
  In n names -> dir !! result_file n = Some f -> In r (dict_rows f) ->
  In (tag n r) (rows_spec dir names).
Proof.
  intros Hn L Hr. unfold rows_spec. apply in_flat_map.
  exists n. split; [exact Hn|]. rewrite L. apply in_map. exact Hr.
Qed.



End AggregationFacts.

Section AggregationContent.
Import Agg.










Variable dir : results_dir.









Lemma rows_written_all h rs : forall ls,
  writerows h rs = Ok ls -> rows_written h rs = ls.
Proof.
  induction rs as [|r rest IH]; intros ls; simpl.
  - intros [= <-]. reflexivity.
  - destruct (dict_to_list h r) as [l|e]; simpl; [|discriminate].
    destruct (writerows h rest) as [ls'|e]; simpl; [|discriminate].
    intros [= <-]. rewrite (IH ls' eq_refl). reflexivity.
Qed.

(** When [combine_results] returns, the combined file it leaves is the
    one it has written. *)
Lemma combined_file_written c :
  combine_results dir = Ok c -> combined_file dir = written c.
Proof.
  unfold combine_results, combine_over, combined_file.
  destruct (collect scenario_names dir) as [a|e]; [|discriminate].
  cbn [mbind res_bind].
  destruct (all_rows a) as [|r rs]; [intros [= <-]; reflexivity|].
  destruct (header a) as [h|]; [|discriminate].
  destruct (writerows h (r :: rs)) as [ls|e] eqn:W; [|discriminate].
  cbn [mbind res_bind mret res_ret]. intros [= <-]. cbn [written].
  rewrite (rows_written_all _ _ _ W). reflexivity.
Qed.

End AggregationContent.

Section AggregationProperties.
Import Agg.




End AggregationProperties.

(** * Further properties of the parser *)

Section ParserTokens.
Import Jshc Text.

Lemma contains_count d s : contains d s = true <-> (1 <= count_char d s)%nat.
Proof.
  induction s as [|c s IH]; simpl; [split; [discriminate|lia]|].
  destruct (Ascii.eqb c d); simpl; [split; [lia|reflexivity]|exact IH].
Qed.

Lemma count_after_first d s :
  contains d s = true ->
  count_char d s = S (count_char d (after_first d s)).
Proof.
  induction s as [|c s IH]; simpl; [discriminate|].
  destruct (Ascii.eqb c d); simpl; [reflexivity|exact IH].
Qed.

Lemma numchar_cases c :
  is_numchar c = true -> Ascii.eqb c "." = false -> is_digit c = true.
Proof. unfold is_numchar. intros H E. rewrite E, orb_false_r in H. exact H. Qed.

Lemma dot_not_digit c : Ascii.eqb c "." = true -> is_digit c = false.
Proof. intros E. apply Ascii.eqb_eq in E. subst c. reflexivity. Qed.

(** In a token of [[0-9.]], the part before the first dot has a digit
    exactly when it is not empty. *)
Lemma before_first_digits tok :
  forall_chars is_numchar tok = true ->
  exists_char is_digit (before_first "." tok)
  = negb (String.eqb (before_first "." tok) "").
Proof.
  destruct tok as [|c s]; simpl; [reflexivity|].
  intros H. apply andb_true_iff in H as [Hc Hs].
  destruct (Ascii.eqb c ".") eqn:E; simpl; [reflexivity|].
  rewrite (numchar_cases c Hc E). reflexivity.
Qed.

Lemma dotless_digits s :
  forall_chars is_numchar s = true -> contains "." s = false ->
  exists_char is_digit s = negb (String.eqb s "").
Proof.
  destruct s as [|c s]; simpl; [reflexivity|].
  intros H N. apply andb_true_iff in H as [Hc Hs].
  apply orb_false_iff in N as [E _].
  rewrite (numchar_cases c Hc E). reflexivity.
Qed.

Lemma exists_digit_split tok :
  contains "." tok = true ->
  exists_char is_digit tok
  = exists_char is_digit (before_first "." tok)
    || exists_char is_digit (after_first "." tok).
Proof.
  induction tok as [|c s IH]; simpl; [discriminate|].
  destruct (Ascii.eqb c ".") eqn:E; simpl.
  - intros _. rewrite (dot_not_digit c E). reflexivity.
  - intros H. rewrite IH by exact H. rewrite orb_assoc. reflexivity.
Qed.

Lemma forall_after_first p d s :
  forall_chars p s = true -> forall_chars p (after_first d s) = true.
Proof.
  induction s as [|c s IH]; simpl; [reflexivity|].
  intros H. apply andb_true_iff in H as [_ Hs].
  destruct (Ascii.eqb c d); [exact Hs|apply IH; exact Hs].
Qed.

Lemma eqb_empty_false s : negb (String.eqb s "") = true -> s <> "".
Proof. intros H E. subst s. discriminate H. Qed.

Lemma float_token_cases (tok : string) :
  tok <> "" ->
  forall_chars is_numchar tok = true ->
  ((count_char "." tok <= 1)%nat /\ exists_char is_digit tok = true ->
   exists q, py_float tok = Ok q)
  /\ ((2 <= count_char "." tok)%nat \/ exists_char is_digit tok = false ->
      py_float tok = Raise (ValueError tok)).
Proof.
  intros Hne Hall. unfold py_float.
  destruct (contains "." tok) eqn:C.
  - pose proof (count_after_first _ _ C) as Hc.
    pose proof (exists_digit_split _ C) as Hd.
    pose proof (before_first_digits _ Hall) as Hb.
    destruct (contains "." (after_first "." tok)) eqn:C2.
    + apply contains_count in C2. split; [intros [H _]; lia|reflexivity].
    + pose proof (dotless_digits _ (forall_after_first _ "."%char _ Hall) C2) as Ha.
      rewrite Hb, Ha in Hd.
      destruct (before_first "." tok) as [|c1 s1];
        destruct (after_first "." tok) as [|c2 s2]; simpl in Hd.
      * split; [intros [_ H]; congruence|reflexivity].
      * split; [intros _; eexists; reflexivity|].
        intros [H | H]; [|congruence].
        assert (count_char "." (String c2 s2) = O); [|lia].
        destruct (count_char "." (String c2 s2)) eqn:K; [reflexivity|].
        assert (contains "." (String c2 s2) = true) by (apply contains_count; lia).
        congruence.
      * split; [intros _; eexists; reflexivity|].
        intros [H | H]; [|congruence]. simpl in Hc. lia.
      * split; [intros _; eexists; reflexivity|].
        intros [H | H]; [|congruence].
        assert (count_char "." (String c2 s2) = O); [|lia].
        destruct (count_char "." (String c2 s2)) eqn:K; [reflexivity|].
        assert (contains "." (String c2 s2) = true) by (apply contains_count; lia).
        congruence.
  - split; [intros _; eexists; reflexivity|].
    intros [H | H].
    + assert (contains "." tok = true) by (apply contains_count; lia). congruence.
    + rewrite (dotless_digits _ Hall C) in H.
      apply negb_false_iff, String.eqb_eq in H. contradiction.
Qed.


(** X1.  [float] on a non-empty token of digits and dots succeeds exactly
    when the token has at most one dot and at least one digit, and raises
    [ValueError] otherwise. *)
Theorem float_accepts_one_dot_and_a_digit (tok : string) :
  tok <> "" ->
  forall_chars is_numchar tok = true ->
  ((count_char "." tok <= 1)%nat /\ exists_char is_digit tok = true ->
   exists q, py_float tok = Ok q)
  /\ ((2 <= count_char "." tok)%nat \/ exists_char is_digit tok = false ->
      py_float tok = Raise (ValueError tok)).
Proof. exact (float_token_cases tok). Qed.

Lemma float_accepts_one_dot_and_a_digit_witness :
  (exists q, py_float "12.50" = Ok q)
  /\ py_float "1.2.3" = Raise (ValueError "1.2.3")
  /\ py_float "." = Raise (ValueError ".").
Proof.
  split; [|split].
  - apply (float_accepts_one_dot_and_a_digit "12.50"); [discriminate|reflexivity|].
    split; [simpl; lia|reflexivity].
  - apply (float_accepts_one_dot_and_a_digit "1.2.3"); [discriminate|reflexivity|].
    left. simpl. lia.
  - apply (float_accepts_one_dot_and_a_digit "."); [discriminate|reflexivity|].
    right. reflexivity.
Defined.

Lemma span_forall p s : forall_chars p (fst (span p s)) = true.
Proof.
  induction s as [|c s IH]; simpl; [reflexivity|].
  destruct (p c) eqn:E; [|reflexivity].
  destruct (span p s) as [a b]. simpl in *. rewrite E, IH. reflexivity.
Qed.

Lemma re_match_groups value g1 g2 :
  re_match value = Some (g1, g2) ->
  g1 = number_token value /\ g1 <> ""
  /\ forall_chars is_numchar g1 = true /\ forall_chars is_word g2 = true.
Proof.
  unfold re_match, number_token.
  pose proof (span_forall is_numchar value) as H1.
  destruct (span is_numchar value) as [a r1]. simpl in *.
  destruct a as [|c a]; [discriminate|].
  pose proof (span_forall is_word (snd (span is_space r1))) as H2.
  destruct (span is_space r1) as [sp r2]. simpl in *.
  destruct (span is_word r2) as [w r3]. simpl in *.
  intros [= <- <-]. repeat split; try assumption. discriminate.
Qed.

Lemma re_match_token value :
  number_token value <> "" ->
  exists g2, re_match value = Some (number_token value, g2).
Proof.
  unfold re_match, number_token.
  destruct (span is_numchar value) as [a r1]. cbn [fst].
  destruct a as [|c a]; [congruence|]. intros _.
  destruct (span is_space r1) as [sp r2].
  destruct (span is_word r2) as [w r3]. eexists. reflexivity.
Qed.

Lemma parse_line_raises line :
  parse_line line = Raise (ValueError (number_token (value_of line))) <->
  contains "=" (comment_free line) = true
  /\ number_token (value_of line) <> ""
  /\ ((2 <= count_char "." (number_token (value_of line)))%nat
      \/ exists_char is_digit (number_token (value_of line)) = false).
Proof.
  unfold parse_line. split.
  - destruct (contains "=" (comment_free line)); [|discriminate].
    destruct (re_match (value_of line)) as [[g1 g2]|] eqn:M; [|discriminate].
    apply re_match_groups in M as (-> & Hne & Hall & _).
    intros L. split; [reflexivity|]. split; [exact Hne|].
    destruct (le_lt_dec (count_char "." (number_token (value_of line))) 1)
      as [Hle|Hgt]; [|left; lia].
    destruct (exists_char is_digit (number_token (value_of line))) eqn:D;
      [|right; reflexivity].
    destruct (proj1 (float_token_cases _ Hne Hall) (conj Hle D)) as [q F].
    rewrite F in L. discriminate L.
  - intros (C & Hne & Hbad). rewrite C.
    destruct (re_match_token _ Hne) as [g2 M]. rewrite M.
    pose proof (span_forall is_numchar (value_of line)) as Hall.
    fold (number_token (value_of line)) in Hall.
    rewrite (proj2 (float_token_cases _ Hne Hall) Hbad). reflexivity.
Qed.

Lemma parse_line_error line e :
  parse_line line = Raise e -> e = ValueError (number_token (value_of line)).
Proof.
  unfold parse_line.
  destruct (contains "=" (comment_free line)); [|discriminate].
  destruct (re_match (value_of line)) as [[g1 g2]|] eqn:M; [|discriminate].
  apply re_match_groups in M as (-> & Hne & Hall & _).
  destruct (py_float (number_token (value_of line))) as [q|e'] eqn:F;
    simpl; [discriminate|].
  intros [= <-].
  destruct (le_lt_dec (count_char "." (number_token (value_of line))) 1)
    as [Hle|Hgt].
  - destruct (exists_char is_digit (number_token (value_of line))) eqn:D.
    + destruct (proj1 (float_token_cases _ Hne Hall) (conj Hle D)) as [q F'].
      congruence.
    + rewrite (proj2 (float_token_cases _ Hne Hall) (or_intror D)) in F.
      congruence.
  - rewrite (proj2 (float_token_cases _ Hne Hall) (or_introl Hgt)) in F.
    congruence.
Qed.

(** X2.  A line raises exactly when it has an [=] outside its comment and
    the number token of its value is malformed (two or more dots, or no
    digit), and what it raises is the [ValueError] of that token; such a
    line ends [parse_jshc] with that error, whatever the lines before
    (once parsed) and after it hold, so no dictionary is returned. *)
Theorem malformed_number_aborts_parse (before after : list string)
    (line : string) (params : gmap string (Q * string)) :
  parse_jshc before = Ok params ->
  (parse_line line = Raise (ValueError (number_token (value_of line))) <->
   contains "=" (comment_free line) = true
   /\ number_token (value_of line) <> ""
   /\ ((2 <= count_char "." (number_token (value_of line)))%nat
       \/ exists_char is_digit (number_token (value_of line)) = false))
  /\ (forall e, parse_line line = Raise e ->
                e = ValueError (number_token (value_of line)))
  /\ (contains "=" (comment_free line) = true ->
      number_token (value_of line) <> "" ->
      (2 <= count_char "." (number_token (value_of line)))%nat
      \/ exists_char is_digit (number_token (value_of line)) = false ->
      parse_jshc (before ++ line :: after)
      = Raise (ValueError (number_token (value_of line)))).
Proof.
  intros P. split; [apply parse_line_raises|].
  split; [apply parse_line_error|].
  intros C Hne Hbad. unfold parse_jshc in *.
  rewrite parse_lines_app, P. simpl.
  rewrite (proj2 (parse_line_raises line) (conj C (conj Hne Hbad))).
  reflexivity.
Qed.

Lemma malformed_number_aborts_parse_witness :
  parse_jshc ["a = 1"; "b = 1.2.3 m"; "c = 2"] = Raise (ValueError "1.2.3").
Proof.
  refine (proj2 (proj2 (malformed_number_aborts_parse ["a = 1"] ["c = 2"]
                          "b = 1.2.3 m" (<["a" := (1%Q, "")]> ∅) eq_refl))
            eq_refl _ _).
  - discriminate.
  - left. vm_compute. lia.
Defined.

Lemma before_first_app d pre post :
  before_first d (pre ++ String d post) = before_first d pre.
Proof.
  induction pre as [|c s IH]; simpl.
  - rewrite Ascii.eqb_refl. reflexivity.
  - destruct (Ascii.eqb c d); [reflexivity|]. rewrite IH. reflexivity.
Qed.

Lemma before_first_free d s : contains d (before_first d s) = false.
Proof.
  induction s as [|c s IH]; simpl; [reflexivity|].
  destruct (Ascii.eqb c d) eqn:E; simpl; [reflexivity|]. rewrite E. exact IH.
Qed.

Lemma contains_before_first d e s :
  contains d (before_first e s) = true -> contains d s = true.
Proof.
  induction s as [|c s IH]; simpl; [discriminate|].
  destruct (Ascii.eqb c e); simpl; [discriminate|].
  destruct (Ascii.eqb c d); simpl; [reflexivity|exact IH].
Qed.

Lemma contains_lstrip d s : contains d (lstrip s) = true -> contains d s = true.
Proof.
  induction s as [|c s IH]; simpl; [discriminate|].
  destruct (is_space c); simpl; [|tauto].
  intros H. rewrite (IH H). apply orb_true_r.
Qed.

Lemma contains_rstrip d s : contains d (rstrip s) = true -> contains d s = true.
Proof.
  induction s as [|c s IH]; simpl; [discriminate|].
  destruct (rstrip s) as [|c' r].
  - destruct (is_space c); simpl; [discriminate|].
    rewrite orb_false_r. intros ->. reflexivity.
  - simpl in *. destruct (Ascii.eqb c d); simpl; [reflexivity|exact IH].
Qed.

Lemma contains_strip d s : contains d (strip s) = true -> contains d s = true.
Proof. unfold strip. intros H. apply contains_lstrip, contains_rstrip, H. Qed.

Lemma absent_strip d s : contains d s = false -> contains d (strip s) = false.
Proof.
  intros H. destruct (contains d (strip s)) eqn:E; [|reflexivity].
  apply contains_strip in E. congruence.
Qed.

Lemma parse_line_comment_free a b :
  comment_free a = comment_free b -> parse_line a = parse_line b.
Proof.
  intros E. unfold parse_line, key_of, value_of. rewrite E. reflexivity.
Qed.

Lemma parse_line_no_equals line :
  contains "=" line = false -> parse_line line = Ok None.
Proof.
  intros H. unfold parse_line.
  assert (E : contains "=" (comment_free line) = false).
  { unfold comment_free. apply absent_strip.
    destruct (contains "=" (before_first "#" line)) eqn:C; [|reflexivity].
    apply contains_before_first in C. congruence. }
  rewrite E. reflexivity.
Qed.

Lemma comment_text_facts (pre post : string) :
  parse_line (pre ++ String "#" post) = parse_line pre
  /\ (contains "=" pre = false ->
      parse_line (pre ++ String "#" post) = Ok None)
  /\ parse_line (String "#" post) = Ok None.
Proof.
  assert (E : parse_line (pre ++ String "#" post) = parse_line pre).
  { apply parse_line_comment_free. unfold comment_free.
    rewrite before_first_app. reflexivity. }
  split; [exact E|]. split.
  - intros H. rewrite E. apply parse_line_no_equals. exact H.
  - reflexivity.
Qed.


(** X3.  What follows the first [#] of a line never changes what the line
    contributes: the line parses as its text before the [#]; in
    particular a line without [=] before the [#], such as a full-line
    comment, contributes nothing, even when the comment holds a
    binding. *)
Theorem comment_text_is_ignored (pre post : string) :
  parse_line (pre ++ String "#" post) = parse_line pre
  /\ (contains "=" pre = false ->
      parse_line (pre ++ String "#" post) = Ok None)
  /\ parse_line (String "#" post) = Ok None.
Proof. exact (comment_text_facts pre post). Qed.

Lemma comment_text_is_ignored_witness :
  parse_line "# removalEffort = 12 percent" = Ok None
  /\ parse_line "maxTreesPerPatch # = 10 count" = Ok None.
Proof.
  split.
  - exact (proj2 (proj2 (comment_text_is_ignored "" " removalEffort = 12 percent"))).
  - exact (proj1 (proj2 (comment_text_is_ignored "maxTreesPerPatch "
                           " = 10 count")) eq_refl).
Defined.

(** X4.  A later line overrides an earlier one: appending a line that
    parses to a binding gives the dictionary with that key set to the new
    value and every other key as before. *)
Theorem later_line_overrides (lines : list string) (line key : string)
    (v : Q * string) (params : gmap string (Q * string)) :
  parse_jshc lines = Ok params ->
  parse_line line = Ok (Some (key, v)) ->
  parse_jshc (lines ++ [line]) = Ok (<[key := v]> params)
  /\ getitem (<[key := v]> params) key = Ok v
  /\ (forall k, k <> key -> getitem (<[key := v]> params) k = getitem params k).
Proof.
  intros P L. split; [|split].
  - unfold parse_jshc in *. rewrite parse_lines_app, P. simpl. rewrite L.
    reflexivity.
  - unfold getitem. rewrite lookup_insert_eq. reflexivity.
  - intros k Hne. unfold getitem. rewrite lookup_insert_ne by congruence.
    reflexivity.
Qed.

Lemma later_line_overrides_witness :
  parse_jshc ["removalDuration = 10 count"; "removalDuration = 3 count"]
  = Ok (<["removalDuration" := (3%Q, "count")]>
          (<["removalDuration" := (10%Q, "count")]> ∅)).
Proof.
  exact (proj1 (later_line_overrides ["removalDuration = 10 count"]
                  "removalDuration = 3 count" "removalDuration" (3%Q, "count")
                  (<["removalDuration" := (10%Q, "count")]> ∅)
                  eq_refl eq_refl)).
Defined.

Lemma rstrip_idem s : rstrip (rstrip s) = rstrip s.
Proof.
  induction s as [|c s IH]; simpl; [reflexivity|].
  destruct (rstrip s) as [|c' r] eqn:R.
  - destruct (is_space c) eqn:E; simpl; [reflexivity|]. rewrite E. reflexivity.
  - change (rstrip (String c (String c' r))) with
      (match rstrip (String c' r) with
       | EmptyString => if is_space c then EmptyString else String c EmptyString
       | r0 => String c r0
       end).
    rewrite IH. reflexivity.
Qed.

Lemma lstrip_head s :
  lstrip s = "" \/ exists c t, lstrip s = String c t /\ is_space c = false.
Proof.
  induction s as [|c s IH]; simpl; [left; reflexivity|].
  destruct (is_space c) eqn:E; [exact IH|].
  right. exists c, s. split; [reflexivity|exact E].
Qed.

Lemma rstrip_head c t :
  is_space c = false -> exists t', rstrip (String c t) = String c t'.
Proof.
  intros E. simpl. destruct (rstrip t); [rewrite E|]; eexists; reflexivity.
Qed.

Lemma strip_idem s : strip (strip s) = strip s.
Proof.
  unfold strip.
  destruct (lstrip_head s) as [-> | (c & t & -> & E)]; [reflexivity|].
  destruct (rstrip_head c t E) as [t' R].
  assert (L : lstrip (rstrip (String c t)) = rstrip (String c t)).
  { rewrite R. simpl. rewrite E. reflexivity. }
  rewrite L. apply rstrip_idem.
Qed.

(** X5.  A recorded key is trimmed and holds neither [#] nor [=], and a
    recorded unit consists of word characters only (so a unit such as
    [m/s] is cut at the first other character). *)
Theorem recorded_key_and_unit_shape (line key : string) (num : Q)
    (unit : string) :
  parse_line line = Ok (Some (key, (num, unit))) ->
  strip key = key
  /\ contains "#" key = false
  /\ contains "=" key = false
  /\ forall_chars is_word unit = true.
Proof.
  unfold parse_line.
  destruct (contains "=" (comment_free line)); [|discriminate].
  destruct (re_match (value_of line)) as [[g1 g2]|] eqn:M; [|discriminate].
  destruct (py_float g1) as [q|e]; simpl; [|discriminate].
  intros [= <- <- <-].
  apply re_match_groups in M as (_ & _ & _ & W).
  unfold key_of. split; [apply strip_idem|].
  split; [|split; [|exact W]].
  - apply absent_strip.
    destruct (contains "#" (before_first "=" (comment_free line))) eqn:C;
      [|reflexivity].
    apply contains_before_first in C. unfold comment_free in C.
    apply contains_strip in C. rewrite before_first_free in C. discriminate C.
  - apply absent_strip. apply before_first_free.
Qed.

Lemma recorded_key_and_unit_shape_witness :
  parse_line "  speed = 3.5 m/s" = Ok (Some ("speed", ((35 # 10)%Q, "m")))
  /\ forall_chars is_word "m" = true.
Proof.
  split; [reflexivity|].
  exact (proj2 (proj2 (proj2
           (recorded_key_and_unit_shape "  speed = 3.5 m/s" "speed"
              (35 # 10)%Q "m" eq_refl)))).
Defined.

End ParserTokens.
(** * Further properties of the rule set *)

Section RunInvariants.
Import Gen Sim.

Variable m : model.
Variable u : nat -> Q.

Lemma stepCount_run ext n : stepCount (patch_at m u ext n) = Z.of_nat n.
Proof.
  induction n as [|n IH].
  - unfold patch_at. simpl. rewrite patch_init_eq. reflexivity.
  - rewrite patch_at_S, patch_step_eq. cbn [fst stepCount].
    unfold stepCount_step. rewrite IH. lia.
Qed.

(** X6.  The step counter of a patch is the number of steps taken, so the
    removal of the k-th step (counted from 1) is the removal effort
    exactly when [k < removalDuration] and zero otherwise: the
    intervention acts in steps 1 .. [removalDuration - 1] only. *)
Theorem removal_window (ext : Q) (n : nat) :
  stepCount (patch_at m u ext n) = Z.of_nat n
  /\ activeRemoval_step m (removalEffort (patch_at m u ext n))
       (stepCount_step (stepCount (patch_at m u ext n)))
     = (if (Z.of_nat (S n) <? removal_duration m)%Z
        then inject_Z (removal_effort m) else 0%Q).
Proof.
  assert (E : activeRemoval_step m (removalEffort (patch_at m u ext n))
                (stepCount_step (stepCount (patch_at m u ext n)))
              = (if (Z.of_nat (S n) <? removal_duration m)%Z
                 then inject_Z (removal_effort m) else 0%Q)).
  { unfold activeRemoval_step, stepCount_step.
    rewrite stepCount_run, removalEffort_run.
    replace (Z.of_nat n + 1)%Z with (Z.of_nat (S n)) by lia. reflexivity. }
  split; [apply stepCount_run|exact E].
Qed.

Lemma mapR_length {A B} (f : A -> rand B) l : forall k,
  length (fst (mapR f l k)) = length l.
Proof.
  induction l as [|a l IH]; intros k; [reflexivity|].
  rewrite mapR_cons. cbn [fst length]. rewrite IH. reflexivity.
Qed.

Lemma living_length p : (length (living p) <= length (NativeTree p))%nat.
Proof. unfold living, NativeTree_start. apply filter_length_le. Qed.

Lemma patch_step_count p k :
  count (NativeTree (fst (patch_step m u p k)))
  = (count (living p)
     + Z.max 0 (recruitment m (numAdults_step (living p))
                  (numTrees_step (living p)) (cover_after m p)))%Z.
Proof.
  rewrite patch_step_trees. unfold count. rewrite length_app.
  unfold survivors, recruits. rewrite mapR_length, create_length. lia.
Qed.

Lemma recruitment_room numAdults numTrees cover :
  (recruitment m numAdults numTrees cover
   <= Z.max 0 (max_trees m - numTrees))%Z.
Proof.
  rewrite recruitment_eq_spec. unfold recruitment_spec.
  destruct (Qltb cover _); simpl; [|lia].
  destruct (Z.ltb_spec 0 (Z.min numAdults (max_trees m - numTrees))); lia.
Qed.

Lemma count_step_bound p k :
  (count (NativeTree (fst (patch_step m u p k)))
   <= Z.max (count (NativeTree p)) (max_trees m))%Z.
Proof.
  rewrite patch_step_count.
  pose proof (recruitment_room (numAdults_step (living p))
                (numTrees_step (living p)) (cover_after m p)) as R.
  pose proof (living_length p) as L.
  unfold numTrees_step, count in *. lia.
Qed.

Lemma count_run_bound ext n :
  (count (NativeTree (patch_at m u ext n))
   <= Z.max (Z.max 0 (initial_trees m)) (max_trees m))%Z.
Proof.
  induction n as [|n IH].
  - unfold patch_at. simpl. rewrite patch_init_eq. cbn [fst NativeTree].
    unfold count. rewrite create_length. lia.
  - rewrite patch_at_S.
    pose proof (count_step_bound (patch_at m u ext n) (snd (run m u ext n O))).
    lia.
Qed.

(** X7.  Recruitment never fills a patch beyond its capacity: a step
    leaves at most [max(numTrees before, maxTreesPerPatch)] organisms in
    the collection, so at every step the collection holds at most
    [max(initialTreesPerPatch, maxTreesPerPatch)] organisms, and a patch
    started within its capacity stays within it. *)
Theorem capacity_is_kept (ext : Q) (n : nat) :
  (count (NativeTree (patch_at m u ext (S n)))
   <= Z.max (count (NativeTree (patch_at m u ext n))) (max_trees m))%Z
  /\ (count (NativeTree (patch_at m u ext n))
      <= Z.max (Z.max 0 (initial_trees m)) (max_trees m))%Z
  /\ ((0 <= initial_trees m <= max_trees m)%Z ->
      (numTrees_step (living (patch_at m u ext n)) <= max_trees m)%Z).
Proof.
  split; [rewrite patch_at_S; apply count_step_bound|].
  split; [apply count_run_bound|].
  intros H. pose proof (count_run_bound ext n) as B.
  pose proof (living_length (patch_at m u ext n)) as L.
  unfold numTrees_step, count in *. lia.
Qed.

End RunInvariants.

Section RunInvariantExamples.
Import Gen Sim.

Lemma capacity_is_kept_witness :
  (numTrees_step
     (living (patch_at (example_model ("baseline", false, 0%Z, 0%Z) 4 10)
                draws_half 0 6))
   <= max_trees (example_model ("baseline", false, 0%Z, 0%Z) 4 10))%Z.
Proof.
  apply (capacity_is_kept (example_model ("baseline", false, 0%Z, 0%Z) 4 10)
           draws_half 0%Q 6%nat).
  simpl. lia.
Defined.

End RunInvariantExamples.

Section StageInvariant.
Import Gen Sim.

Variable m : model.
Variable u : nat -> Q.

Lemma Qgeb_ge a b : Qgeb a b = true <-> (b <= a)%Q.
Proof. unfold Qgeb. apply Qle_bool_iff. Qed.

Lemma Qgeb_lt a b : Qgeb a b = false <-> (a < b)%Q.
Proof.
  unfold Qgeb. split; intros H.
  - apply Qnot_le_lt. intros C. apply Qle_bool_iff in C. congruence.
  - destruct (Qle_bool b a) eqn:E; [|reflexivity].
    apply Qle_bool_iff in E. exfalso. exact (Qlt_not_le _ _ H E).
Qed.

Lemma inject_Z_succ_le (a b : Z) :
  (a < b)%Z -> (inject_Z a + 1 <= inject_Z b)%Q.
Proof.
  intros H. change 1%Q with (inject_Z 1). rewrite <- inject_Z_plus.
  rewrite <- Zle_Qle. lia.
Qed.

Ltac decide_q :=
  repeat match goal with
         | H : Qgeb _ _ = true |- _ => apply Qgeb_ge in H
         | H : Qgeb _ _ = false |- _ => apply Qgeb_lt in H
         end.

(** One more year keeps the state of a surviving organism in line with
    its age. *)
Lemma state_step_matches (a : Q) :
  (seedling_to_juvenile m < juvenile_to_adult m)%Z ->
  state_step m (state_init m a) (age_step a) true = state_init m (age_step a).
Proof.
  intros H. apply inject_Z_succ_le in H.
  unfold state_init, state_step, age_step.
  destruct (Qgeb a (inject_Z (juvenile_to_adult m))) eqn:A1;
    destruct (Qgeb a (inject_Z (seedling_to_juvenile m))) eqn:A2;
    destruct (Qgeb (a + 1) (inject_Z (juvenile_to_adult m))) eqn:B1;
    destruct (Qgeb (a + 1) (inject_Z (seedling_to_juvenile m))) eqn:B2;
    simpl; try reflexivity; exfalso; decide_q; lra.
Qed.

Lemma created_match n : forall sev id k o,
  In o (fst (create m u n sev id k)) -> state o = state_init m (age o).
Proof.
  intros sev id k o Hin.
  apply create_from_init in Hin as (id' & k' & ->). reflexivity.
Qed.

Lemma stage_matches_step p k :
  (seedling_to_juvenile m < juvenile_to_adult m)%Z ->
  stage_matches_age m (NativeTree p) ->
  stage_matches_age m (NativeTree (fst (patch_step m u p k))).
Proof.
  intros Hlt J o Hin Ha. rewrite patch_step_trees in Hin.
  apply in_app_or in Hin as [Hs | Hr].
  - unfold survivors in Hs.
    apply mapR_pointwise in Hs as (o0 & j & Ho & ->).
    apply living_alive in Ho as [Ho Hal].
    specialize (J o0 Ho Hal).
    unfold organism_step, sample_uniform, mbind, rand_bind, mret, rand_ret in *.
    cbn [fst state age alive] in *.
    rewrite Ha, J. apply state_step_matches. exact Hlt.
  - unfold recruits in Hr. eapply created_match. exact Hr.
Qed.

Lemma stage_matches_run ext n :
  (seedling_to_juvenile m < juvenile_to_adult m)%Z ->
  stage_matches_age m (NativeTree (patch_at m u ext n)).
Proof.
  intros Hlt. induction n as [|n IH].
  - unfold patch_at. simpl. rewrite patch_init_eq. cbn [fst NativeTree].
    intros o Hin _. eapply created_match. exact Hin.
  - rewrite patch_at_S. apply stage_matches_step; assumption.
Qed.

(** X8.  When [seedlingToJuvenileAge < juvenileToAdultAge], the life
    stage of every organism of a living population is the stage of its
    age: Adult from [juvenileToAdultAge] on, Juvenile from
    [seedlingToJuvenileAge] on, Seedling below. *)
Theorem living_stage_matches_age (ext : Q) (n : nat) (o : organism) :
  (seedling_to_juvenile m < juvenile_to_adult m)%Z ->
  In o (living (patch_at m u ext n)) ->
  state o = state_init m (age o)
  /\ (state o = Adult <-> (inject_Z (juvenile_to_adult m) <= age o)%Q)
  /\ (state o = Seedling <-> (age o < inject_Z (seedling_to_juvenile m))%Q).
Proof.
  intros Hlt Hin. apply living_alive in Hin as [Hin Ha].
  pose proof (stage_matches_run ext n Hlt o Hin Ha) as E.
  split; [exact E|]. rewrite E. unfold state_init.
  apply inject_Z_succ_le in Hlt.
  destruct (Qgeb (age o) (inject_Z (juvenile_to_adult m))) eqn:A1;
    destruct (Qgeb (age o) (inject_Z (seedling_to_juvenile m))) eqn:A2;
    decide_q; split; split; intros H; try discriminate; try reflexivity;
    try assumption; exfalso; lra.
Qed.

End StageInvariant.

Section StageInvariantExamples.
Import Gen Sim.

Lemma living_stage_matches_age_witness :
  let m := example_model ("baseline", false, 0%Z, 0%Z) 4 10 in
  exists o, head (living (patch_at m draws_half 0 3)) = Some o
            /\ state o = state_init m (age o).
Proof.
  intros m.
  destruct (living (patch_at m draws_half 0 3)) as [|o os] eqn:E;
    [vm_compute in E; discriminate E|].
  exists o. split; [reflexivity|].
  apply (living_stage_matches_age m draws_half 0%Q 3%nat o); [simpl; lia|].
  rewrite E. left. reflexivity.
Defined.

End StageInvariantExamples.

Section CoverGrowth.
Import Gen Sim.

Variable m : model.
Variable u : nat -> Q.

Lemma density_in_unit (numTrees : Z) :
  (0 < max_trees m)%Z -> (0 <= numTrees <= max_trees m)%Z ->
  (0 <= inject_Z numTrees / inject_Z (max_trees m))%Q
  /\ (inject_Z numTrees / inject_Z (max_trees m) <= 1)%Q.
Proof.
  intros Hm [H0 H1].
  assert (Pm : (0 < inject_Z (max_trees m))%Q).
  { change 0%Q with (inject_Z 0). rewrite <- Zlt_Qlt. exact Hm. }
  split.
  - apply Qle_shift_div_l; [exact Pm|]. rewrite Qmult_0_l.
    change 0%Q with (inject_Z 0). rewrite <- Zle_Qle. exact H0.
  - apply Qle_shift_div_r; [exact Pm|]. rewrite Qmult_1_l.
    rewrite <- Zle_Qle. exact H1.
Qed.

Lemma treeSuppression_in_unit (numTrees : Z) :
  (0 <= tree_suppression m)%Q -> (tree_suppression m <= 1)%Q ->
  (0 < max_trees m)%Z -> (0 <= numTrees <= max_trees m)%Z ->
  (0 <= treeSuppression_step m numTrees)%Q
  /\ (treeSuppression_step m numTrees <= 1)%Q.
Proof.
  intros T0 T1 Hm Hn. unfold treeSuppression_step.
  destruct (numTrees >? 0)%Z; [|split; discriminate].
  destruct (density_in_unit numTrees Hm Hn) as [D0 D1].
  set (d := (inject_Z numTrees / inject_Z (max_trees m))%Q) in *.
  split.
  - apply Qmult_le_0_compat; assumption.
  - apply Qle_trans with (1 * d)%Q.
    + apply Qmult_le_compat_r; assumption.
    + rewrite Qmult_1_l. exact D1.
Qed.

Lemma cover_update_grows (stepCount numTrees : Z) (prior : Q) :
  (0 <= tree_suppression m)%Q -> (tree_suppression m <= 1)%Q ->
  (0 <= base_growth m)%Z ->
  (0 <= post_fire_bonus_expr m stepCount)%Q ->
  (0 < max_trees m)%Z -> (0 <= numTrees <= max_trees m)%Z ->
  (0 <= prior)%Q -> (prior <= 100)%Q ->
  (prior <= cover_update m 0 stepCount numTrees prior)%Q.
Proof.
  intros T0 T1 B P Hm Hn C0 C1.
  destruct (treeSuppression_in_unit numTrees T0 T1 Hm Hn) as [S0 S1].
  unfold cover_update, rawCover_step, netGrowth_step, growthRate_step,
    postFireBonus_step.
  set (s := treeSuppression_step m numTrees) in *.
  set (b := post_fire_bonus_expr m stepCount) in *.
  assert (A : activeRemoval_step m 0 stepCount = 0%Q).
  { unfold activeRemoval_step. destruct (stepCount <? removal_duration m)%Z;
      reflexivity. }
  rewrite A.
  assert (G : (0 <= (inject_Z (base_growth m) + b) * (1 - s))%Q).
  { apply Qmult_le_0_compat.
    - assert (0 <= inject_Z (base_growth m))%Q by (apply inject_Z_nonneg; exact B).
      lra.
    - lra. }
  set (g := ((inject_Z (base_growth m) + b) * (1 - s))%Q) in *.
  assert (N : (0 <= g * (1 - prior / 100))%Q).
  { apply Qmult_le_0_compat; [exact G|].
    assert (prior / 100 <= 1)%Q.
    { apply Qle_shift_div_r; [reflexivity|]. lra. }
    lra. }
  set (n := (g * (1 - prior / 100))%Q) in *.
  unfold invasiveCover_step.
  destruct (Qltb (prior + (n - 0)) 0) eqn:L.
  - apply Qltb_lt in L. lra.
  - destruct (Qgtb (prior + (n - 0)) 100) eqn:H; [exact C1|]. lra.
Qed.

Lemma cover_step_le (ext : Q) (n : nat) :
  removal_effort m = 0%Z ->
  (0 <= tree_suppression m)%Q -> (tree_suppression m <= 1)%Q ->
  (0 <= base_growth m)%Z ->
  (forall stepCount, (0 <= post_fire_bonus_expr m stepCount)%Q) ->
  (0 < max_trees m)%Z -> (0 <= initial_trees m <= max_trees m)%Z ->
  (0 <= invasiveCover (patch_at m u ext O))%Q ->
  (invasiveCover (patch_at m u ext O) <= 100)%Q ->
  (invasiveCover (patch_at m u ext n)
   <= invasiveCover (patch_at m u ext (S n)))%Q.
Proof.
  intros R T0 T1 B P Hm Hi C0 C1.
  assert (Hc : (0 <= invasiveCover (patch_at m u ext n))%Q
               /\ (invasiveCover (patch_at m u ext n) <= 100)%Q).
  { destruct n as [|n]; [split; assumption|].
    rewrite invasiveCover_S. unfold cover_after, cover_update.
    apply invasiveCover_step_range. }
  destruct Hc as [H0 H1].
  rewrite invasiveCover_S. unfold cover_after.
  rewrite removalEffort_run, R.
  apply cover_update_grows; try assumption; [apply P|].
  pose proof (count_run_bound m u ext n) as Bn.
  pose proof (living_length (patch_at m u ext n)) as L.
  unfold numTrees_step, count in *. lia.
Qed.


(** X9.  Without removal the invasive cover never decreases: when the
    removal effort is 0, the suppression coefficient lies in [0, 1], the
    growth constants are not negative, the patch starts within its
    capacity and the initial cover lies in [0, 100], the cover of every
    step is at least the cover of the step before. *)
Theorem cover_never_decreases_without_removal (ext : Q) (n : nat) :
  removal_effort m = 0%Z ->
  (0 <= tree_suppression m)%Q -> (tree_suppression m <= 1)%Q ->
  (0 <= base_growth m)%Z ->
  (forall stepCount, (0 <= post_fire_bonus_expr m stepCount)%Q) ->
  (0 < max_trees m)%Z -> (0 <= initial_trees m <= max_trees m)%Z ->
  (0 <= invasiveCover (patch_at m u ext O))%Q ->
  (invasiveCover (patch_at m u ext O) <= 100)%Q ->
  (invasiveCover (patch_at m u ext n)
   <= invasiveCover (patch_at m u ext (S n)))%Q.
Proof. exact (cover_step_le ext n). Qed.

Lemma cover_chain_le (ext : Q) (n d : nat) :
  removal_effort m = 0%Z ->
  (0 <= tree_suppression m)%Q -> (tree_suppression m <= 1)%Q ->
  (0 <= base_growth m)%Z ->
  (forall stepCount, (0 <= post_fire_bonus_expr m stepCount)%Q) ->
  (0 < max_trees m)%Z -> (0 <= initial_trees m <= max_trees m)%Z ->
  (0 <= invasiveCover (patch_at m u ext O))%Q ->
  (invasiveCover (patch_at m u ext O) <= 100)%Q ->
  (invasiveCover (patch_at m u ext n)
   <= invasiveCover (patch_at m u ext (n + d)))%Q.
Proof.
  intros R T0 T1 B P Hm Hi C0 C1. induction d as [|d IH].
  - rewrite Nat.add_0_r. apply Qle_refl.
  - rewrite Nat.add_succ_r. eapply Qle_trans; [exact IH|].
    apply cover_step_le; assumption.
Qed.

(** X10.  Without removal, establishment once lost is lost for good:
    under the conditions of X9, when the cover of some step has reached
    the establishment threshold, that step and every later step create no
    organism. *)
Theorem establishment_is_lost_for_good (ext : Q) (n t : nat) :
  removal_effort m = 0%Z ->
  (0 <= tree_suppression m)%Q -> (tree_suppression m <= 1)%Q ->
  (0 <= base_growth m)%Z ->
  (forall stepCount, (0 <= post_fire_bonus_expr m stepCount)%Q) ->
  (0 < max_trees m)%Z -> (0 <= initial_trees m <= max_trees m)%Z ->
  (0 <= invasiveCover (patch_at m u ext O))%Q ->
  (invasiveCover (patch_at m u ext O) <= 100)%Q ->
  (inject_Z (establishment_threshold m)
   <= invasiveCover (patch_at m u ext (S n)))%Q ->
  (n <= t)%nat ->
  newSeedlings (exports m (patch_at m u ext t)) = 0%Z
  /\ recruits m u (patch_at m u ext t) (snd (run m u ext t O)) = [].
Proof.
  intros R T0 T1 B P Hm Hi C0 C1 Hthr Hle.
  assert (Hc : (inject_Z (establishment_threshold m)
                <= cover_after m (patch_at m u ext t))%Q).
  { rewrite <- invasiveCover_S. eapply Qle_trans; [exact Hthr|].
    replace (S t) with (S n + (t - n))%nat by lia.
    apply cover_chain_le; assumption. }
  assert (Z0 : recruitment m (numAdults_step (living (patch_at m u ext t)))
                 (numTrees_step (living (patch_at m u ext t)))
                 (cover_after m (patch_at m u ext t)) = 0%Z).
  { rewrite recruitment_eq_spec. unfold recruitment_spec.
    apply Qltb_ge in Hc. rewrite Hc. reflexivity. }
  split; [exact Z0|].
  unfold recruits. rewrite Z0. reflexivity.
Qed.

End CoverGrowth.

Section CoverGrowthExamples.
Import Gen Sim.

Lemma cover_never_decreases_without_removal_witness :
  (invasiveCover (patch_at (example_model ("fire_only", true, 0%Z, 0%Z) 4 10)
                    draws_half 0.95 4)
   <= invasiveCover (patch_at (example_model ("fire_only", true, 0%Z, 0%Z) 4 10)
                       draws_half 0.95 5))%Q.
Proof.
  apply (cover_never_decreases_without_removal
           (example_model ("fire_only", true, 0%Z, 0%Z) 4 10)
           draws_half 0.95%Q 4%nat).
  - reflexivity.
  - discriminate.
  - discriminate.
  - discriminate.
  - intros stepCount. simpl.
    destruct (stepCount <? 5)%Z; discriminate.
  - reflexivity.
  - simpl. lia.
  - vm_compute. discriminate.
  - vm_compute. discriminate.
Defined.

Lemma establishment_is_lost_for_good_witness :
  newSeedlings
    (exports (example_model ("fire_only", true, 0%Z, 0%Z) 4 10)
       (patch_at (example_model ("fire_only", true, 0%Z, 0%Z) 4 10)
          draws_half 0.95 3)) = 0%Z.
Proof.
  apply (establishment_is_lost_for_good
           (example_model ("fire_only", true, 0%Z, 0%Z) 4 10)
           draws_half 0.95%Q 0%nat 3%nat).
  - reflexivity.
  - discriminate.
  - discriminate.
  - discriminate.
  - intros stepCount. simpl.
    destruct (stepCount <? 5)%Z; discriminate.
  - reflexivity.
  - simpl. lia.
  - vm_compute. discriminate.
  - vm_compute. discriminate.
  - vm_compute. discriminate.
  - lia.
Defined.

End CoverGrowthExamples.

Section Extinction.
Import Gen Sim.

Variable m : model.
Variable u : nat -> Q.

Lemma recruitment_without_adults numTrees cover :
  recruitment m 0 numTrees cover = 0%Z.
Proof.
  rewrite recruitment_eq_spec. unfold recruitment_spec.
  destruct (Qltb cover _); simpl; [|reflexivity].
  destruct (Z.ltb_spec 0 (Z.min 0 (max_trees m - numTrees))); [lia|reflexivity].
Qed.

Lemma extinct_step p k :
  living p = [] -> NativeTree (fst (patch_step m u p k)) = [].
Proof.
  intros E. rewrite patch_step_trees. unfold survivors, recruits.
  rewrite E. simpl. unfold numAdults_step, count_state. simpl.
  rewrite recruitment_without_adults. reflexivity.
Qed.

(** X11.  Extinction is final: when no organism of a patch is alive at
    the end of a step, the collection is empty at every later step, since
    recruitment needs a living Adult. *)
Theorem extinction_is_final (ext : Q) (n t : nat) :
  living (patch_at m u ext n) = [] ->
  (n < t)%nat ->
  NativeTree (patch_at m u ext t) = []
  /\ newSeedlings (exports m (patch_at m u ext t)) = 0%Z.
Proof.
  intros E Hlt.
  assert (H : forall d, NativeTree (patch_at m u ext (S n + d)) = []).
  { induction d as [|d IH].
    - rewrite Nat.add_0_r, patch_at_S. apply extinct_step. exact E.
    - rewrite Nat.add_succ_r, patch_at_S. apply extinct_step.
      unfold living. rewrite IH. reflexivity. }
  specialize (H (t - S n)%nat). replace (S n + (t - S n))%nat with t in H by lia.
  split; [exact H|].
  unfold exports. cbn [newSeedlings]. rewrite H. simpl.
  unfold numAdults_step, count_state. simpl.
  apply recruitment_without_adults.
Qed.

End Extinction.

Section ExtinctionExamples.
Import Gen Sim.

(** A population that dies out.  In the [fire_only] scenario, a patch of
    severity 0.2 starts with four living Adults; in the first step each
    of them rolls 1 against the Adult mortality 2 and dies, and the four
    organisms created in that step roll 1 against the fire mortality 30 of
    a Seedling and are dead at creation.  From then on the patch is
    empty. *)
Lemma extinction_is_final_witness :
  let m := example_model ("fire_only", true, 0%Z, 0%Z) 4 10 in
  let u := draws_half_then_hundredth in
  length (living (patch_at m u (2 # 10) 0)) = 4%nat
  /\ length (NativeTree (patch_at m u (2 # 10) 1)) = 8%nat
  /\ living (patch_at m u (2 # 10) 1) = []
  /\ NativeTree (patch_at m u (2 # 10) 4) = []
  /\ newSeedlings (exports m (patch_at m u (2 # 10) 4)) = 0%Z.
Proof.
  intros m u.
  assert (E : living (patch_at m u (2 # 10) 1) = [])
    by (vm_compute; reflexivity).
  split; [vm_compute; reflexivity|].
  split; [vm_compute; reflexivity|].
  split; [exact E|].
  apply (extinction_is_final m u (2 # 10)%Q 1%nat 4%nat E). lia.
Defined.

End ExtinctionExamples.

(** * Further properties of the aggregation *)

Section AggregationEdges.
Import Agg.

Variable dir : results_dir.

Lemma visit_all_none_present names :
  (forall n, In n names -> dir !! result_file n = None) ->
  rows_spec dir names = [] /\ first_present dir names = None.
Proof.
  induction names as [|n rest IH]; intros H; [split; reflexivity|].
  unfold rows_spec, first_present in *. cbn [flat_map omap list_omap].
  rewrite (H n (or_introl eq_refl)). simpl.
  apply IH. intros n' Hn. apply H. right. exact Hn.
Qed.

(** X12.  When no scenario file exists, [combine_results] returns without
    error, with no row and no header, one warning per scenario in table
    order, and writes no combined file. *)
Theorem nothing_to_combine :
  (forall n, In n scenario_names -> dir !! result_file n = None) ->
  combine_results dir
  = Ok {| rows_of := []; header_of := None;
          warned := map (fun n => "Warning: " +:+ result_file n +:+ " not found")
                      scenario_names;
          written := None |}.
Proof.
  intros H.
  destruct (visit_all_none_present scenario_names H) as [R F].
  assert (W : warnings_spec dir scenario_names
              = map (fun n => "Warning: " +:+ result_file n +:+ " not found")
                  scenario_names).
  { clear R F. unfold warnings_spec. revert H. generalize scenario_names.
    induction l as [|n rest IH]; intros H; [reflexivity|].
    cbn [flat_map map]. rewrite (H n (or_introl eq_refl)).
    cbn [app]. rewrite IH; [reflexivity|]. intros n' Hn. apply H. right. exact Hn. }
  unfold combine_results, combine_over, collect.
  rewrite visit_all_spec by (intros _ f Hf; congruence).
  cbn [mbind res_bind all_rows header warnings app].
  rewrite R, W. unfold header_spec. rewrite F. reflexivity.
Qed.

Lemma visit_all_empty_first names : forall a,
  header a = None ->
  first_present dir names = Some [] ->
  visit_all dir a names = Raise TypeError.
Proof.
  induction names as [|n rest IH]; intros a Hh F; [discriminate F|].
  cbn [visit_all]. unfold visit at 1.
  unfold first_present in *. cbn [omap list_omap] in F.
  destruct (dir !! result_file n) as [f|].
  - simpl in F. injection F as ->. rewrite Hh. reflexivity.
  - simpl. apply IH; [exact Hh|exact F].
Qed.

(** X13.  When the first scenario file that exists is empty (it has no
    header record), [combine_results] ends with [TypeError] and nothing is
    combined, whatever the other files hold. *)
Theorem empty_first_file_aborts :
  first_present dir scenario_names = Some [] ->
  combine_results dir = Raise TypeError.
Proof.
  intros F. unfold combine_results, combine_over, collect.
  rewrite (visit_all_empty_first scenario_names
             {| all_rows := []; header := None; warnings := [] |} eq_refl F).
  reflexivity.
Qed.

Lemma surplus_key_raises (h : list string) (r : row) (c : cell) :
  r !! None = Some c ->
  dict_to_list h r = Raise (ValueError "dict contains fields not in fieldnames").
Proof.
  intros L. unfold dict_to_list.
  destruct (forallb (key_ok h) (map fst (map_to_list r))) eqn:F; [|reflexivity].
  exfalso. rewrite forallb_forall in F.
  assert (Hin : In None (map fst (map_to_list r))).
  { apply in_map_iff. exists (None, c). split; [reflexivity|].
    apply list_elem_of_In. apply elem_of_map_to_list. exact L. }
  specialize (F None Hin). discriminate F.
Qed.

Lemma writerows_raises (h : list string) (rs : list row) (r : row) (c : cell) :
  In r rs -> r !! None = Some c ->
  writerows h rs = Raise (ValueError "dict contains fields not in fieldnames").
Proof.
  induction rs as [|r0 rest IH]; [intros []|].
  intros [-> | Hin] L; simpl.
  - rewrite (surplus_key_raises h r c L). reflexivity.
  - unfold dict_to_list.
    destruct (forallb (key_ok h) (map fst (map_to_list r0))); [|reflexivity].
    simpl. rewrite (IH Hin L). reflexivity.
Qed.

Lemma first_present_some names n f :
  In n names -> dir !! result_file n = Some f ->
  exists g, first_present dir names = Some g.
Proof.
  induction names as [|n0 rest IH]; [intros []|].
  unfold first_present in *. cbn [omap list_omap].
  intros [-> | Hin] L.
  - rewrite L. eexists. reflexivity.
  - destruct (dir !! result_file n0); [eexists; reflexivity|].
    apply IH; assumption.
Qed.

(** X14.  A record with more fields than its header makes the write
    fail: when some scenario file that exists holds such a record (and the
    first file that exists has a header), [combine_results] ends with the
    [ValueError] of [DictWriter], the surplus being stored under a key
    that is no field name. *)
Theorem surplus_fields_abort_write (n : string) (names : list string)
    (records : list (list string)) (record : list string) :
  (forall f, first_present dir scenario_names = Some f -> f <> []) ->
  In n scenario_names ->
  dir !! result_file n = Some (names :: records) ->
  In record records ->
  (length names < length record)%nat ->
  combine_results dir
  = Raise (ValueError "dict contains fields not in fieldnames").
Proof.
  intros Hhdr Hn L Hrec Hlen.
  set (r := tag n (to_dict names record)).
  assert (Hnone : exists c, r !! None = Some c).
  { unfold r, tag, to_dict.
    destruct (Nat.ltb_spec (length names) (length record)) as [_|C]; [|lia].
    eexists. rewrite lookup_insert_ne by discriminate.
    apply lookup_insert_eq. }
  destruct Hnone as [c Hc].
  assert (Hin : In r (rows_spec dir scenario_names)).
  { eapply rows_spec_tagged; [exact Hn|exact L|].
    unfold dict_rows. apply in_map. apply filter_In. split; [exact Hrec|].
    destruct record; [simpl in Hlen; lia|reflexivity]. }
  unfold combine_results, combine_over, collect.
  rewrite visit_all_spec by (intros _; exact Hhdr).
  cbn [mbind res_bind all_rows header warnings app].
  destruct (rows_spec dir scenario_names) as [|r1 rs] eqn:R; [destruct Hin|].
  destruct (first_present_some scenario_names n _ Hn L) as [g Hg].
  unfold header_spec. rewrite Hg.
  destruct g as [|ns recs]; [exfalso; exact (Hhdr _ Hg eq_refl)|].
  cbn [mbind option_bind fieldnames head].
  rewrite (writerows_raises _ (r1 :: rs) r c Hin Hc). reflexivity.
Qed.

End AggregationEdges.

Section AggregationEdgeExamples.
Import Agg.

Lemma nothing_to_combine_witness :
  exists c, combine_results ∅ = Ok c /\ rows_of c = [] /\ written c = None
            /\ length (warned c) = 5%nat.
Proof.
  eexists. split.
  - apply (nothing_to_combine ∅). intros n _. apply lookup_empty.
  - repeat split; reflexivity.
Defined.

Lemma empty_first_file_aborts_witness :
  combine_results
    ({[ result_file "fire_only" := [] ]} ∪ example_results)
  = Raise TypeError.
Proof.
  apply empty_first_file_aborts. vm_compute. reflexivity.
Defined.

Lemma surplus_fields_abort_write_witness :
  combine_results
    {[ result_file "baseline" := [ ["step"; "numAlive"]; ["0"; "4"; "9"] ] ]}
  = Raise (ValueError "dict contains fields not in fieldnames").
Proof.
  apply (surplus_fields_abort_write _ "baseline" ["step"; "numAlive"]
           [["0"; "4"; "9"]] ["0"; "4"; "9"]).
  - intros f H. vm_compute in H. injection H as <-. discriminate.
  - left. reflexivity.
  - vm_compute. reflexivity.
  - left. reflexivity.
  - simpl. lia.
Defined.

End AggregationEdgeExamples.

(** * Properties of the orchestrator *)

Section OrchestratorFacts.
Import Jshc Gen Agg Orch.

Variable engine : model -> results_dir -> bool * results_dir.

Lemma num_raise params key e :
  num params key = Raise e -> e = KeyError key /\ params !! key = None.
Proof.
  unfold num, getitem. destruct (params !! key); simpl; [discriminate|].
  intros [= <-]. split; reflexivity.
Qed.

Lemma int_raise params key e :
  int params key = Raise e ->
  (e = KeyError key /\ params !! key = None) \/ e = OverflowError.
Proof.
  unfold int. destruct (num params key) as [v|e'] eqn:E; simpl.
  - destruct (is_inf v); [|discriminate]. intros [= <-]. right. reflexivity.
  - intros [= <-]. left. eapply num_raise. exact E.
Qed.

Lemma int_ok_getitem params key z :
  int params key = Ok z -> exists v, getitem params key = Ok v.
Proof.
  unfold int, num. destruct (getitem params key) as [v|e]; simpl;
    [eauto|discriminate].
Qed.

Ltac failing_lookup H :=
  match type of H with
  | mbind _ ?r = Raise _ =>
      let E := fresh "E" in
      destruct r eqn:E; simpl in H;
      [|injection H as <-;
        first [apply int_raise in E as [E| ->]; [left|right; reflexivity]
              |apply num_raise in E; left];
        eauto]
  end.

Lemma extract_raise params e :
  extract params = Raise e ->
  (exists key, e = KeyError key /\ params !! key = None) \/ e = OverflowError.
Proof.
  unfold extract. intros H.
  do 33 (try failing_lookup H).
  discriminate H.
Qed.

Lemma scenario_model_ok params c s :
  extract params = Ok c -> scenario_model s params = Ok (model_of c s).
Proof.
  intros X. destruct s as [[[name hf] sb] re].
  unfold scenario_model, generate_model. rewrite X. reflexivity.
Qed.

Lemma scenario_model_raise params e s :
  extract params = Raise e -> scenario_model s params = Raise e.
Proof.
  intros X. destruct s as [[[name hf] sb] re].
  unfold scenario_model, generate_model. rewrite X. reflexivity.
Qed.

Lemma model_of_name c s : scenario_name (model_of c s) = name_of s.
Proof. destruct s as [[[name hf] sb] re]. reflexivity. Qed.

Lemma run_all_ok params c ss : forall w k,
  extract params = Ok c ->
  run_all engine ss params w k
  = ({| results := snd (engine_outcomes engine (map (model_of c) ss) (results w));
        model_files := (model_files w ++ map model_path (map name_of ss))%list;
        engine_runs := (engine_runs w ++ map name_of ss)%list |},
     Ok (k + count_true
               (fst (engine_outcomes engine (map (model_of c) ss) (results w))))%nat).
Proof.
  induction ss as [|s rest IH]; intros w k X.
  - simpl. rewrite !app_nil_r, Nat.add_0_r. destruct w. reflexivity.
  - cbn [run_all map engine_outcomes]. unfold run_scenario.
    rewrite (scenario_model_ok _ _ s X), model_of_name.
    destruct (engine (model_of c s) (results w)) as [ok d1].
    rewrite (IH _ _ X). cbn [results model_files engine_runs].
    destruct (engine_outcomes engine (map (model_of c) rest) d1) as [oks d2].
    cbn [fst snd]. rewrite <- !app_assoc. cbn [app].
    f_equal. f_equal. unfold count_true. destruct ok; simpl; lia.
Qed.

Lemma printed_parameters_ok params c :
  extract params = Ok c -> printed_parameters params = Ok tt.
Proof.
  intros X. apply extract_inv in X. unfold extracted in X.
  decompose [and] X.
  unfold printed_parameters.
  repeat match goal with
         | H : int params ?k = Ok _ |- context [getitem params ?k] =>
             let v := fresh "v" in
             let E := fresh "E" in
             destruct (int_ok_getitem _ _ _ H) as [v E]; rewrite E; clear E
         end.
  reflexivity.
Qed.

Lemma printed_parameters_raise params e :
  printed_parameters params = Raise e ->
  exists key, e = KeyError key /\ params !! key = None.
Proof.
  unfold printed_parameters, getitem.
  repeat match goal with
         | |- context [params !! ?k] =>
             let L := fresh "L" in destruct (params !! k) eqn:L
         end; simpl; intros H; try discriminate H; injection H as <-; eauto.
Qed.

Lemma count_true_bound l : (count_true l <= length l)%nat.
Proof. unfold count_true. apply filter_length_le. Qed.

Lemma engine_outcomes_length ms : forall d,
  length (fst (engine_outcomes engine ms d)) = length ms.
Proof.
  induction ms as [|m0 rest IH]; intros d; [reflexivity|].
  cbn [engine_outcomes]. destruct (engine m0 d) as [ok d1].
  specialize (IH d1). destruct (engine_outcomes engine rest d1) as [oks d2].
  simpl in *. rewrite IH. reflexivity.
Qed.

Lemma combine_results_rows d c :
  combine_results d = Ok c -> rows_of c = rows_spec d scenario_names.
Proof.
  unfold combine_results, combine_over, collect.
  destruct (first_present d scenario_names) as [[|ns recs]|] eqn:F.
  - rewrite (visit_all_empty_first d scenario_names
               {| all_rows := []; header := None; warnings := [] |} eq_refl F).
    discriminate.
  - rewrite visit_all_spec by (intros _ f Hf; congruence).
    cbn [mbind res_bind all_rows header warnings app].
    destruct (rows_spec d scenario_names) as [|r rs]; [intros [= <-]; reflexivity|].
    destruct (header_spec d scenario_names) as [h|]; [|discriminate].
    destruct (writerows h (r :: rs)); [|discriminate].
    intros [= <-]. reflexivity.
  - rewrite visit_all_spec by (intros _ f Hf; congruence).
    cbn [mbind res_bind all_rows header warnings app].
    destruct (rows_spec d scenario_names) as [|r rs]; [intros [= <-]; reflexivity|].
    destruct (header_spec d scenario_names) as [h|]; [|discriminate].
    destruct (writerows h (r :: rs)); [|discriminate].
    intros [= <-]. reflexivity.
Qed.

(** X15.  Parameters that [generate_model] cannot extract stop [main]
    before anything is run: no model file is written, the engine is run
    for no scenario and no file of the results directory changes.  What
    [main] raises is the [KeyError] of a key that the file lacks, or the
    [OverflowError] of [int] on an infinite value. *)
Theorem unusable_parameters_stop_before_engine (config : list string)
    (params : gmap string (Q * string)) (e : exn) (w : world) :
  parse_jshc config = Ok params ->
  extract params = Raise e ->
  fst (main engine config w) = w
  /\ exists e',
       snd (main engine config w) = Raise e'
       /\ ((exists key, e' = KeyError key /\ params !! key = None)
           \/ e' = OverflowError).
Proof.
  intros P X. unfold main. rewrite P.
  destruct (printed_parameters params) as [[]|e'] eqn:Pr.
  - cbn [run_all SCENARIOS]. unfold run_scenario.
    rewrite (scenario_model_raise _ _ _ X).
    split; [reflexivity|]. exists e. split; [reflexivity|].
    exact (extract_raise _ _ X).
  - split; [reflexivity|]. exists e'. split; [reflexivity|].
    left. exact (printed_parameters_raise _ _ Pr).
Qed.

(** X16.  With a complete parameter file, [main] writes the model and runs
    the engine for all five scenarios in table order whatever the return
    codes are, a failure does not stop the loop, and the success count is
    the number of return codes 0, at most 5. *)
Theorem every_scenario_is_run (config : list string)
    (params : gmap string (Q * string)) (c : consts) (w : world) :
  parse_jshc config = Ok params ->
  extract params = Ok c ->
  engine_runs (fst (main engine config w))
  = (engine_runs w ++ scenario_names)%list
  /\ model_files (fst (main engine config w))
     = (model_files w ++ map model_path scenario_names)%list
  /\ (forall k r,
        snd (main engine config w) = Ok (k, r) ->
        k = count_true
              (fst (engine_outcomes engine (map (model_of c) SCENARIOS)
                      (results w)))
        /\ (k <= 5)%nat).
Proof.
  intros P X. unfold main.
  rewrite P, (printed_parameters_ok _ _ X), (run_all_ok _ _ _ _ _ X).
  cbn [Nat.add].
  pose proof (count_true_bound
                (fst (engine_outcomes engine (map (model_of c) SCENARIOS)
                        (results w)))) as B.
  rewrite engine_outcomes_length, length_map in B.
  change (length SCENARIOS) with 5%nat in B.
  change (map name_of SCENARIOS) with scenario_names.
  set (n := count_true _) in *.
  destruct (0 <? n)%nat.
  - cbn [results model_files engine_runs].
    destruct (combine_results _) as [cb|e]; cbn [fst snd engine_runs model_files].
    + split; [reflexivity|]. split; [reflexivity|].
      intros k r [= <- _]. split; [reflexivity|exact B].
    + split; [reflexivity|]. split; [reflexivity|]. intros k r H. discriminate H.
  - cbn [fst snd engine_runs model_files].
    split; [reflexivity|]. split; [reflexivity|].
    intros k r [= <- _]. split; [reflexivity|exact B].
Qed.

(** X17.  [combine_results] is called exactly when some scenario
    succeeded, and then on the directory as the runs left it: the combined
    rows are those of every scenario file that exists, also of a scenario
    whose run failed; when every run fails nothing is combined, whatever
    files exist. *)
Theorem aggregation_ignores_failures (config : list string)
    (params : gmap string (Q * string)) (c : consts) (w : world) :
  parse_jshc config = Ok params ->
  extract params = Ok c ->
  let out := engine_outcomes engine (map (model_of c) SCENARIOS) (results w) in
  (count_true (fst out) = O ->
   snd (main engine config w) = Ok (O, None)
   /\ results (fst (main engine config w)) = snd out)
  /\ ((0 < count_true (fst out))%nat ->
      snd (main engine config w)
      = (cb ← combine_results (snd out); mret (count_true (fst out), Some cb)))
  /\ (forall k cb,
        snd (main engine config w) = Ok (k, Some cb) ->
        rows_of cb = rows_spec (snd out) scenario_names).
Proof.
  intros P X out. unfold main.
  rewrite P, (printed_parameters_ok _ _ X), (run_all_ok _ _ _ _ _ X).
  cbn [Nat.add]. fold out. cbn [results model_files engine_runs].
  split; [|split].
  - intros Z0. rewrite Z0. cbn [Nat.ltb Nat.leb fst snd results].
    split; reflexivity.
  - intros Hpos. apply Nat.ltb_lt in Hpos. rewrite Hpos.
    destruct (combine_results (snd out)); reflexivity.
  - intros k cb.
    destruct (0 <? count_true (fst out))%nat; [|discriminate].
    destruct (combine_results (snd out)) as [cb'|e] eqn:C; [|discriminate].
    cbn [snd]. intros [= <- <-]. apply combine_results_rows. exact C.
Qed.

End OrchestratorFacts.

Section OrchestratorExamples.
Import Jshc Gen Agg Orch.

Lemma negative_extract :
  exists params e, parse_jshc negative_config = Ok params
                   /\ extract params = Raise e.
Proof.
  assert (H : (ps ← parse_jshc negative_config; extract ps)
              = Raise (KeyError "totalSteps")) by (vm_compute; reflexivity).
  assert (H' : (ps ← parse_jshc negative_config; mret tt) = Ok tt)
    by (vm_compute; reflexivity).
  destruct (parse_jshc negative_config) as [params|e];
    [|simpl in H'; discriminate H'].
  exists params, (KeyError "totalSteps"). split; [reflexivity|exact H].
Qed.

Lemma infinite_extract :
  exists params, parse_jshc infinite_config = Ok params
                 /\ extract params = Raise OverflowError.
Proof.
  assert (H : (ps ← parse_jshc infinite_config; extract ps)
              = Raise OverflowError) by (vm_compute; reflexivity).
  assert (H' : (ps ← parse_jshc infinite_config; mret tt) = Ok tt)
    by (vm_compute; reflexivity).
  destruct (parse_jshc infinite_config) as [params|e];
    [|simpl in H'; discriminate H'].
  exists params. split; [reflexivity|exact H].
Qed.

Lemma unusable_parameters_stop_before_engine_witness :
  fst (main always_failing negative_config empty_world) = empty_world
  /\ fst (main always_failing infinite_config empty_world) = empty_world.
Proof.
  destruct negative_extract as (params & e & P & X).
  destruct infinite_extract as (params' & P' & X').
  split.
  - exact (proj1 (unusable_parameters_stop_before_engine always_failing
                    negative_config params e empty_world P X)).
  - exact (proj1 (unusable_parameters_stop_before_engine always_failing
                    infinite_config params' _ empty_world P' X')).
Defined.

Lemma example_extract :
  exists params, parse_jshc example_config = Ok params
                 /\ extract params = Ok (example_consts 4 10).
Proof.
  assert (H : (ps ← parse_jshc example_config; extract ps)
              = Ok (example_consts 4 10)) by (vm_compute; reflexivity).
  destruct (parse_jshc example_config) as [params|e];
    [|simpl in H; discriminate H].
  exists params. split; [reflexivity|exact H].
Qed.

Lemma every_scenario_is_run_witness :
  engine_runs (fst (main (failing_for "fire_only") example_config empty_world))
  = scenario_names.
Proof.
  destruct example_extract as (params & P & X).
  exact (proj1 (every_scenario_is_run (failing_for "fire_only") example_config
                  params _ empty_world P X)).
Defined.

(** The run of [fire_only] fails, and the file that an earlier run left
    for it is combined with the others. *)
Lemma aggregation_ignores_failures_witness :
  let w := {| results := {[ result_file "fire_only" :=
                              [["step"; "numAlive"]; ["0"; "1"]; ["1"; "0"]] ]};
              model_files := []; engine_runs := [] |} in
  exists cb,
    snd (main (failing_for "fire_only") example_config w) = Ok (4%nat, Some cb)
    /\ length (rows_of cb) = 6%nat.
Proof.
  intros w. destruct example_extract as (params & P & X).
  pose proof (aggregation_ignores_failures (failing_for "fire_only")
                example_config params _ w P X) as (_ & Hsome & Hrows).
  cbv zeta in Hsome, Hrows.
  assert (K : count_true
                (fst (engine_outcomes (failing_for "fire_only")
                        (map (model_of (example_consts 4 10)) SCENARIOS)
                        (results w))) = 4%nat) by (vm_compute; reflexivity).
  rewrite K in Hsome. specialize (Hsome ltac:(lia)).
  destruct (combine_results
              (snd (engine_outcomes (failing_for "fire_only")
                      (map (model_of (example_consts 4 10)) SCENARIOS)
                      (results w)))) as [cb|e] eqn:C;
    [|vm_compute in C; discriminate C].
  cbn [mbind res_bind mret res_ret] in Hsome.
  exists cb. split; [exact Hsome|].
  rewrite (Hrows 4%nat cb Hsome). vm_compute. reflexivity.
Defined.

End OrchestratorExamples.

(** * Properties of the sweep configuration generator *)

Section SweepStrings.
Import Jshc Text Sweep.

Lemma sapp_cons x (a b : string) : String x a ++ b = String x (a ++ b).
Proof. reflexivity. Qed.

Lemma sapp_nil_l (b : string) : "" ++ b = b.
Proof. reflexivity. Qed.

Lemma sapp_nil_r (a : string) : a ++ "" = a.
Proof.
  induction a as [|x a IH]; [reflexivity|]. rewrite sapp_cons, IH. reflexivity.
Qed.

Lemma sapp_assoc (a b c : string) : (a ++ b) ++ c = a ++ (b ++ c).
Proof.
  induction a as [|x a IH]; [reflexivity|]. rewrite !sapp_cons, IH. reflexivity.
Qed.

Lemma word_not_space c : is_word c = true -> is_space c = false.
Proof. destruct c as [[] [] [] [] [] [] [] []]; vm_compute; congruence. Qed.

Lemma word_not_hash c : is_word c = true -> Ascii.eqb c "#" = false.
Proof. destruct c as [[] [] [] [] [] [] [] []]; vm_compute; congruence. Qed.

Lemma word_not_equals c : is_word c = true -> Ascii.eqb c "=" = false.
Proof. destruct c as [[] [] [] [] [] [] [] []]; vm_compute; congruence. Qed.

Lemma word_no_break c : is_word c = true -> no_break c = true.
Proof. destruct c as [[] [] [] [] [] [] [] []]; vm_compute; congruence. Qed.

Lemma numchar_not_space c : is_numchar c = true -> is_space c = false.
Proof. destruct c as [[] [] [] [] [] [] [] []]; vm_compute; congruence. Qed.

Lemma numchar_not_hash c : is_numchar c = true -> Ascii.eqb c "#" = false.
Proof. destruct c as [[] [] [] [] [] [] [] []]; vm_compute; congruence. Qed.

Lemma numchar_no_break c : is_numchar c = true -> no_break c = true.
Proof. destruct c as [[] [] [] [] [] [] [] []]; vm_compute; congruence. Qed.

Lemma forall_chars_impl (p q : ascii -> bool) s :
  (forall c, p c = true -> q c = true) ->
  forall_chars p s = true -> forall_chars q s = true.
Proof.
  intros I. induction s as [|c s IH]; simpl; [reflexivity|].
  intros H. apply andb_true_iff in H as [Hc Hs].
  rewrite (I c Hc), (IH Hs). reflexivity.
Qed.

Lemma forall_chars_app p a b :
  forall_chars p (a ++ b) = forall_chars p a && forall_chars p b.
Proof.
  induction a as [|c a IH]; rewrite ?sapp_nil_l, ?sapp_cons; simpl;
    [reflexivity|].
  rewrite IH, andb_assoc. reflexivity.
Qed.

Lemma forall_absent p d s :
  (forall c, p c = true -> Ascii.eqb c d = false) ->
  forall_chars p s = true -> contains d s = false.
Proof.
  intros I. induction s as [|c s IH]; simpl; [reflexivity|].
  intros H. apply andb_true_iff in H as [Hc Hs].
  rewrite (I c Hc), (IH Hs). reflexivity.
Qed.

Lemma contains_app d a b : contains d (a ++ b) = contains d a || contains d b.
Proof.
  induction a as [|c a IH]; rewrite ?sapp_nil_l, ?sapp_cons; simpl;
    [reflexivity|].
  rewrite IH, orb_assoc. reflexivity.
Qed.

Lemma before_first_id d s : contains d s = false -> before_first d s = s.
Proof.
  induction s as [|c s IH]; simpl; [reflexivity|].
  destruct (Ascii.eqb c d); simpl; [discriminate|].
  intros H. rewrite (IH H). reflexivity.
Qed.

Lemma before_first_app_l d a b :
  contains d a = false -> before_first d (a ++ b) = a ++ before_first d b.
Proof.
  induction a as [|c a IH]; rewrite ?sapp_nil_l, ?sapp_cons; simpl;
    [reflexivity|].
  destruct (Ascii.eqb c d); simpl; [discriminate|].
  intros H. rewrite (IH H). reflexivity.
Qed.

Lemma after_first_app_l d a b :
  contains d a = false -> after_first d (a ++ b) = after_first d b.
Proof.
  induction a as [|c a IH]; rewrite ?sapp_nil_l, ?sapp_cons; simpl;
    [reflexivity|].
  destruct (Ascii.eqb c d); simpl; [discriminate|exact IH].
Qed.

Lemma rstrip_app a b :
  rstrip (a ++ b)
  = match rstrip b with
    | EmptyString => rstrip a
    | r => a ++ r
    end.
Proof.
  induction a as [|c a IH]; rewrite ?sapp_nil_l, ?sapp_cons.
  - destruct (rstrip b); reflexivity.
  - cbn [rstrip]. rewrite IH. destruct (rstrip b) as [|x r]; [reflexivity|].
    destruct a; reflexivity.
Qed.

Lemma rstrip_solid p s :
  (forall c, p c = true -> is_space c = false) ->
  forall_chars p s = true -> rstrip s = s.
Proof.
  intros I. induction s as [|c s IH]; simpl; [reflexivity|].
  intros H. apply andb_true_iff in H as [Hc Hs].
  rewrite (IH Hs). destruct s; [rewrite (I c Hc)|]; reflexivity.
Qed.

Lemma rstrip_ends_solid p a w :
  (forall c, p c = true -> is_space c = false) ->
  w <> "" -> forall_chars p w = true -> rstrip (a ++ w) = a ++ w.
Proof.
  intros I Hne Hw. rewrite rstrip_app, (rstrip_solid p w I Hw).
  destruct w; [contradiction|reflexivity].
Qed.

Lemma head_char p s :
  s <> "" -> forall_chars p s = true ->
  exists c t, s = String c t /\ p c = true.
Proof.
  destruct s as [|c t]; [contradiction|]. simpl. intros _ H.
  apply andb_true_iff in H as [Hc _]. eauto.
Qed.

Lemma span_app p a b :
  forall_chars p a = true ->
  (b = "" \/ exists c t, b = String c t /\ p c = false) ->
  span p (a ++ b) = (a, b).
Proof.
  intros Ha Hb. induction a as [|x a IH]; rewrite ?sapp_nil_l, ?sapp_cons.
  - destruct Hb as [-> | (c & t & -> & Hc)]; simpl; [reflexivity|].
    rewrite Hc. reflexivity.
  - simpl in Ha. apply andb_true_iff in Ha as [Hx Ha].
    cbn [span]. rewrite Hx, (IH Ha). reflexivity.
Qed.

Lemma lstrip_app_head (n : string) (y : string) :
  (exists c t, n = String c t /\ is_space c = false) ->
  lstrip (n ++ y) = n ++ y.
Proof.
  intros (c & t & -> & Hc). rewrite sapp_cons. cbn [lstrip]. rewrite Hc.
  reflexivity.
Qed.

Lemma rstrip_keep (a x : string) :
  rstrip x = x -> x <> "" -> rstrip (a ++ x) = a ++ x.
Proof.
  intros Hr Hne. rewrite rstrip_app, Hr. destruct x; [contradiction|reflexivity].
Qed.

Lemma rstrip_line_feed (a : string) : rstrip (a ++ String LF "") = rstrip a.
Proof. rewrite rstrip_app. reflexivity. Qed.

Lemma rstrip_space (a : string) : rstrip (a ++ " ") = rstrip a.
Proof. rewrite rstrip_app. reflexivity. Qed.

(** A line [name = tail], stripped: what [parse_line] reads from it, when
    the name is a word and [tail] neither starts nor ends with white
    space and holds no [#]. *)
Lemma parse_line_assignment (name tail : string) (c : ascii) (t : string) :
  name <> "" -> forall_chars is_word name = true ->
  tail = String c t -> is_space c = false ->
  rstrip tail = tail -> contains "#" tail = false ->
  comment_free (name ++ " = " ++ tail ++ String LF "") = name ++ " = " ++ tail
  /\ key_of (name ++ " = " ++ tail ++ String LF "") = name
  /\ value_of (name ++ " = " ++ tail ++ String LF "") = tail.
Proof.
  intros Hne Hw Ht Hc Hr Hh.
  assert (Htne : tail <> "") by (rewrite Ht; discriminate).
  assert (Hhead : exists c0 t0, name = String c0 t0 /\ is_space c0 = false).
  { destruct (head_char _ _ Hne Hw) as (n0 & n' & -> & Hn0).
    exists n0, n'. split; [reflexivity|apply word_not_space; exact Hn0]. }
  assert (Hnh : contains "#" name = false)
    by (eapply forall_absent; [apply word_not_hash|exact Hw]).
  assert (Hneq : contains "=" name = false)
    by (eapply forall_absent; [apply word_not_equals|exact Hw]).
  assert (Hrn : rstrip name = name)
    by (eapply rstrip_solid; [apply word_not_space|exact Hw]).
  assert (CF : comment_free (name ++ " = " ++ tail ++ String LF "")
               = name ++ " = " ++ tail).
  { unfold comment_free. rewrite before_first_id.
    - unfold strip. rewrite (lstrip_app_head name _ Hhead).
      replace (name ++ " = " ++ tail ++ String LF "")
        with ((name ++ " = " ++ tail) ++ String LF "")
        by (rewrite !sapp_assoc; reflexivity).
      rewrite rstrip_line_feed.
      replace (name ++ " = " ++ tail) with ((name ++ " = ") ++ tail)
        by (rewrite !sapp_assoc; reflexivity).
      apply rstrip_keep; assumption.
    - rewrite !contains_app, Hnh, Hh. reflexivity. }
  split; [exact CF|]. unfold key_of, value_of. rewrite CF. split.
  - rewrite before_first_app_l by exact Hneq.
    replace (before_first "=" (" = " ++ tail)) with " " by reflexivity.
    unfold strip. rewrite (lstrip_app_head name _ Hhead), rstrip_space.
    exact Hrn.
  - rewrite after_first_app_l by exact Hneq.
    replace (after_first "=" (" = " ++ tail)) with (" " ++ tail) by reflexivity.
    unfold strip. rewrite Ht. simpl lstrip. rewrite Hc, <- Ht. exact Hr.
Qed.

End SweepStrings.

Section SweepRoundTrip.
Import Jshc Text Sweep.

Lemma span_all p s : forall_chars p s = true -> span p s = (s, "").
Proof.
  induction s as [|c s IH]; simpl; [reflexivity|].
  intros H. apply andb_true_iff in H as [Hc Hs].
  rewrite Hc, (IH Hs). reflexivity.
Qed.

Lemma re_match_value_unit (value u : string) :
  value <> "" -> forall_chars is_numchar value = true ->
  forall_chars is_word u = true ->
  re_match (value ++ (if String.eqb u "" then "" else " " ++ u))
  = Some (value, u).
Proof.
  intros Hne Hv Hu. unfold re_match.
  destruct (String.eqb_spec u "") as [-> | Hune].
  - rewrite span_app; [|exact Hv|left; reflexivity].
    destruct value; [contradiction|]. reflexivity.
  - rewrite span_app; [|exact Hv|right; exists " "%char, u; split; reflexivity].
    destruct (head_char _ _ Hune Hu) as (c & t & -> & Hc).
    assert (Sp : span is_space (" " ++ String c t) = (" ", String c t)).
    { rewrite sapp_cons, sapp_nil_l. cbn [span].
      change (is_space " ") with true. cbn [span].
      rewrite (word_not_space _ Hc). reflexivity. }
    rewrite Sp, (span_all _ _ Hu).
    destruct value; [contradiction|]. reflexivity.
Qed.

(** The line of a parameter that reads back is parsed to its binding. *)
Lemma parse_param_line (p : string * string * option string)
    (b : string * (Q * string)) :
  reads_back p b ->
  parse_line (param_line p ++ String LF "") = Ok (Some b).
Proof.
  destruct p as [[name value] unit], b as [key [num u]].
  intros (-> & Hnn & Hnw & Hvn & Hvw & Hf & Hu & Huw).
  set (tail := value ++ (if String.eqb u "" then "" else " " ++ u)).
  assert (Hline : param_line (name, value, unit) ++ String LF ""
                  = name ++ " = " ++ tail ++ String LF "").
  { unfold param_line, tail. subst u.
    destruct unit as [[|c v]|]; cbn [truthy str String.eqb];
      rewrite ?sapp_assoc; reflexivity. }
  destruct (head_char _ _ Hvn Hvw) as (c & t & Hv & Hc).
  assert (Htail : exists t', tail = String c t').
  { unfold tail. rewrite Hv, sapp_cons. eexists. reflexivity. }
  destruct Htail as [t' Ht'].
  assert (Hr : rstrip tail = tail).
  { unfold tail. destruct (String.eqb_spec u "") as [-> | Hune].
    - rewrite sapp_nil_r. exact (rstrip_solid _ _ numchar_not_space Hvw).
    - replace (value ++ " " ++ u) with ((value ++ " ") ++ u)
        by (rewrite sapp_assoc; reflexivity).
      eapply rstrip_ends_solid; [apply word_not_space|exact Hune|exact Huw]. }
  assert (Hh : contains "#" tail = false).
  { unfold tail. rewrite contains_app.
    rewrite (forall_absent _ _ _ numchar_not_hash Hvw).
    destruct (String.eqb u ""); [reflexivity|].
    rewrite contains_app, (forall_absent _ _ _ word_not_hash Huw). reflexivity. }
  destruct (parse_line_assignment name tail c t' Hnn Hnw Ht'
              (numchar_not_space _ Hc) Hr Hh) as (CF & K & V).
  rewrite Hline. unfold parse_line. rewrite CF, K, V.
  assert (E : contains "=" (name ++ " = " ++ tail) = true).
  { rewrite contains_app. replace (contains "=" (" = " ++ tail)) with true
      by reflexivity.
    apply orb_true_r. }
  rewrite E. unfold tail. rewrite (re_match_value_unit _ _ Hvn Hvw Huw), Hf.
  reflexivity.
Qed.

Lemma read_lines_line (l rest : string) :
  forall_chars no_break l = true ->
  read_lines (l ++ String LF rest) = (l ++ String LF "") :: read_lines rest.
Proof.
  induction l as [|c l IH]; rewrite ?sapp_nil_l, ?sapp_cons.
  - intros _. reflexivity.
  - intros H. cbn [forall_chars] in H. apply andb_true_iff in H as [Hc Hl].
    cbn [read_lines]. unfold no_break in Hc.
    apply andb_true_iff in Hc as [H1 H2].
    apply negb_true_iff in H1. apply negb_true_iff in H2.
    rewrite H1, H2, (IH Hl). reflexivity.
Qed.

Lemma read_lines_joined (ls : list string) :
  ls <> [] ->
  Forall (fun l => forall_chars no_break l = true) ls ->
  read_lines (String.concat (String LF "") ls ++ String LF "")
  = map (fun l => l ++ String LF "") ls.
Proof.
  intros Hne H. induction H as [|l rest Hl Hrest IH]; [contradiction|].
  destruct rest as [|l2 rest'].
  - cbn [String.concat map]. rewrite read_lines_line by exact Hl. reflexivity.
  - change (String.concat (String LF "") (l :: l2 :: rest'))
      with (l ++ String LF "" ++ String.concat (String LF "") (l2 :: rest')).
    rewrite !sapp_assoc, sapp_cons, sapp_nil_l.
    rewrite read_lines_line by exact Hl.
    cbn [map]. f_equal. apply IH. discriminate.
Qed.

Lemma parse_lines_bindings (ps : list (string * string * option string))
    (bs : list (string * (Q * string))) :
  Forall2 reads_back ps bs ->
  forall params,
    parse_lines (map (fun l => l ++ String LF "") (map param_line ps)) params
    = Ok (foldl (fun d b => <[fst b := snd b]> d) params bs).
Proof.
  induction 1 as [|p b ps bs Hpb _ IH]; intros params; [reflexivity|].
  cbn [map parse_lines foldl]. rewrite (parse_param_line p b Hpb).
  cbn [mbind res_bind]. destruct b as [key v]. apply IH.
Qed.

Lemma reads_back_no_break p b :
  reads_back p b -> forall_chars no_break (param_line p) = true.
Proof.
  destruct p as [[name value] unit], b as [key [num u]].
  intros (-> & Hnn & Hnw & Hvn & Hvw & Hf & Hu & Huw).
  pose proof (forall_chars_impl _ _ _ word_no_break Hnw) as Bn.
  pose proof (forall_chars_impl _ _ _ numchar_no_break Hvw) as Bv.
  pose proof (forall_chars_impl _ _ _ word_no_break Huw) as Bu.
  unfold param_line. subst u.
  destruct (truthy unit); rewrite !forall_chars_app, Bn, Bv, ?Bu; reflexivity.
Qed.

Lemma parse_line_hash (a b : string) :
  parse_line (String "#" a ++ b) = Ok None.
Proof. reflexivity. Qed.

Lemma jshc_file_parses (ps : list (string * string * option string))
    (bs : list (string * (Q * string))) (path : option string) (now : string) :
  forall_chars no_break (str path) = true ->
  forall_chars no_break now = true ->
  Forall2 reads_back ps bs ->
  parse_jshc (read_lines (generate_jshc ps path now))
  = Ok (foldl (fun d b => <[fst b := snd b]> d) ∅ bs).
Proof.
  intros Hp Hn Hb. unfold generate_jshc.
  rewrite read_lines_joined.
  - unfold jshc_lines. rewrite map_app. unfold parse_jshc.
    rewrite parse_lines_app. cbn [map parse_lines].
    rewrite ?sapp_assoc, !parse_line_hash.
    cbn [mbind res_bind]. apply parse_lines_bindings. exact Hb.
  - unfold jshc_lines. discriminate.
  - unfold jshc_lines. apply Forall_app. split.
    + repeat constructor; try reflexivity.
      * rewrite forall_chars_app. rewrite Hp. reflexivity.
      * rewrite forall_chars_app. rewrite Hn. reflexivity.
    + clear Hp Hn. induction Hb as [|p b ps bs Hpb _ IH]; [constructor|].
      cbn [map]. constructor; [eapply reads_back_no_break; exact Hpb|exact IH].
Qed.

End SweepRoundTrip.

Section SweepFiles.
Import Jshc Text Sweep.

(** X18.  A file that [generate_jshc] writes is read back by [parse_jshc]
    as the parameters it was written from: when every name is a word,
    every value a token of digits and dots that [float] accepts and every
    unit empty or a word, and neither the path nor the timestamp holds a
    line break, parsing the lines of the file gives exactly the bindings
    of the parameters (a later parameter of the same name overriding an
    earlier one); the seven header lines contribute nothing. *)
Theorem generated_file_reads_back
    (ps : list (string * string * option string))
    (bs : list (string * (Q * string))) (path : option string) (now : string) :
  forall_chars no_break (str path) = true ->
  forall_chars no_break now = true ->
  Forall2 reads_back ps bs ->
  parse_jshc (read_lines (generate_jshc ps path now))
  = Ok (foldl (fun d b => <[fst b := snd b]> d) ∅ bs).
Proof. exact (jshc_file_parses ps bs path now). Qed.

Lemma generated_file_reads_back_witness :
  parse_jshc
    (read_lines
       (generate_jshc
          [("maxTreesPerPatch", "12", Some "count");
           ("treeSuppression", "0.5", Some "")]
          (Some "capacity/high") "2026-01-01T10:00:00.000000"))
  = Ok (<["treeSuppression" := ((5 # 10)%Q, "")]>
          (<["maxTreesPerPatch" := (12%Q, "count")]> ∅)).
Proof.
  apply (generated_file_reads_back
           [("maxTreesPerPatch", "12", Some "count");
            ("treeSuppression", "0.5", Some "")]
           [("maxTreesPerPatch", (12%Q, "count"));
            ("treeSuppression", ((5 # 10)%Q, ""))]
           (Some "capacity/high") "2026-01-01T10:00:00.000000").
  - reflexivity.
  - reflexivity.
  - repeat constructor; try reflexivity; discriminate.
Defined.





End SweepFiles.

Section SweepRows.
Import Text Sweep.

Lemma od_set_keys k k' v d :
  In k (keys (od_set k' v d)) <-> k = k' \/ In k (keys d).
Proof.
  induction d as [|[k0 v0] d IH]; simpl; [intuition congruence|].
  destruct (String.eqb_spec k0 k') as [-> | Hne]; simpl; [intuition congruence|].
  rewrite IH. intuition congruence.
Qed.

Lemma od_set_NoDup k v d :
  List.NoDup (keys d) -> List.NoDup (keys (od_set k v d)).
Proof.
  induction d as [|[k0 v0] d IH]; simpl; intros N.
  - constructor; [intros []|constructor].
  - inversion N as [|? ? Hnot N']; subst.
    destruct (String.eqb_spec k0 k) as [-> | Hne]; simpl.
    + constructor; assumption.
    + constructor; [|apply IH; exact N'].
      intros C. apply od_set_keys in C as [C | C]; [congruence|contradiction].
Qed.

Lemma od_get_none k d : od_get k d = None <-> ~ In k (keys d).
Proof.
  induction d as [|[k0 v0] d IH]; simpl; [tauto|].
  destruct (String.eqb_spec k0 k) as [-> | Hne].
  - split; [discriminate|intros H; exfalso; apply H; left; reflexivity].
  - rewrite IH. split; [intros H [C | C]; [congruence|contradiction]|tauto].
Qed.

Lemma od_get_del k k' d :
  k <> k' -> od_get k (od_del k' d) = od_get k d.
Proof.
  intros Hne. induction d as [|[k0 v0] d IH]; simpl; [reflexivity|].
  destruct (String.eqb_spec k0 k') as [-> | H0]; simpl.
  - destruct (String.eqb_spec k' k); [congruence|reflexivity].
  - rewrite IH. reflexivity.
Qed.

Lemma od_del_keys k k' d :
  List.NoDup (keys d) ->
  (In k (keys (od_del k' d)) <-> k <> k' /\ In k (keys d)).
Proof.
  induction d as [|[k0 v0] d IH]; simpl; intros N; [tauto|].
  inversion N as [|? ? Hnot N']; subst.
  destruct (String.eqb_spec k0 k') as [-> | H0]; simpl.
  - split.
    + intros H. split; [intros ->; contradiction|right; exact H].
    + intros [H1 [H2 | H2]]; [congruence|exact H2].
  - rewrite (IH N'). split.
    + intros [-> | [H1 H2]]; [split; [exact H0|left; reflexivity]|tauto].
    + intros [H1 [H2 | H2]]; [left; exact H2|right; tauto].
Qed.

Lemma od_del_NoDup k d :
  List.NoDup (keys d) -> List.NoDup (keys (od_del k d)).
Proof.
  induction d as [|[k0 v0] d IH]; simpl; intros N; [constructor|].
  inversion N as [|? ? Hnot N']; subst.
  destruct (String.eqb_spec k0 k) as [-> | H0]; simpl; [exact N'|].
  constructor; [|apply IH; exact N'].
  intros C. apply (od_del_keys _ _ _ N') in C as [_ C]. contradiction.
Qed.

Lemma fold_set_keys (l : list (string * string)) : forall d k,
  In k (keys (foldl (fun d kv => od_set (fst kv) (Some (snd kv)) d) d l))
  <-> In k (keys d) \/ In k (map fst l).
Proof.
  induction l as [|[a b] l IH]; intros d k; simpl; [tauto|].
  rewrite IH, od_set_keys. intuition congruence.
Qed.

Lemma fold_set_NoDup (l : list (string * string)) : forall d,
  List.NoDup (keys d) ->
  List.NoDup (keys (foldl (fun d kv => od_set (fst kv) (Some (snd kv)) d) d l)).
Proof.
  induction l as [|[a b] l IH]; intros d N; simpl; [exact N|].
  apply IH, od_set_NoDup, N.
Qed.

Lemma fold_none_keys (l : list string) : forall d k,
  In k (keys (foldl (fun d key => od_set key None d) d l))
  <-> In k (keys d) \/ In k l.
Proof.
  induction l as [|a l IH]; intros d k; simpl; [tauto|].
  rewrite IH, od_set_keys. intuition congruence.
Qed.

Lemma fold_none_NoDup (l : list string) : forall d,
  List.NoDup (keys d) ->
  List.NoDup (keys (foldl (fun d key => od_set key None d) d l)).
Proof.
  induction l as [|a l IH]; intros d N; simpl; [exact N|].
  apply IH, od_set_NoDup, N.
Qed.

Lemma zip_fst_take (names record : list string) :
  map fst (zip names record) = take (length record) names.
Proof.
  revert record. induction names as [|n names IH]; intros [|r record]; simpl;
    try reflexivity.
  rewrite IH. reflexivity.
Qed.

(** The keys of a row of the reader are the field names. *)
Lemma to_row_keys (names record : list string) (k : string) :
  In k (keys (fields (to_row names record))) <-> In k names.
Proof.
  unfold to_row.
  destruct (Nat.ltb_spec (length names) (length record)) as [Hlt | Hge];
    cbn [fields].
  - rewrite fold_set_keys, zip_fst_take, take_ge by lia. simpl. tauto.
  - rewrite fold_none_keys, fold_set_keys, zip_fst_take. simpl.
    rewrite <- (take_drop (length record) names) at 3.
    rewrite in_app_iff. tauto.
Qed.

Lemma to_row_NoDup (names record : list string) :
  List.NoDup (keys (fields (to_row names record))).
Proof.
  unfold to_row.
  destruct (length names <? length record)%nat; cbn [fields].
  - apply fold_set_NoDup. constructor.
  - apply fold_none_NoDup, fold_set_NoDup. constructor.
Qed.

Lemma to_row_surplus (names record : list string) :
  surplus (to_row names record)
  = if (length names <? length record)%nat
    then Some (drop (length names) record) else None.
Proof. unfold to_row. destruct (length names <? length record)%nat; reflexivity. Qed.

(** X20.  On a row of the reader, [extract_parameters] raises
    [KeyError('path')] exactly when the header has no [path] column, and
    otherwise [AttributeError] exactly when the record has more fields
    than the header; it returns normally in the remaining case. *)
Theorem extract_parameters_errors (names record : list string) :
  (~ In "path" names ->
   extract_parameters (to_row names record) = Fail (KeyError "path"))
  /\ (In "path" names -> (length names < length record)%nat ->
      extract_parameters (to_row names record) = Fail AttributeError)
  /\ (In "path" names -> (length record <= length names)%nat ->
      exists path params,
        extract_parameters (to_row names record) = Done (path, params)).
Proof.
  unfold extract_parameters. rewrite to_row_surplus.
  split; [|split].
  - intros H.
    assert (E : od_get "path" (fields (to_row names record)) = None).
    { apply od_get_none. rewrite to_row_keys. exact H. }
    rewrite E. reflexivity.
  - intros H Hlt.
    destruct (od_get "path" (fields (to_row names record))) as [p|] eqn:E.
    + apply Nat.ltb_lt in Hlt. rewrite Hlt. reflexivity.
    + apply od_get_none in E. rewrite to_row_keys in E. contradiction.
  - intros H Hle.
    destruct (od_get "path" (fields (to_row names record))) as [p|] eqn:E.
    + destruct (Nat.ltb_spec (length names) (length record)); [lia|].
      eexists _, _. reflexivity.
    + apply od_get_none in E. rewrite to_row_keys in E. contradiction.
Qed.

Lemma extract_parameters_errors_witness :
  extract_parameters (to_row ["name"; "value"] ["a"; "1"])
  = Fail (KeyError "path")
  /\ extract_parameters (to_row ["path"; "x"] ["a"; "1"; "2"])
     = Fail AttributeError.
Proof.
  destruct (extract_parameters_errors ["name"; "value"] ["a"; "1"]) as (K & _ & _).
  destruct (extract_parameters_errors ["path"; "x"] ["a"; "1"; "2"])
    as (_ & A & _).
  split.
  - apply K. simpl. intros [H | [H | []]]; discriminate H.
  - apply A; [left; reflexivity|simpl; lia].
Defined.

Lemma ends_with_suffix (suffix s : string) :
  ends_with suffix s = true <-> exists pre, s = pre ++ suffix.
Proof.
  induction s as [|c s IH]; cbn [ends_with].
  - rewrite orb_false_r. split.
    + intros H. apply String.eqb_eq in H. subst suffix. exists "". reflexivity.
    + intros [pre H]. destruct pre; [rewrite sapp_nil_l in H; subst; reflexivity|].
      rewrite sapp_cons in H. discriminate H.
  - rewrite orb_true_iff, IH. split.
    + intros [H | [pre H]].
      * apply String.eqb_eq in H. exists "". rewrite sapp_nil_l. exact H.
      * exists (String c pre). rewrite sapp_cons, H. reflexivity.
    + intros [pre H]. destruct pre as [|x pre].
      * left. rewrite sapp_nil_l in H. apply String.eqb_eq. exact H.
      * right. rewrite sapp_cons in H. injection H as _ H. exists pre. exact H.
Qed.

(** X21.  What [extract_parameters] returns for a row with a [path]
    column and no surplus: the path cell, and exactly the parameters
    (name, value, unit) such that the name is a column other than [path]
    that does not end in [_unit], its cell is the non-empty value, and the
    unit is the cell of the column [name_unit], or the empty string when
    there is no such column.  So an empty cell gives no parameter, and a
    column whose name ends in [_unit] is never a parameter of its own. *)
Theorem extract_parameters_returns (names record : list string)
    (path : option string) :
  (length record <= length names)%nat ->
  od_get "path" (fields (to_row names record)) = Some path ->
  exists params,
    extract_parameters (to_row names record) = Done (path, params)
    /\ forall name value unit,
         In (name, value, unit) params
         <-> (name <> "path"
              /\ ~ (exists pre, name = pre ++ "_unit")
              /\ od_get name (fields (to_row names record)) = Some (Some value)
              /\ value <> ""
              /\ unit = unit_of name (od_del "path" (fields (to_row names record)))).
Proof.
  intros Hle Hp. unfold extract_parameters.
  rewrite Hp, to_row_surplus.
  destruct (Nat.ltb_spec (length names) (length record)); [lia|].
  eexists. split; [reflexivity|].
  pose proof (to_row_NoDup names record) as N.
  set (d := fields (to_row names record)) in *.
  intros name value unit. rewrite in_flat_map. split.
  - intros (k & Hk & Hin). apply filter_In in Hk as [Hkeys Hend].
    apply (od_del_keys _ _ _ N) in Hkeys as [Hne Hkd].
    rewrite (od_get_del _ _ _ Hne) in Hin.
    destruct (od_get k d) as [[[|c v]|]|] eqn:G; try (destruct Hin; fail).
    destruct Hin as [[= <- <- <-]|[]].
    apply negb_true_iff in Hend.
    repeat split; try assumption; try discriminate; try reflexivity.
    intros Hex. apply ends_with_suffix in Hex. congruence.
  - intros (Hne & Hend & G & Hv & ->).
    exists name. split.
    + apply filter_In. split.
      * apply (od_del_keys _ _ _ N). split; [exact Hne|].
        destruct (in_dec String.string_dec name (keys d)) as [H'|H'];
          [exact H'|].
        apply od_get_none in H'. congruence.
      * apply negb_true_iff.
        destruct (ends_with "_unit" name) eqn:E; [|reflexivity].
        apply ends_with_suffix in E. contradiction.
    + rewrite (od_get_del _ _ _ Hne), G.
      destruct value; [contradiction|]. left. reflexivity.
Qed.

Lemma extract_parameters_returns_witness :
  exists params,
    extract_parameters
      (to_row ["path"; "maxTreesPerPatch"; "maxTreesPerPatch_unit"; "removalEffort"]
         ["capacity/high"; "12"; "count"; ""])
    = Done (Some "capacity/high", params)
    /\ (In ("maxTreesPerPatch", "12", Some "count") params
        <-> ("maxTreesPerPatch" <> "path"
             /\ ~ (exists pre, "maxTreesPerPatch" = pre ++ "_unit")
             /\ od_get "maxTreesPerPatch"
                  (fields (to_row ["path"; "maxTreesPerPatch";
                                   "maxTreesPerPatch_unit"; "removalEffort"]
                             ["capacity/high"; "12"; "count"; ""]))
                = Some (Some "12")
             /\ "12" <> ""
             /\ Some "count"
                = unit_of "maxTreesPerPatch"
                    (od_del "path"
                       (fields (to_row ["path"; "maxTreesPerPatch";
                                        "maxTreesPerPatch_unit"; "removalEffort"]
                                  ["capacity/high"; "12"; "count"; ""]))))).
Proof.
  destruct (extract_parameters_returns
              ["path"; "maxTreesPerPatch"; "maxTreesPerPatch_unit"; "removalEffort"]
              ["capacity/high"; "12"; "count"; ""] (Some "capacity/high"))
    as (params & E & H); [simpl; lia|reflexivity|].
  exists params. split; [exact E|apply H].
Defined.

End SweepRows.

(** * Further properties of the parameterizer *)

Section GeneratorKeys.
Import Gen.

Lemma first_error_int params key rest (K : Z -> res consts) :
  (forall z, match first_error params rest with
             | Some e => K z = Raise e
             | None => exists c, K z = Ok c
             end) ->
  match first_error params ((key, true) :: rest) with
  | Some e => (z ← int params key; K z) = Raise e
  | None => exists c, (z ← int params key; K z) = Ok c
  end.
Proof.
  intros H. cbn [first_error]. unfold read_error, int, num, getitem.
  cbn [fst snd andb].
  destruct (params !! key) as [[q unit]|]; cbn [mbind res_bind mret res_ret fst];
    [|reflexivity].
  destruct (is_inf q); cbn [mbind res_bind]; [reflexivity|]. apply H.
Qed.

Lemma first_error_num params key rest (K : Q -> res consts) :
  (forall q, match first_error params rest with
             | Some e => K q = Raise e
             | None => exists c, K q = Ok c
             end) ->
  match first_error params ((key, false) :: rest) with
  | Some e => (q ← num params key; K q) = Raise e
  | None => exists c, (q ← num params key; K q) = Ok c
  end.
Proof.
  intros H. cbn [first_error]. unfold read_error, num, getitem.
  cbn [fst snd andb].
  destruct (params !! key) as [[q unit]|]; cbn [mbind res_bind mret res_ret fst];
    [|reflexivity].
  apply H.
Qed.

Lemma extract_first_error (params : gmap string (Q * string)) :
  match first_error params required_reads with
  | Some e => extract params = Raise e
  | None => exists c, extract params = Ok c
  end.
Proof.
  unfold required_reads, extract.
  repeat (first [apply first_error_int | apply first_error_num]; intros ?).
  eexists. reflexivity.
Qed.

Lemma first_error_some params reads e :
  first_error params reads = Some e ->
  exists r, In r reads /\ read_error params r = Some e.
Proof.
  induction reads as [|r rest IH]; simpl; [discriminate|].
  destruct (read_error params r) as [e'|] eqn:R.
  - intros [= <-]. exists r. split; [left; reflexivity|exact R].
  - intros H. destruct (IH H) as (r' & Hin & R'). exists r'.
    split; [right; exact Hin|exact R'].
Qed.

Lemma first_error_none params reads :
  first_error params reads = None <->
  forall r, In r reads -> read_error params r = None.
Proof.
  induction reads as [|r rest IH]; simpl.
  - split; [intros _ r []|reflexivity].
  - destruct (read_error params r) as [e'|] eqn:R.
    + split; [discriminate|]. intros H.
      specialize (H r (or_introl eq_refl)). congruence.
    + rewrite IH. split.
      * intros H r' [<-|Hin]; [exact R|apply H; exact Hin].
      * intros H r' Hin. apply H. right. exact Hin.
Qed.

Lemma read_error_none params key through_int :
  read_error params (key, through_int) = None <->
  exists q unit, params !! key = Some (q, unit)
                 /\ (through_int = true -> is_inf q = false).
Proof.
  unfold read_error. cbn [fst snd].
  destruct (params !! key) as [[q unit]|]; cbn [fst].
  - split.
    + intros H. exists q, unit. split; [reflexivity|].
      intros ->. cbn [andb] in H. destruct (is_inf q); [discriminate H|reflexivity].
    + intros (q' & unit' & [= <- <-] & H).
      destruct through_int; cbn [andb]; [|reflexivity].
      rewrite (H eq_refl). reflexivity.
  - split; [discriminate|]. intros (q & unit & H & _). discriminate H.
Qed.

Lemma read_error_some params key through_int e :
  read_error params (key, through_int) = Some e ->
  (e = KeyError key /\ params !! key = None)
  \/ (e = OverflowError /\ through_int = true
      /\ exists q unit, params !! key = Some (q, unit) /\ is_inf q = true).
Proof.
  unfold read_error. cbn [fst snd].
  destruct (params !! key) as [[q unit]|]; cbn [fst].
  - destruct through_int; cbn [andb]; [|discriminate].
    destruct (is_inf q) eqn:I; [|discriminate].
    intros [= <-]. right. split; [reflexivity|]. split; [reflexivity|].
    exists q, unit. split; [reflexivity|exact I].
  - intros [= <-]. left. split; reflexivity.
Qed.

(** X22.  [generate_model] succeeds exactly when the dictionary has all
    33 keys it reads and every value it passes to [int] is finite,
    whatever the scenario is; otherwise it raises the error of the first
    failing read, in the order of the reads: [KeyError] for a missing key,
    [OverflowError] for an infinite value. *)
Theorem generate_model_needs_every_key (name : string) (hf : bool)
    (sb re : Z) (params : gmap string (Q * string)) :
  match first_error params required_reads with
  | Some e => generate_model name hf sb re params = Raise e
  | None => exists m, generate_model name hf sb re params = Ok m
  end
  /\ ((exists m, generate_model name hf sb re params = Ok m) <->
      (forall key through_int,
          In (key, through_int) required_reads ->
          exists q unit, params !! key = Some (q, unit)
                         /\ (through_int = true -> is_inf q = false)))
  /\ (forall key,
        generate_model name hf sb re params = Raise (KeyError key) ->
        In key (map fst required_reads) /\ params !! key = None)
  /\ (generate_model name hf sb re params = Raise OverflowError ->
      exists key q unit,
        In (key, true) required_reads
        /\ params !! key = Some (q, unit) /\ is_inf q = true)
  /\ length required_reads = 33%nat.
Proof.
  assert (G : match first_error params required_reads with
              | Some e => generate_model name hf sb re params = Raise e
              | None => exists m, generate_model name hf sb re params = Ok m
              end).
  { pose proof (extract_first_error params) as H. unfold generate_model.
    destruct (first_error params required_reads) as [e|].
    - rewrite H. reflexivity.
    - destruct H as [c ->]. eexists. reflexivity. }
  split; [exact G|].
  destruct (first_error params required_reads) as [e|] eqn:F.
  - apply first_error_some in F as ([key through_int] & Hin & R).
    split; [|split; [|split; [|reflexivity]]].
    + split.
      * intros [m Hm]. congruence.
      * intros H. destruct (H key through_int Hin) as (q & unit & L & I).
        assert (N : read_error params (key, through_int) = None)
          by (apply read_error_none; eauto).
        congruence.
    + intros key' H. rewrite G in H. injection H as He. subst e.
      apply read_error_some in R as [[E L]|[C _]]; [|discriminate C].
      injection E as E. subst key'. split; [|exact L].
      apply in_map_iff. exists (key, through_int). split; [reflexivity|exact Hin].
    + intros H. rewrite G in H. injection H as He. subst e.
      apply read_error_some in R as [[C _]|(_ & T & q & unit & L & I)];
        [discriminate C|].
      subst through_int.
      exists key, q, unit. split; [exact Hin|]. split; assumption.
  - split; [|split; [|split; [|reflexivity]]].
    + split; [|intros _; exact G].
      intros _ key through_int Hin. apply read_error_none.
      exact (proj1 (first_error_none params required_reads) F _ Hin).
    + intros key H. destruct G as [m G]. congruence.
    + intros H. destruct G as [m G]. congruence.
Qed.

End GeneratorKeys.

Section GeneratorKeyExamples.
Import Jshc Gen.

(** A dictionary without [initialTreesPerPatch], and one whose horizon
    is infinite. *)
Lemma generate_model_needs_every_key_witness :
  generate_model "baseline" false 0 0 (<["totalSteps" := (30%Q, "count")]> ∅)
  = Raise (KeyError "initialTreesPerPatch")
  /\ generate_model "baseline" false 0 0
       (<["totalSteps" := (inject_Z (10 ^ 309), "count")]> ∅)
     = Raise OverflowError.
Proof.
  split.
  - pose proof (generate_model_needs_every_key "baseline" false 0 0
                  (<["totalSteps" := (30%Q, "count")]> ∅)) as [H _].
    assert (F : first_error (<["totalSteps" := (30%Q, "count")]> ∅)
                  required_reads = Some (KeyError "initialTreesPerPatch"))
      by (vm_compute; reflexivity).
    rewrite F in H. exact H.
  - pose proof (generate_model_needs_every_key "baseline" false 0 0
                  (<["totalSteps" := (inject_Z (10 ^ 309), "count")]> ∅))
      as [H _].
    assert (F : first_error
                  (<["totalSteps" := (inject_Z (10 ^ 309), "count")]> ∅)
                  required_reads = Some OverflowError)
      by (vm_compute; reflexivity).
    rewrite F in H. exact H.
Defined.

End GeneratorKeyExamples.
